(** * seqHMM: the forward recursion and the mixture Viterbi decoder

    A shallow embedding of [src/internalForward.cpp] and [src/viterbix.cpp].

    - A C++ [double] is an extended real [xreal]: a real number, one of the
      two infinities, or NaN; the special values follow IEEE 754.  The
      product, the quotient and the exponential respect the range of
      doubles: a result beyond the largest double is an infinity, and a
      quotient or an exponential below half the smallest positive double is
      zero.  Sums of finite values are exact.  Rounding inside the range and
      signed zeros are not modelled.
    - Armadillo containers carry their dimensions and a total element
      function; every access, sub-view and element-wise operation goes
      through the library's bounds and size checks, which abort the call
      (the [Err] results of the [res] monad).
    - Loops are monadic folds over the index range they run through. *)

From Stdlib Require Import List Arith ZArith Bool Lia Reals Lra.
Import ListNotations.

Set Implicit Arguments.

(** ** Aborted computations *)

Inductive arma_error : Type :=
| IndexOutOfBounds        (* element access or sub-view outside the object *)
| IncompatibleDimensions  (* element-wise operation or assignment on different sizes *)
| NoElements.             (* max / index_max of an empty object *)

Inductive res (A : Type) : Type :=
| Ok (a : A)
| Err (e : arma_error).

Arguments Ok {A} a.
Arguments Err {A} e.

Definition bind {A B : Type} (m : res A) (f : A -> res B) : res B :=
  match m with
  | Ok a => f a
  | Err e => Err e
  end.

Declare Scope res_scope.
Delimit Scope res_scope with res.
Notation "x <- m ;; k" := (bind m (fun x => k))
  (at level 61, m at next level, right associativity) : res_scope.
Notation "' pat <- m ;; k" := (bind m (fun x => match x with pat => k end))
  (at level 61, pat pattern, m at next level, right associativity) : res_scope.
Open Scope res_scope.

(** [for (x in l) s = body x s] *)
Fixpoint for_loop {S : Type} (l : list nat) (body : nat -> S -> res S) (s : S)
  : res S :=
  match l with
  | [] => Ok s
  | x :: l' => s' <- body x s ;; for_loop l' body s'
  end.

(** ** Doubles *)

Inductive xreal : Type :=
| NaN
| NInf
| PInf
| Fin (r : R).

Definition Rltb (a b : R) : bool := if Rlt_dec a b then true else false.

Definition xadd (a b : xreal) : xreal :=
  match a, b with
  | NaN, _ | _, NaN => NaN
  | PInf, NInf | NInf, PInf => NaN
  | PInf, _ | _, PInf => PInf
  | NInf, _ | _, NInf => NInf
  | Fin x, Fin y => Fin (x + y)
  end.

Definition xneg (a : xreal) : xreal :=
  match a with
  | NaN => NaN
  | NInf => PInf
  | PInf => NInf
  | Fin x => Fin (- x)
  end.

Definition xsub (a b : xreal) : xreal := xadd a (xneg b).

(** sign of a real: [Lt] negative, [Eq] zero, [Gt] positive *)
Definition Rsign (x : R) : comparison :=
  if Rlt_dec x 0 then Lt else if Rlt_dec 0 x then Gt else Eq.

Definition xsign (a : xreal) : option comparison :=
  match a with
  | NaN => None
  | NInf => Some Lt
  | PInf => Some Gt
  | Fin x => Some (Rsign x)
  end.

Definition inf_of_sign (s t : comparison) : xreal :=
  match s, t with
  | Eq, _ | _, Eq => NaN
  | Lt, Lt | Gt, Gt => PInf
  | _, _ => NInf
  end.

(** The range of doubles: [dbl_max] is the largest double,
    [(2 - 2^-52) * 2^1023], and [dbl_tiny] half the smallest positive one,
    [2^-1075]. *)
Definition dbl_max : R := ((2 - / 2 ^ 52) * 2 ^ 1023)%R.
Definition dbl_tiny : R := (/ 2 ^ 1075)%R.

(** overflow: a real result beyond [dbl_max] becomes an infinity *)
Definition xover (r : R) : xreal :=
  if Rlt_dec dbl_max r then PInf
  else if Rlt_dec r (- dbl_max)%R then NInf
  else Fin r.

(** overflow and underflow: a result below [dbl_tiny] becomes zero *)
Definition xrange (r : R) : xreal :=
  if Rlt_dec dbl_max r then PInf
  else if Rlt_dec r (- dbl_max)%R then NInf
  else if Rlt_dec (Rabs r) dbl_tiny then Fin 0
  else Fin r.

Definition xmul (a b : xreal) : xreal :=
  match a, b with
  | NaN, _ | _, NaN => NaN
  | Fin x, Fin y => xover (x * y)
  | _, _ =>
      match xsign a, xsign b with
      | Some s, Some t => inf_of_sign s t
      | _, _ => NaN
      end
  end.

(** zero is the positive zero: [x / 0] has the sign of [x] *)
Definition xdiv (a b : xreal) : xreal :=
  match a, b with
  | NaN, _ | _, NaN => NaN
  | Fin x, Fin y =>
      match Rsign y with
      | Eq => match Rsign x with Lt => NInf | Eq => NaN | Gt => PInf end
      | _ => xrange (x / y)
      end
  | Fin _, _ => Fin 0
  | _, Fin y =>
      match xsign a, Rsign y with
      | Some s, Eq => inf_of_sign s Gt
      | Some s, t => inf_of_sign s t
      | None, _ => NaN
      end
  | _, _ => NaN
  end.

Definition xexp (a : xreal) : xreal :=
  match a with
  | NaN => NaN
  | NInf => Fin 0
  | PInf => PInf
  | Fin x => xrange (exp x)
  end.

Definition xlog (a : xreal) : xreal :=
  match a with
  | NaN | NInf => NaN
  | PInf => PInf
  | Fin x =>
      match Rsign x with
      | Lt => NaN
      | Eq => NInf
      | Gt => Fin (ln x)
      end
  end.

(** [a > b] of C++: false as soon as one side is NaN *)
Definition xgt (a b : xreal) : bool :=
  match a, b with
  | NaN, _ | _, NaN => false
  | PInf, PInf => false
  | PInf, _ => true
  | _, PInf => false
  | NInf, _ => false
  | Fin _, NInf => true
  | Fin x, Fin y => Rltb y x
  end.

Definition xsum (l : list xreal) : xreal := fold_left xadd l (Fin 0).

(** ** Armadillo containers *)

(** [arma::Mat<A>]: [m_at M i j] is the element in row [i], column [j]. *)
Record mat (A : Type) : Type := mkMat {
  m_rows : nat;
  m_cols : nat;
  m_at : nat -> nat -> A
}.

(** [arma::Cube<A>]: [c_at C i j k] is row [i], column [j], slice [k]. *)
Record cube (A : Type) : Type := mkCube {
  c_rows : nat;
  c_cols : nat;
  c_slices : nat;
  c_at : nat -> nat -> nat -> A
}.

Section Containers.
Variable A : Type.

(** [v(i)] on a vector, kept as the list of its elements *)
Definition vget (v : list A) (i : nat) : res A :=
  match nth_error v i with
  | Some x => Ok x
  | None => Err IndexOutOfBounds
  end.

Fixpoint upd_nth (v : list A) (i : nat) (x : A) : list A :=
  match v, i with
  | [], _ => []
  | _ :: v', O => x :: v'
  | y :: v', S i' => y :: upd_nth v' i' x
  end.

(** [v(i) = x] *)
Definition vset (v : list A) (i : nat) (x : A) : res (list A) :=
  if i <? length v then Ok (upd_nth v i x) else Err IndexOutOfBounds.

(** [M(i,j)] *)
Definition mget (M : mat A) (i j : nat) : res A :=
  if (i <? m_rows M) && (j <? m_cols M) then Ok (m_at M i j)
  else Err IndexOutOfBounds.

Definition mupd (M : mat A) (i j : nat) (x : A) : mat A :=
  mkMat (m_rows M) (m_cols M)
    (fun i' j' => if (i' =? i) && (j' =? j) then x else m_at M i' j').

(** [M(i,j) = x] *)
Definition mset (M : mat A) (i j : nat) (x : A) : res (mat A) :=
  if (i <? m_rows M) && (j <? m_cols M) then Ok (mupd M i j x)
  else Err IndexOutOfBounds.

(** [M.col(j)], read *)
Definition mcol (M : mat A) (j : nat) : res (list A) :=
  if j <? m_cols M then Ok (map (fun i => m_at M i j) (seq 0 (m_rows M)))
  else Err IndexOutOfBounds.

Definition mupd_col (M : mat A) (j : nat) (v : list A) : mat A :=
  mkMat (m_rows M) (m_cols M)
    (fun i' j' => if j' =? j then nth i' v (m_at M i' j') else m_at M i' j').

(** [M.col(j) = v] *)
Definition mset_col (M : mat A) (j : nat) (v : list A) : res (mat A) :=
  if j <? m_cols M then
    if length v =? m_rows M then Ok (mupd_col M j v)
    else Err IncompatibleDimensions
  else Err IndexOutOfBounds.

(** [C(i,j,k)] *)
Definition cget (C : cube A) (i j k : nat) : res A :=
  if (i <? c_rows C) && (j <? c_cols C) && (k <? c_slices C)
  then Ok (c_at C i j k)
  else Err IndexOutOfBounds.

Definition cupd (C : cube A) (i j k : nat) (x : A) : cube A :=
  mkCube (c_rows C) (c_cols C) (c_slices C)
    (fun i' j' k' =>
       if (i' =? i) && (j' =? j) && (k' =? k) then x else c_at C i' j' k').

(** [C(i,j,k) = x] *)
Definition cset (C : cube A) (i j k : nat) (x : A) : res (cube A) :=
  if (i <? c_rows C) && (j <? c_cols C) && (k <? c_slices C)
  then Ok (cupd C i j k x)
  else Err IndexOutOfBounds.

(** [C.slice(k)] *)
Definition cslice (C : cube A) (k : nat) : res (mat A) :=
  if k <? c_slices C
  then Ok (mkMat (c_rows C) (c_cols C) (fun i j => c_at C i j k))
  else Err IndexOutOfBounds.

(** [arma::Mat<A> M(r, c)]: the fresh elements are written before they are
    read on every path below, [fill] stands for their initial content *)
Definition mat_new (r c : nat) (fill : A) : mat A :=
  mkMat r c (fun _ _ => fill).

Definition mmap (B : Type) (f : A -> B) (M : mat A) : mat B :=
  mkMat (m_rows M) (m_cols M) (fun i j => f (m_at M i j)).

(** [M.t()] *)
Definition mtrans (M : mat A) : mat A :=
  mkMat (m_cols M) (m_rows M) (fun i j => m_at M j i).
End Containers.

(** [emission(i, o, r)] where [o] is an element of an [arma::icube]: the
    signed code is converted to [uword], a negative one becomes an index
    beyond every dimension *)
Definition cget_sword (A : Type) (C : cube A) (i : nat) (o : Z) (r : nat)
  : res A :=
  if (o <? 0)%Z then Err IndexOutOfBounds else cget C i (Z.to_nat o) r.

(** ** Armadillo operations on doubles *)

Fixpoint map2 (A B C : Type) (f : A -> B -> C) (u : list A) (v : list B)
  : list C :=
  match u, v with
  | x :: u', y :: v' => f x y :: map2 f u' v'
  | _, _ => []
  end.

(** [u + v] on vectors *)
Definition vadd (u v : list xreal) : res (list xreal) :=
  if length u =? length v then Ok (map2 xadd u v)
  else Err IncompatibleDimensions.

(** The scan of [op_max]: the running maximum starts at the most negative
    double with index 0 and moves on a strictly greater element only. *)
Fixpoint max_scan (l : list xreal) (i : nat) (best : xreal) (besti : nat)
  : xreal * nat :=
  match l with
  | [] => (best, besti)
  | x :: l' =>
      if xgt x best then max_scan l' (S i) x i
      else max_scan l' (S i) best besti
  end.

(** [v.max(index)]: the maximum and where it was found *)
Definition vmax_index (v : list xreal) : res (xreal * nat) :=
  match v with
  | [] => Err NoElements
  | _ => Ok (max_scan v 0 NInf 0)
  end.

(** [v.max()] *)
Definition vmax (v : list xreal) : res xreal :=
  '(m, _) <- vmax_index v ;; Ok m.

(** [v.index_max()] *)
Definition vindex_max (v : list xreal) : res nat :=
  '(_, ix) <- vmax_index v ;; Ok ix.

(** [A * B] *)
Definition mmul (A B : mat xreal) : res (mat xreal) :=
  if m_cols A =? m_rows B then
    Ok (mkMat (m_rows A) (m_cols B)
          (fun i j =>
             xsum (map (fun p => xmul (m_at A i p) (m_at B p j))
                       (seq 0 (m_cols A)))))
  else Err IncompatibleDimensions.

(** [sum(M, 0)]: the sum of each column *)
Definition msum0 (M : mat xreal) : list xreal :=
  map (fun j => xsum (map (fun i => m_at M i j) (seq 0 (m_rows M))))
      (seq 0 (m_cols M)).

(** [M.each_row() /= v] *)
Definition each_row_div (M : mat xreal) (v : list xreal) : res (mat xreal) :=
  if length v =? m_cols M then
    Ok (mkMat (m_rows M) (m_cols M)
          (fun i j => xdiv (m_at M i j) (nth j v NaN)))
  else Err IncompatibleDimensions.

(** ** Helpers declared in [seqHMM.h] *)

(** Modelled from the spec: [logSumExp], declared in [seqHMM.h] and defined
    outside the two source files.  It returns [log(sum_i exp(x_i))]: "find
    the maximum element [m]; return [m + log(sum_i exp(x_i - m))]".  A
    vector whose maximum is [-inf] holds [log 0] only: the sum is zero and
    the result [-inf], as [-inf] has to propagate through [logSumExp]
    without NaN.  The maximum of an empty vector is not defined and
    aborts. *)
Definition logSumExp (x : list xreal) : res xreal :=
  m <- vmax x ;;
  match m with
  | NInf => Ok NInf
  | _ => Ok (xadd m (xlog (xsum (map (fun xi => xexp (xsub xi m)) x))))
  end.

(** Modelled from the spec: [reparma], declared in [seqHMM.h] and defined
    outside the two source files.  States are grouped contiguously by
    cluster: the weight [x(c)] of cluster [c] is repeated [y(c)] times. *)
Fixpoint reparma_from (x : list xreal) (y : list nat) (c : nat)
  : res (list xreal) :=
  match y with
  | [] => Ok []
  | n :: y' =>
      xc <- vget x c ;;
      rest <- reparma_from x y' (S c) ;;
      Ok (repeat xc n ++ rest)
  end.

Definition reparma (x : list xreal) (y : list nat) : res (list xreal) :=
  reparma_from x y 0.

(** ** [internalForward.cpp] *)

Section Forward.
(** the [logSumExp] the translation unit is linked with *)
Variable lse : list xreal -> res xreal.

Variable transition : mat xreal.
Variable emission : cube xreal.
Variable init : list xreal.
Variable obs : cube Z.

(** [for (r < obs.n_slices) alpha(i,t,k) += emission(i, obs(k,t,r), r);] *)
Definition add_emissions (i t k : nat) (alpha : cube xreal)
  : res (cube xreal) :=
  for_loop (seq 0 (c_slices obs))
    (fun r alpha =>
       o <- cget obs k t r ;;
       e <- cget_sword emission i o r ;;
       a <- cget alpha i t k ;;
       cset alpha i t k (xadd a e))
    alpha.

(** lines 9-14 *)
Definition forward_init (k : nat) (alpha : cube xreal) : res (cube xreal) :=
  for_loop (seq 0 (c_rows emission))
    (fun i alpha =>
       x <- vget init i ;;
       alpha <- cset alpha i 0 k x ;;
       add_emissions i 0 k alpha)
    alpha.

(** lines 16-21 *)
Definition forward_step (k t : nat) (alpha : cube xreal)
  : res (cube xreal) :=
  for_loop (seq 0 (m_rows transition))
    (fun i alpha =>
       sl <- cslice alpha k ;;
       prev <- mcol sl (t - 1) ;;
       tr <- mcol transition i ;;
       v <- vadd prev tr ;;
       x <- lse v ;;
       alpha <- cset alpha i t k x ;;
       add_emissions i t k alpha)
    alpha.

(** lines 8-23 *)
Definition internalForward (alpha : cube xreal) : res (cube xreal) :=
  for_loop (seq 0 (c_rows obs))
    (fun k alpha =>
       alpha <- forward_init k alpha ;;
       for_loop (seq 1 (c_cols obs - 1)) (forward_step k) alpha)
    alpha.
End Forward.

(** ** [viterbix.cpp] *)

(** lines 14-16 *)
Definition mix_lweights (coef X : mat xreal) : res (mat xreal) :=
  xc <- mmul X coef ;;
  let lweights := mtrans (mmap xexp xc) in
  lweights <- each_row_div lweights (msum0 lweights) ;;
  Ok (mmap xlog lweights).

Section Viterbi.
Variable transition : mat xreal.
Variable emission : cube xreal.
Variable init : list xreal.
Variable obs : cube nat.
Variable numberOfStates : list nat.

(** lines 22-25: the first column of [delta] *)
Definition viterbi_init (lweights : mat xreal) (k : nat) (delta : mat xreal)
  : res (mat xreal) :=
  lw <- mcol lweights k ;;
  w <- reparma lw numberOfStates ;;
  d0 <- vadd init w ;;
  delta <- mset_col delta 0 d0 ;;
  for_loop (seq 0 (c_slices emission))
    (fun r delta =>
       o <- cget obs r 0 k ;;
       sl <- cslice emission r ;;
       e <- mcol sl o ;;
       d <- mcol delta 0 ;;
       v <- vadd d e ;;
       mset_col delta 0 v)
    delta.

(** lines 30-36: state [j] at time [t] *)
Definition viterbi_cell (k t j : nat) (st : mat xreal * mat nat)
  : res (mat xreal * mat nat) :=
  let '(delta, phi) := st in
  _ <- mget phi j t ;;
  d <- mcol delta (t - 1) ;;
  tr <- mcol transition j ;;
  v <- vadd d tr ;;
  '(_, ix) <- vmax_index v ;;
  phi <- mset phi j t ix ;;
  p <- mget phi j t ;;
  a <- mget delta p (t - 1) ;;
  b <- mget transition p j ;;
  delta <- mset delta j t (xadd a b) ;;
  delta <- for_loop (seq 0 (c_slices emission))
    (fun r delta =>
       o <- cget obs r t k ;;
       e <- cget emission j o r ;;
       a <- mget delta j t ;;
       mset delta j t (xadd a e))
    delta ;;
  Ok (delta, phi).

(** lines 19-37: the tables of sequence [k] *)
Definition viterbix_tables (lweights : mat xreal) (k : nat)
  : res (mat xreal * mat nat) :=
  let delta := mat_new (c_rows emission) (c_cols obs) (Fin 0) in
  let phi := mat_new (c_rows emission) (c_cols obs) 0 in
  delta <- viterbi_init lweights k delta ;;
  phi <- mset_col phi 0 (repeat 0 (m_rows phi)) ;;
  for_loop (seq 1 (c_cols obs - 1))
    (fun t st => for_loop (seq 0 (c_rows emission)) (viterbi_cell k t) st)
    (delta, phi).

(** lines 40-44: termination and backtracking.  [obs.n_cols - 1] is reached
    with [obs.n_cols >= 1] only (line 22 aborts otherwise), and the signed
    counter [t] runs over [obs.n_cols - 2, ..., 0], which is empty when
    [obs.n_cols = 1]. *)
Definition viterbi_path (k : nat) (delta : mat xreal) (phi : mat nat)
    (out : mat nat * list xreal) : res (mat nat * list xreal) :=
  let '(q, logp) := out in
  last <- mcol delta (c_cols obs - 1) ;;
  ix <- vindex_max last ;;
  q <- mset q k (c_cols obs - 1) ix ;;
  q <- for_loop (rev (seq 0 (c_cols obs - 1)))
    (fun t q =>
       s <- mget q k (t + 1) ;;
       p <- mget phi s (t + 1) ;;
       mset q k t p)
    q ;;
  last <- mcol delta (c_cols obs - 1) ;;
  m <- vmax last ;;
  logp <- vset logp k m ;;
  Ok (q, logp).

(** lines 10-47; [q] and [logp] are allocated without initial values and
    every entry is written by the loop *)
Definition viterbix (coef X : mat xreal) : res (mat nat * list xreal) :=
  let q := mat_new (c_slices obs) (c_cols obs) 0 in
  let logp := repeat (Fin 0) (c_slices obs) in
  lweights <- mix_lweights coef X ;;
  for_loop (seq 0 (c_slices obs))
    (fun k out =>
       '(delta, phi) <- viterbix_tables lweights k ;;
       viterbi_path k delta phi out)
    (q, logp).
End Viterbi.

(** ** Vocabulary of the statements *)

(** what a table of log-probabilities may hold: a real number or [log 0] *)
Definition is_logp (a : xreal) : bool :=
  match a with
  | NInf | Fin _ => true
  | NaN | PInf => false
  end.

Definition Rleb (a b : R) : bool := if Rle_dec a b then true else false.

(** a log-probability: [log 0], or a real number that is at most 0 *)
Definition is_logprob (a : xreal) : bool :=
  match a with
  | NInf => true
  | Fin r => Rleb r 0
  | NaN | PInf => false
  end.

Definition is_fin (a : xreal) : bool :=
  match a with
  | Fin _ => true
  | _ => false
  end.

(** [a <= b] between doubles neither of which is NaN *)
Definition xle (a b : xreal) : Prop :=
  match a, b with
  | NaN, _ | _, NaN => False
  | NInf, _ => True
  | _, PInf => True
  | Fin x, Fin y => (x <= y)%R
  | _, _ => False
  end.


(** [p i] for every [i < n] *)
Definition all_lt (n : nat) (p : nat -> bool) : bool := forallb p (seq 0 n).

(** the value of a call that returned *)
Definition res_val (m : res xreal) : xreal :=
  match m with
  | Ok x => x
  | Err _ => NaN
  end.

(** [lse] returns on every non-empty vector *)
Definition lse_total (lse : list xreal -> res xreal) : Prop :=
  forall v, v <> [] -> exists x, lse v = Ok x.

(** the contract of [logSumExp] on a vector without NaN and [+inf]: the
    result is neither, and it is [log 0] when every element is *)
Definition lse_propagates (lse : list xreal -> res xreal) : Prop :=
  forall v, v <> [] -> Forall (fun x => is_logp x = true) v ->
    exists y, lse v = Ok y /\ is_logp y = true /\
      (Forall (fun x => x = NInf) v -> y = NInf).

Definition cube_dims (A : Type) (c : cube A) : nat * nat * nat :=
  (c_rows c, c_cols c, c_slices c).

Definition mat_dims (A : Type) (m : mat A) : nat * nat :=
  (m_rows m, m_cols m).

(** the table has a row per state, a column per time step and a slice per
    sequence *)
Definition fits_table (emission : cube xreal) (obs : cube Z)
    (a : cube xreal) : Prop :=
  cube_dims a = (c_rows emission, c_cols obs, c_rows obs).

(** a table of [viterbix] has a row per state and a column per time step *)
Definition viterbi_table (emission : cube xreal) (obs : cube nat) (A : Type)
    (m : mat A) : Prop :=
  mat_dims m = (c_rows emission, c_cols obs).

(** *** The forward table in closed form *)

Section ForwardSpec.
Variable lse : list xreal -> res xreal.
Variable transition : mat xreal.
Variable emission : cube xreal.
Variable init : list xreal.
Variable obs : cube Z.

(** the emission log-probabilities of state [i] for the symbols of sequence
    [k] at time [t], one per channel *)
Definition emissions_at (i t k : nat) : list xreal :=
  map (fun r => c_at emission i (Z.to_nat (c_at obs k t r)) r)
      (seq 0 (c_slices obs)).

(** [prev(j) + transition(j,i)] for every predecessor [j] *)
Definition forward_terms (prev : nat -> xreal) (i : nat) : list xreal :=
  map (fun j => xadd (prev j) (m_at transition j i))
      (seq 0 (m_rows transition)).

Fixpoint alpha_col (k t : nat) : nat -> xreal :=
  match t with
  | 0 => fun i => xadd (nth i init NaN) (xsum (emissions_at i 0 k))
  | S t' => fun i =>
      xadd (res_val (lse (forward_terms (alpha_col k t') i)))
           (xsum (emissions_at i t k))
  end.

(** Consistent dimensions, at least one time step, symbol codes in
    [[0, V)]. *)
Definition forward_wf (alpha : cube xreal) : bool :=
  (m_rows transition =? c_rows emission) &&
  (m_cols transition =? c_rows emission) &&
  (length init =? c_rows emission) &&
  (c_slices emission =? c_slices obs) &&
  (c_rows alpha =? c_rows emission) &&
  (c_cols alpha =? c_cols obs) &&
  (c_slices alpha =? c_rows obs) &&
  (1 <=? c_cols obs) &&
  all_lt (c_rows obs) (fun k =>
    all_lt (c_cols obs) (fun t =>
      all_lt (c_slices obs) (fun r =>
        (0 <=? c_at obs k t r)%Z &&
        (c_at obs k t r <? Z.of_nat (c_cols emission))%Z))).
End ForwardSpec.

(** *** The Viterbi tables in closed form *)

(** where [index_max] and [max] of a non-empty vector land *)
Definition argmax (v : list xreal) : nat := snd (max_scan v 0 NInf 0).
Definition maxval (v : list xreal) : xreal := fst (max_scan v 0 NInf 0).

(** the vector [reparma] returns when every cluster has a weight *)
Fixpoint expand (x : list xreal) (y : list nat) (c : nat) : list xreal :=
  match y with
  | [] => []
  | n :: y' => repeat (nth c x NaN) n ++ expand x y' (S c)
  end.

Section ViterbiSpec.
Variable transition : mat xreal.
Variable emission : cube xreal.
Variable init : list xreal.
Variable obs : cube nat.
Variable numberOfStates : list nat.
Variable lweights : mat xreal.

(** the emission log-probabilities of state [j] for the symbols of sequence
    [k] at time [t], one per channel *)
Definition emissions_v (j t k : nat) : list xreal :=
  map (fun r => c_at emission j (c_at obs r t k) r)
      (seq 0 (c_slices emission)).

(** the mixture log-weight of the cluster of each state, for sequence [k] *)
Definition cluster_weights (k : nat) : list xreal :=
  expand (map (fun c => m_at lweights c k) (seq 0 (m_rows lweights)))
         numberOfStates 0.

(** the cluster-weighted initial log-distribution *)
Definition weighted_init (k j : nat) : xreal :=
  xadd (nth j init NaN) (nth j (cluster_weights k) NaN).

(** [prev(i) + transition(i,j)] for every predecessor [i] *)
Definition viterbi_terms (prev : nat -> xreal) (j : nat) : list xreal :=
  map (fun i => xadd (prev i) (m_at transition i j))
      (seq 0 (c_rows emission)).

Fixpoint delta_col (k t : nat) : nat -> xreal :=
  match t with
  | 0 => fun j => xadd (weighted_init k j) (xsum (emissions_v j 0 k))
  | S t' => fun j =>
      let p := argmax (viterbi_terms (delta_col k t') j) in
      xadd (xadd (delta_col k t' p) (m_at transition p j))
           (xsum (emissions_v j t k))
  end.

Definition phi_col (k t j : nat) : nat :=
  match t with
  | 0 => 0
  | S t' => argmax (viterbi_terms (delta_col k t') j)
  end.

Definition last_col (k : nat) : list xreal :=
  map (delta_col k (c_cols obs - 1)) (seq 0 (c_rows emission)).

(** the state [n] steps before the last one *)
Fixpoint back (k n : nat) : nat :=
  match n with
  | 0 => argmax (last_col k)
  | S n' => phi_col k (c_cols obs - 1 - n') (back k n')
  end.

Definition path_at (k t : nat) : nat := back k (c_cols obs - 1 - t).

(** The joint log-probability of the state sequence [p] and the observations
    of sequence [k]: the cluster-weighted initial log-probability of the
    first state, the transition log-probabilities along [p], and the
    emission log-probabilities of every channel at every time step. *)
Definition path_transitions (p : list nat) : list xreal :=
  map (fun t => m_at transition (nth (t - 1) p 0) (nth t p 0))
      (seq 1 (length p - 1)).

Definition path_emissions (k : nat) (p : list nat) : list xreal :=
  flat_map (fun t => emissions_v (nth t p 0) t k) (seq 0 (length p)).

Definition joint_logprob (k : nat) (p : list nat) : xreal :=
  xadd (xadd (weighted_init k (nth 0 p 0)) (xsum (path_transitions p)))
       (xsum (path_emissions k p)).

(** the same sum, accumulated in the order of the recursion *)
Fixpoint prefix_score (k : nat) (pf : nat -> nat) (t : nat) : xreal :=
  match t with
  | 0 => xadd (weighted_init k (pf 0)) (xsum (emissions_v (pf 0) 0 k))
  | S t' =>
      xadd (xadd (prefix_score k pf t') (m_at transition (pf t') (pf t)))
           (xsum (emissions_v (pf t) t k))
  end.

(** Consistent dimensions, at least one state and one time step, symbol
    codes in [[0, V)]. *)
Definition viterbi_shape : bool :=
  (m_rows transition =? c_rows emission) &&
  (m_cols transition =? c_rows emission) &&
  (length init =? c_rows emission) &&
  (c_slices emission =? c_rows obs) &&
  (list_sum numberOfStates =? c_rows emission) &&
  (1 <=? c_rows emission) &&
  (1 <=? c_cols obs) &&
  all_lt (c_rows obs) (fun r =>
    all_lt (c_cols obs) (fun t =>
      all_lt (c_slices obs) (fun k =>
        c_at obs r t k <? c_cols emission))).

(** The model parameters are log-probabilities. *)
Definition model_values : bool :=
  all_lt (c_rows emission) (fun i =>
    is_logprob (nth i init NaN) &&
    all_lt (c_rows emission) (fun j => is_logprob (m_at transition i j)) &&
    all_lt (c_cols emission) (fun o =>
      all_lt (c_slices emission) (fun r =>
        is_logprob (c_at emission i o r)))).
End ViterbiSpec.

(** the covariates fit the batch and the clusters *)
Definition mixture_shape (coef X : mat xreal) (clusters sequences : nat)
  : bool :=
  (m_cols X =? m_rows coef) &&
  (m_cols coef =? clusters) &&
  (m_rows X =? sequences).

(** the covariates and the coefficients are real numbers *)
Definition mixture_values (coef X : mat xreal) : bool :=
  all_lt (m_rows X) (fun k =>
    all_lt (m_cols X) (fun p => is_fin (m_at X k p))) &&
  all_lt (m_rows coef) (fun p =>
    all_lt (m_cols coef) (fun c => is_fin (m_at coef p c))).

(** well-formed input of [viterbix] *)
Definition viterbix_wf (transition : mat xreal) (emission : cube xreal)
    (init : list xreal) (obs : cube nat) (numberOfStates : list nat)
    (coef X : mat xreal) : bool :=
  viterbi_shape transition emission init obs numberOfStates &&
  mixture_shape coef X (length numberOfStates) (c_slices obs).

(** the mixture log-weights that lines 14-16 compute from the covariates
    hold no NaN and no [+inf] *)
Definition lweights_values (coef X : mat xreal) : bool :=
  match mix_lweights coef X with
  | Ok lweights =>
      all_lt (m_rows lweights) (fun c =>
        all_lt (m_cols lweights) (fun k => is_logp (m_at lweights c k)))
  | Err _ => false
  end.

(** the parameters are log-probabilities and the computed mixture
    log-weights hold no NaN and no [+inf] *)
Definition viterbix_values (transition : mat xreal) (emission : cube xreal)
    (init : list xreal) (coef X : mat xreal) : bool :=
  model_values transition emission init && lweights_values coef X.

(** the real number a finite double stands for *)
Definition xval (a : xreal) : R :=
  match a with
  | Fin r => r
  | _ => 0%R
  end.

Definition Rsum (l : list R) : R := fold_right Rplus 0%R l.

(** the linear predictor of cluster [c] for sequence [k] *)
Definition lin_pred (coef X : mat xreal) (k c : nat) : xreal :=
  xsum (map (fun p => xmul (m_at X k p) (m_at coef p c)) (seq 0 (m_cols X))).

(** the normalised weight of cluster [c] for sequence [k], before the
    logarithm *)
Definition mix_weight (coef X : mat xreal) (c k : nat) : xreal :=
  xdiv (xexp (lin_pred coef X k c))
       (xsum (map (fun c' => xexp (lin_pred coef X k c'))
                  (seq 0 (m_cols coef)))).

(** the same quantities as real numbers, for real covariates and
    coefficients: the entry [(k,c)] of [X * coef], the sum of the
    exponentials over the clusters, and the quotient *)
Definition predictor (coef X : mat xreal) (k c : nat) : R :=
  Rsum (map (fun p => (xval (m_at X k p) * xval (m_at coef p c))%R)
            (seq 0 (m_cols X))).

Definition partition (coef X : mat xreal) (k : nat) : R :=
  Rsum (map (fun c => exp (predictor coef X k c)) (seq 0 (m_cols coef))).

Definition softmax (coef X : mat xreal) (c k : nat) : R :=
  (exp (predictor coef X k c) / partition coef X k)%R.

(** [X * coef] stays in the range of doubles, in whatever order the products
    of an entry are added: their absolute values sum to at most [dbl_max]. *)
Definition product_in_range (coef X : mat xreal) : Prop :=
  forall k c, k < m_rows X -> c < m_cols coef ->
    (Rsum (map (fun p => Rabs (xval (m_at X k p) * xval (m_at coef p c)))
               (seq 0 (m_cols X))) <= dbl_max)%R.

(** Nothing in lines 14-15 leaves the range of doubles: [X * coef] stays in
    it, no exponential underflows, their sum does not overflow, and no
    normalised weight underflows. *)
Definition softmax_in_range (coef X : mat xreal) : Prop :=
  product_in_range coef X /\
  forall k, k < m_rows X ->
    (partition coef X k <= dbl_max)%R /\
    forall c, c < m_cols coef ->
      (dbl_tiny <= exp (predictor coef X k c))%R /\
      (dbl_tiny <= softmax coef X c k)%R.

(** *** A two-state model on one binary channel

    [transition = log [[0.9, 0.1], [0.2, 0.8]]], state 0 emits symbol 0 with
    probability 0.7 and state 1 emits symbol 1 with probability 0.6,
    [init = log [0.6, 0.4]], and one sequence observing [0, 1]. *)

Definition mat_of_rows (A : Type) (d : A) (rows : list (list A)) : mat A :=
  mkMat (length rows) (length (hd [] rows))
        (fun i j => nth j (nth i rows []) d).

Definition lg (x : R) : xreal := Fin (ln x).

Definition ex_transition : mat xreal :=
  mat_of_rows NaN [[lg (9/10); lg (1/10)]; [lg (2/10); lg (8/10)]].

Definition ex_emission : cube xreal :=
  mkCube 2 2 1
    (fun i o _ => m_at (mat_of_rows NaN [[lg (7/10); lg (3/10)];
                                          [lg (4/10); lg (6/10)]]) i o).

Definition ex_init : list xreal := [lg (6/10); lg (4/10)].

(** the batch as [internalForward] takes it: sequence, time, channel *)
Definition ex_obs_forward : cube Z :=
  mkCube 1 2 1 (fun _ t _ => nth t [0; 1] 0)%Z.

(** the batch as [viterbix] takes it: channel, time, sequence *)
Definition ex_obs_viterbi : cube nat :=
  mkCube 1 2 1 (fun _ t _ => nth t [0; 1] 0).

Definition ex_alpha : cube xreal := mkCube 2 2 1 (fun _ _ _ => Fin 0).

(** one cluster holding both states, an intercept-only predictor *)
Definition ex_clusters : list nat := [2].
Definition ex_coef : mat xreal := mat_of_rows NaN [[Fin 0]].
Definition ex_X : mat xreal := mat_of_rows NaN [[Fin 1]].

(** two clusters of one state each *)
Definition ex_clusters2 : list nat := [1; 1].
Definition ex_coef2 : mat xreal := mat_of_rows NaN [[Fin 0; Fin 1]].

(** a batch of two sequences whose first one is the sequence above *)
Definition ex_obs_forward2 : cube Z :=
  mkCube 2 2 1 (fun k t _ => if k =? 0 then nth t [0; 1]%Z 0%Z else 1%Z).

Definition ex_obs_viterbi2 : cube nat :=
  mkCube 1 2 2 (fun _ t k => if k =? 0 then nth t [0; 1] 0 else 1).

Definition ex_alpha2 : cube xreal := mkCube 2 2 2 (fun _ _ _ => Fin 0).

Definition ex_X2 : mat xreal := mat_of_rows NaN [[Fin 1]; [Fin 2]].

(** other covariates and coefficients for the single cluster *)
Definition ex_coef_b : mat xreal := mat_of_rows NaN [[Fin 5]].
Definition ex_X_b : mat xreal := mat_of_rows NaN [[Fin 3]].

(** an initial vector with one entry per cluster instead of one per state *)
Definition ex_init_per_cluster : list xreal := [Fin 0].

(** the model and the batch above with no channel at all *)
Definition zc_emission : cube xreal := mkCube 2 2 0 (fun _ _ _ => Fin 0).
Definition zc_obs_forward : cube Z := mkCube 1 2 0 (fun _ _ _ => 0%Z).
Definition zc_obs_viterbi : cube nat := mkCube 0 2 1 (fun _ _ _ => 0).

(** a chain that never leaves state 0 and starts there:
    [transition = log [[1, 0], [0.5, 0.5]]], [init = log [1, 0]] *)
Definition inf_transition : mat xreal :=
  mat_of_rows NaN [[Fin 0; NInf]; [lg (1/2); lg (1/2)]].

Definition inf_init : list xreal := [Fin 0; NInf].

(** a model in which every probability is one half: the two predecessors of
    a state always tie *)
Definition tie_transition : mat xreal :=
  mat_of_rows NaN [[lg (1/2); lg (1/2)]; [lg (1/2); lg (1/2)]].

Definition tie_emission : cube xreal := mkCube 2 2 1 (fun _ _ _ => lg (1/2)).

Definition tie_init : list xreal := [lg (1/2); lg (1/2)].

(** a coefficient whose exponential is beyond the largest double *)
Definition big_coef : mat xreal := mat_of_rows NaN [[Fin 1000]].

(** ** Vocabulary of the further properties *)

(** the entries of [alpha] that [internalForward] assigns *)
Definition forward_written (transition : mat xreal) (emission : cube xreal)
    (obs : cube Z) (i t k : nat) : Prop :=
  k < c_rows obs /\
  ((t = 0 /\ i < c_rows emission) \/
   (1 <= t < c_cols obs /\ i < m_rows transition)).

(** [a'] has the dimensions of [a] and the same entries wherever [W] does
    not hold *)
Definition same_outside (W : nat -> nat -> nat -> Prop) (a a' : cube xreal)
  : Prop :=
  cube_dims a' = cube_dims a /\
  forall i t k, ~ W i t k -> c_at a' i t k = c_at a i t k.

(** an empty batch, in the layout of [internalForward] *)
Definition empty_obs_forward : cube Z := mkCube 0 2 1 (fun _ _ _ => 0%Z).

(** three clusters with the same coefficients *)
Definition ex_coef_equal : mat xreal :=
  mat_of_rows NaN [[Fin 2; Fin 2; Fin 2]].

(** two clusters, the exponential of the second coefficient is beyond the
    largest double *)
Definition overflow_coef : mat xreal := mat_of_rows NaN [[Fin 0; Fin 1000]].

(** two clusters, the exponential of the second coefficient is below the
    smallest positive double *)
Definition underflow_coef : mat xreal :=
  mat_of_rows NaN [[Fin 0; Fin (-1000)]].

(** *** The likelihood the forward table stands for *)

(** [lse] is the logarithm of the sum of the exponentials on vectors of real
    numbers *)
Definition lse_exact (lse : list xreal -> res xreal) : Prop :=
  forall v, v <> [] -> Forall (fun x => is_fin x = true) v ->
    lse v = Ok (Fin (ln (Rsum (map (fun x => exp (xval x)) v)))).

(** the logarithm of the sum of the exponentials, in the real numbers *)
Definition lse_real (v : list xreal) : res xreal :=
  match v with
  | [] => Err NoElements
  | _ => Ok (Fin (ln (Rsum (map (fun x => exp (xval x)) v))))
  end.

(** the state sequences of length [n] over the states [0 .. n_states - 1] *)
Fixpoint all_paths (n_states n : nat) : list (list nat) :=
  match n with
  | 0 => [[]]
  | S n' =>
      flat_map (fun j => map (fun p => p ++ [j]) (all_paths n_states n'))
               (seq 0 n_states)
  end.

Section ForwardLikelihood.
Variable transition : mat xreal.
Variable emission : cube xreal.
Variable init : list xreal.
Variable obs : cube Z.

(** the log-probability that state [i] emits the symbols of sequence [k] at
    time [t], all channels together *)
Definition emission_logp (i t k : nat) : R :=
  Rsum (map xval (emissions_at emission obs i t k)).

(** the joint log-probability of the state sequence [p] and the first
    [length p] observations of sequence [k] *)
Definition path_logp (k : nat) (p : list nat) : R :=
  Rplus
    (Rplus
       (xval (nth (nth 0 p 0) init NaN))
       (Rsum (map (fun t =>
                     xval (m_at transition (nth (t - 1) p 0) (nth t p 0)))
                  (seq 1 (length p - 1)))))
    (Rsum (map (fun t => emission_logp (nth t p 0) t k)
               (seq 0 (length p)))).

(** the probability of the first [t+1] observations of sequence [k] together
    with state [i] at time [t]: the sum over all state sequences *)
Definition forward_prob (k t i : nat) : R :=
  Rsum (map (fun p => exp (path_logp k (p ++ [i])))
            (all_paths (c_rows emission) t)).

(** the parameters are real numbers: no probability is zero *)
Definition forward_finite : bool :=
  all_lt (c_rows emission) (fun i =>
    is_fin (nth i init NaN) &&
    all_lt (c_rows emission) (fun j => is_fin (m_at transition i j)) &&
    all_lt (c_cols emission) (fun o =>
      all_lt (c_slices emission) (fun r => is_fin (c_at emission i o r)))).
End ForwardLikelihood.

(** an empty batch, in the layout of [viterbix] *)
Definition empty_obs_viterbi : cube nat := mkCube 1 2 0 (fun _ _ _ => 0).

(** a batch of one sequence with a single time step *)
Definition one_step_obs_forward : cube Z := mkCube 1 1 1 (fun _ _ _ => 0%Z).
Definition one_step_obs_viterbi : cube nat := mkCube 1 1 1 (fun _ _ _ => 0).

(** a transition matrix of the wrong shape *)
Definition bad_transition : mat xreal := mat_of_rows NaN [[NaN; NaN; NaN]].

(** covariates with one column more than [ex_coef] has rows *)
Definition wide_X : mat xreal := mat_of_rows NaN [[Fin 1; Fin 2]].
(** * Properties *)

(** ** The monad and the loops *)

Lemma bind_ok_inv (A B : Type) (m : res A) (f : A -> res B) (b : B) :
  bind m f = Ok b -> exists a, m = Ok a /\ f a = Ok b.
Proof.
  destruct m as [a | e]; simpl; intros H; [eauto | discriminate].
Qed.

Lemma for_loop_app (S : Type) (l1 l2 : list nat) (body : nat -> S -> res S)
    (s : S) :
  for_loop (l1 ++ l2) body s = (s' <- for_loop l1 body s ;; for_loop l2 body s').
Proof.
  revert s; induction l1 as [| x l1 IH]; intros s; simpl; [reflexivity |].
  destruct (body x s); simpl; auto.
Qed.

(** An invariant indexed by the loop counter carries through an ascending
    loop, which then returns. *)
Lemma for_loop_inv (S : Type) (Inv : nat -> S -> Prop)
    (body : nat -> S -> res S) (n a : nat) (s : S) :
  Inv a s ->
  (forall i s0, a <= i < a + n -> Inv i s0 ->
     exists s1, body i s0 = Ok s1 /\ Inv (Datatypes.S i) s1) ->
  exists s', for_loop (seq a n) body s = Ok s' /\ Inv (a + n) s'.
Proof.
  revert a s; induction n as [| n IH]; intros a s H0 Hstep; simpl.
  - exists s; split; [reflexivity | now rewrite Nat.add_0_r].
  - destruct (Hstep a s) as [s1 [E1 I1]]; [lia | assumption |].
    rewrite E1; simpl.
    destruct (IH (Datatypes.S a) s1 I1) as [s' [E' I']].
    + intros i s0 Hi; apply Hstep; lia.
    + exists s'; split; [assumption |].
      now replace (a + Datatypes.S n) with (Datatypes.S a + n) by lia.
Qed.

(** The same for a descending loop over [n-1, ..., 0]: the invariant is
    indexed by the number of iterations still to run. *)
Lemma for_loop_rev_inv (S : Type) (Inv : nat -> S -> Prop)
    (body : nat -> S -> res S) (n : nat) (s : S) :
  Inv n s ->
  (forall i s0, i < n -> Inv (Datatypes.S i) s0 ->
     exists s1, body i s0 = Ok s1 /\ Inv i s1) ->
  exists s', for_loop (rev (seq 0 n)) body s = Ok s' /\ Inv 0 s'.
Proof.
  revert s; induction n as [| n IH]; intros s H0 Hstep.
  - exists s; split; [reflexivity | assumption].
  - rewrite seq_S, rev_app_distr; simpl.
    destruct (Hstep n s) as [s1 [E1 I1]]; [lia | assumption |].
    rewrite E1; simpl.
    apply IH; [assumption |].
    intros i s0 Hi; apply Hstep; lia.
Qed.

(** ** Arithmetic and order of the doubles *)

Lemma xadd_comm (a b : xreal) : xadd a b = xadd b a.
Proof.
  destruct a, b; simpl; try reflexivity. f_equal; lra.
Qed.

Lemma xadd_assoc (a b c : xreal) : xadd (xadd a b) c = xadd a (xadd b c).
Proof.
  destruct a, b, c; simpl; try reflexivity. f_equal; lra.
Qed.

Lemma xadd_0_r (a : xreal) : xadd a (Fin 0) = a.
Proof.
  destruct a; simpl; try reflexivity. f_equal; lra.
Qed.

Lemma xadd_0_l (a : xreal) : xadd (Fin 0) a = a.
Proof.
  rewrite xadd_comm; apply xadd_0_r.
Qed.

Lemma fold_xadd (l : list xreal) (a : xreal) :
  fold_left xadd l a = xadd a (xsum l).
Proof.
  unfold xsum; revert a; induction l as [| x l IH]; intros a; cbn [fold_left].
  - now rewrite xadd_0_r.
  - rewrite IH, (IH (xadd (Fin 0) x)), xadd_0_l. apply xadd_assoc.
Qed.

Lemma xsum_cons (x : xreal) (l : list xreal) :
  xsum (x :: l) = xadd x (xsum l).
Proof.
  unfold xsum at 1; cbn [fold_left]. now rewrite fold_xadd, xadd_0_l.
Qed.

Lemma xsum_app (l1 l2 : list xreal) :
  xsum (l1 ++ l2) = xadd (xsum l1) (xsum l2).
Proof.
  unfold xsum at 1. rewrite fold_left_app.
  fold (xsum l1). apply fold_xadd.
Qed.

Lemma is_logp_xadd (a b : xreal) :
  is_logp a = true -> is_logp b = true -> is_logp (xadd a b) = true.
Proof.
  destruct a, b; simpl; intros; congruence.
Qed.

Lemma is_fin_logp (a : xreal) : is_fin a = true -> is_logp a = true.
Proof.
  destruct a; simpl; congruence.
Qed.

Lemma is_logp_xsum (l : list xreal) :
  Forall (fun x => is_logp x = true) l -> is_logp (xsum l) = true.
Proof.
  induction 1 as [| x l Hx _ IH]; [reflexivity |].
  rewrite xsum_cons; now apply is_logp_xadd.
Qed.

Lemma is_fin_xadd (a b : xreal) :
  is_fin a = true -> is_fin b = true -> is_fin (xadd a b) = true.
Proof.
  destruct a, b; simpl; intros; congruence.
Qed.

Lemma is_fin_xsum (l : list xreal) :
  Forall (fun x => is_fin x = true) l -> is_fin (xsum l) = true.
Proof.
  induction 1 as [| x l Hx _ IH]; [reflexivity |].
  rewrite xsum_cons; now apply is_fin_xadd.
Qed.

Lemma xle_refl (a : xreal) : is_logp a = true -> xle a a.
Proof.
  destruct a; simpl; intros; try congruence; auto. lra.
Qed.

Lemma xle_fin_l (r : R) (m : xreal) :
  is_logp m = true -> xle (Fin r) m -> exists mr, m = Fin mr.
Proof.
  destruct m; simpl; intros; try congruence; try tauto. eauto.
Qed.

Lemma xle_trans (a b c : xreal) : xle a b -> xle b c -> xle a c.
Proof.
  destruct a, b, c; simpl; intros; try tauto. lra.
Qed.

Lemma xle_antisym (a b : xreal) : xle a b -> xle b a -> a = b.
Proof.
  destruct a, b; simpl; intros; try tauto. f_equal; lra.
Qed.

Lemma xadd_le_mono (a b c : xreal) :
  is_logp c = true -> is_logp b = true -> xle a b -> xle (xadd a c) (xadd b c).
Proof.
  destruct a, b, c; simpl; intros; try congruence; try tauto. lra.
Qed.

Lemma xgt_false_le (a b : xreal) :
  is_logp a = true -> is_logp b = true -> xgt a b = false -> xle a b.
Proof.
  destruct a, b; simpl; intros; try congruence; auto.
  unfold Rltb in *. destruct (Rlt_dec r0 r); [discriminate | lra].
Qed.

Lemma xgt_true_le (a b : xreal) :
  is_logp a = true -> is_logp b = true -> xgt a b = true -> xle b a.
Proof.
  destruct a, b; simpl; intros; try congruence; auto.
  unfold Rltb in *. destruct (Rlt_dec r0 r); [lra | discriminate].
Qed.

Lemma xgt_le_trans (a b c : xreal) :
  xgt a b = true -> xle c b -> xgt a c = true.
Proof.
  destruct a, b, c; simpl; intros; try congruence; try tauto.
  unfold Rltb in *.
  destruct (Rlt_dec r0 r); [| discriminate].
  destruct (Rlt_dec r1 r); [reflexivity | lra].
Qed.

Lemma xgt_irrefl (a : xreal) : xgt a a = false.
Proof.
  destruct a; simpl; try reflexivity.
  unfold Rltb. destruct (Rlt_dec r r); [lra | reflexivity].
Qed.

(** ** Containers *)

Lemma all_lt_spec (n : nat) (p : nat -> bool) :
  all_lt n p = true <-> (forall i, i < n -> p i = true).
Proof.
  unfold all_lt; rewrite forallb_forall; split; intros H i Hi.
  - apply H, in_seq; lia.
  - apply H; apply in_seq in Hi; lia.
Qed.

Lemma vget_ok (A : Type) (v : list A) (i : nat) (d : A) :
  i < length v -> vget v i = Ok (nth i v d).
Proof.
  intros Hi; unfold vget.
  now rewrite (nth_error_nth' v d Hi).
Qed.

Lemma mget_ok (A : Type) (M : mat A) (i j : nat) :
  i < m_rows M -> j < m_cols M -> mget M i j = Ok (m_at M i j).
Proof.
  intros Hi Hj; unfold mget.
  apply Nat.ltb_lt in Hi, Hj; now rewrite Hi, Hj.
Qed.

Lemma mset_ok (A : Type) (M : mat A) (i j : nat) (x : A) :
  i < m_rows M -> j < m_cols M -> mset M i j x = Ok (mupd M i j x).
Proof.
  intros Hi Hj; unfold mset.
  apply Nat.ltb_lt in Hi, Hj; now rewrite Hi, Hj.
Qed.

Lemma mcol_ok (A : Type) (M : mat A) (j : nat) :
  j < m_cols M ->
  mcol M j = Ok (map (fun i => m_at M i j) (seq 0 (m_rows M))).
Proof.
  intros Hj; unfold mcol. apply Nat.ltb_lt in Hj; now rewrite Hj.
Qed.

Lemma mset_col_ok (A : Type) (M : mat A) (j : nat) (v : list A) :
  j < m_cols M -> length v = m_rows M -> mset_col M j v = Ok (mupd_col M j v).
Proof.
  intros Hj Hv; unfold mset_col.
  apply Nat.ltb_lt in Hj; apply Nat.eqb_eq in Hv; now rewrite Hj, Hv.
Qed.

Lemma cget_ok (A : Type) (C : cube A) (i j k : nat) :
  i < c_rows C -> j < c_cols C -> k < c_slices C ->
  cget C i j k = Ok (c_at C i j k).
Proof.
  intros Hi Hj Hk; unfold cget.
  apply Nat.ltb_lt in Hi, Hj, Hk; now rewrite Hi, Hj, Hk.
Qed.

Lemma cset_ok (A : Type) (C : cube A) (i j k : nat) (x : A) :
  i < c_rows C -> j < c_cols C -> k < c_slices C ->
  cset C i j k x = Ok (cupd C i j k x).
Proof.
  intros Hi Hj Hk; unfold cset.
  apply Nat.ltb_lt in Hi, Hj, Hk; now rewrite Hi, Hj, Hk.
Qed.

Lemma cget_sword_ok (A : Type) (C : cube A) (i : nat) (o : Z) (r : nat) :
  i < c_rows C -> (0 <= o < Z.of_nat (c_cols C))%Z -> r < c_slices C ->
  cget_sword C i o r = Ok (c_at C i (Z.to_nat o) r).
Proof.
  intros Hi Ho Hr; unfold cget_sword.
  destruct (Z.ltb_spec o 0); [lia |].
  apply cget_ok; auto; lia.
Qed.

Lemma map2_length (A B C : Type) (f : A -> B -> C) (u : list A) (v : list B) :
  length u = length v -> length (map2 f u v) = length u.
Proof.
  revert v; induction u as [| x u IH]; intros [| y v]; simpl; intros H;
    try discriminate; auto.
Qed.

Lemma map2_map (A B C I : Type) (f : A -> B -> C) (g : I -> A) (h : I -> B)
    (l : list I) :
  map2 f (map g l) (map h l) = map (fun i => f (g i) (h i)) l.
Proof.
  induction l as [| x l IH]; simpl; [reflexivity | now rewrite IH].
Qed.

Lemma nth_map_seq (A : Type) (f : nat -> A) (n i : nat) (d : A) :
  i < n -> nth i (map f (seq 0 n)) d = f i.
Proof.
  intros Hi.
  rewrite (nth_indep _ d (f 0)) by now rewrite length_map, length_seq.
  rewrite (map_nth f), seq_nth; auto.
Qed.

Lemma xsum_snoc (l : list xreal) (x : xreal) :
  xsum (l ++ [x]) = xadd (xsum l) x.
Proof.
  rewrite xsum_app, xsum_cons. unfold xsum at 2; simpl.
  now rewrite xadd_0_r.
Qed.

(** case analysis on every index test of the goal *)
Ltac case_idx :=
  repeat match goal with
    | |- context [?a =? ?b] => destruct (Nat.eqb_spec a b)
    | |- context [?a <? ?b] => destruct (Nat.ltb_spec a b)
    end;
  subst; cbn [andb]; try reflexivity; try lia.

(** ** The forward recursion computes the closed form *)

Section ForwardRefinement.
Variable lse : list xreal -> res xreal.
Variable transition : mat xreal.
Variable emission : cube xreal.
Variable init : list xreal.
Variable obs : cube Z.

Hypothesis Hlse : lse_total lse.
Hypothesis Htr : m_rows transition = c_rows emission.
Hypothesis Htc : m_cols transition = c_rows emission.
Hypothesis Hinit : length init = c_rows emission.
Hypothesis Hch : c_slices emission = c_slices obs.
Hypothesis Hcodes : forall k t r,
  k < c_rows obs -> t < c_cols obs -> r < c_slices obs ->
  (0 <= c_at obs k t r < Z.of_nat (c_cols emission))%Z.

Let fits := fits_table emission obs.

Lemma add_emissions_spec (i t k : nat) (a : cube xreal) :
  fits a -> i < c_rows emission -> t < c_cols obs -> k < c_rows obs ->
  exists a', add_emissions emission obs i t k a = Ok a' /\ fits a' /\
    forall i' t' k', c_at a' i' t' k' =
      if (i' =? i) && (t' =? t) && (k' =? k)
      then xadd (c_at a i t k) (xsum (emissions_at emission obs i t k))
      else c_at a i' t' k'.
Proof.
  intros Hf Hi Ht Hk. unfold add_emissions, emissions_at.
  set (f := fun r => c_at emission i (Z.to_nat (c_at obs k t r)) r).
  pose (Inv := fun (r : nat) (a' : cube xreal) =>
    fits a' /\ forall i' t' k', c_at a' i' t' k' =
      if (i' =? i) && (t' =? t) && (k' =? k)
      then xadd (c_at a i t k) (xsum (map f (seq 0 r)))
      else c_at a i' t' k').
  destruct (@for_loop_inv _ Inv
    (fun r alpha =>
       o <- cget obs k t r ;;
       e <- cget_sword emission i o r ;;
       a0 <- cget alpha i t k ;;
       cset alpha i t k (xadd a0 e)) (c_slices obs) 0 a) as [a' [E I]].
  - split; [assumption |]. intros i' t' k'; simpl.
    unfold xsum; simpl. rewrite xadd_0_r.
    destruct ((i' =? i) && (t' =? t) && (k' =? k)) eqn:Eh; [| reflexivity].
    apply andb_prop in Eh; destruct Eh as [Eh E3].
    apply andb_prop in Eh; destruct Eh as [E1 E2].
    apply Nat.eqb_eq in E1, E2, E3; now subst.
  - intros r s0 Hr [Hf0 Hv].
    unfold fits, fits_table, cube_dims in Hf0; injection Hf0 as D1 D2 D3.
    rewrite cget_ok by (auto; lia). simpl.
    rewrite cget_sword_ok by (auto; try apply Hcodes; lia). simpl.
    rewrite cget_ok by lia. simpl.
    rewrite cset_ok by lia.
    eexists; split; [reflexivity |]. split.
    + unfold fits, fits_table, cube_dims; simpl; congruence.
    + intros i' t' k'; cbn [c_at cupd].
      destruct ((i' =? i) && (t' =? t) && (k' =? k)) eqn:Eh.
      * rewrite (Hv i t k), !Nat.eqb_refl; cbn [andb].
        rewrite seq_S, map_app; cbn [map Nat.add]. rewrite xsum_snoc.
        now rewrite xadd_assoc.
      * rewrite Hv, Eh; reflexivity.
  - exists a'; split; [exact E |]. exact I.
Qed.

Lemma forward_init_spec (k : nat) (a : cube xreal) :
  fits a -> 1 <= c_cols obs -> k < c_rows obs ->
  exists a', forward_init emission init obs k a = Ok a' /\ fits a' /\
    forall i' t' k', c_at a' i' t' k' =
      if (i' <? c_rows emission) && (t' =? 0) && (k' =? k)
      then alpha_col lse transition emission init obs k 0 i'
      else c_at a i' t' k'.
Proof.
  intros Hf HT Hk. unfold forward_init.
  pose (Inv := fun (n : nat) (a' : cube xreal) =>
    fits a' /\ forall i' t' k', c_at a' i' t' k' =
      if (i' <? n) && (t' =? 0) && (k' =? k)
      then alpha_col lse transition emission init obs k 0 i'
      else c_at a i' t' k').
  destruct (@for_loop_inv _ Inv
    (fun i alpha =>
       x <- vget init i ;;
       alpha <- cset alpha i 0 k x ;;
       add_emissions emission obs i 0 k alpha) (c_rows emission) 0 a)
    as [a' [E I]].
  - split; [assumption |]. intros; reflexivity.
  - intros i s0 Hi [Hf0 Hv].
    assert (D := Hf0). unfold fits, fits_table, cube_dims in D; injection D as D1 D2 D3.
    rewrite (vget_ok init NaN) by lia. cbn [bind].
    rewrite cset_ok by lia. cbn [bind].
    destruct (@add_emissions_spec i 0 k (cupd s0 i 0 k (nth i init NaN)))
      as [a1 [E1 [F1 V1]]]; try lia.
    { unfold fits, fits_table, cube_dims; simpl; congruence. }
    exists a1; split; [exact E1 |]. split; [exact F1 |].
    intros i' t' k'. rewrite V1. cbn [c_at cupd]. rewrite !Nat.eqb_refl.
    cbn [andb alpha_col]. rewrite Hv.
    case_idx.
  - exists a'; split; [exact E |]. exact I.
Qed.

Lemma forward_step_spec (k t : nat) (a : cube xreal) :
  fits a -> 1 <= t < c_cols obs -> k < c_rows obs ->
  (forall j, j < c_rows emission ->
     c_at a j (t - 1) k =
     alpha_col lse transition emission init obs k (t - 1) j) ->
  exists a', forward_step lse transition emission obs k t a = Ok a' /\
    fits a' /\
    forall i' t' k', c_at a' i' t' k' =
      if (i' <? c_rows emission) && (t' =? t) && (k' =? k)
      then alpha_col lse transition emission init obs k t i'
      else c_at a i' t' k'.
Proof.
  intros Hf Ht Hk Hprev. unfold forward_step.
  pose (Inv := fun (n : nat) (a' : cube xreal) =>
    fits a' /\ forall i' t' k', c_at a' i' t' k' =
      if (i' <? n) && (t' =? t) && (k' =? k)
      then alpha_col lse transition emission init obs k t i'
      else c_at a i' t' k').
  rewrite Htr.
  destruct (@for_loop_inv _ Inv
    (fun i alpha =>
       sl <- cslice alpha k ;;
       prev <- mcol sl (t - 1) ;;
       tr <- mcol transition i ;;
       v <- vadd prev tr ;;
       x <- lse v ;;
       alpha <- cset alpha i t k x ;;
       add_emissions emission obs i t k alpha) (c_rows emission) 0 a)
    as [a' [E I]].
  - split; [assumption |]. intros; reflexivity.
  - intros i s0 Hi [Hf0 Hv].
    assert (D := Hf0). unfold fits, fits_table, cube_dims in D; injection D as D1 D2 D3.
    unfold cslice. replace (k <? c_slices s0) with true
      by (symmetry; apply Nat.ltb_lt; lia).
    cbn [bind]. rewrite mcol_ok by (simpl; lia). cbn [bind m_rows m_at].
    rewrite mcol_ok by lia. cbn [bind].
    unfold vadd. rewrite !length_map, !length_seq, D1, Htr, Nat.eqb_refl.
    cbn [bind]. rewrite map2_map.
    assert (Ev : map (fun j => xadd (c_at s0 j (t - 1) k) (m_at transition j i))
                   (seq 0 (c_rows emission))
                 = forward_terms transition
                     (alpha_col lse transition emission init obs k (t - 1)) i).
    { unfold forward_terms. rewrite Htr. apply map_ext_in.
      intros j Hj. apply in_seq in Hj. rewrite Hv.
      replace (t - 1 =? t) with false by (symmetry; apply Nat.eqb_neq; lia).
      rewrite andb_false_r; cbn [andb]. rewrite Hprev by lia. reflexivity. }
    rewrite Ev.
    destruct (Hlse (v := forward_terms transition
                (alpha_col lse transition emission init obs k (t - 1)) i))
      as [x Ex].
    { unfold forward_terms. rewrite Htr.
      destruct (c_rows emission); [lia | simpl; discriminate]. }
    rewrite Ex. cbn [bind]. rewrite cset_ok by lia. cbn [bind].
    destruct (@add_emissions_spec i t k (cupd s0 i t k x))
      as [a1 [E1 [F1 V1]]]; try lia.
    { unfold fits, fits_table, cube_dims; simpl; congruence. }
    exists a1; split; [exact E1 |]. split; [exact F1 |].
    intros i' t' k'. rewrite V1. cbn [c_at cupd]. rewrite !Nat.eqb_refl.
    cbn [andb]. rewrite Hv.
    assert (Ea : alpha_col lse transition emission init obs k t i
                 = xadd x (xsum (emissions_at emission obs i t k))).
    { destruct t as [| t0]; [lia |]. cbn [alpha_col].
      replace (S t0 - 1) with t0 in Ex by lia. now rewrite Ex. }
    rewrite <- Ea. case_idx.
  - exists a'; split; [exact E |]. exact I.
Qed.

Lemma forward_sequence_spec (k : nat) (a : cube xreal) :
  fits a -> 1 <= c_cols obs -> k < c_rows obs ->
  exists a',
    (a1 <- forward_init emission init obs k a ;;
     for_loop (seq 1 (c_cols obs - 1))
       (forward_step lse transition emission obs k) a1) = Ok a' /\
    fits a' /\
    forall i' t' k', c_at a' i' t' k' =
      if (i' <? c_rows emission) && (t' <? c_cols obs) && (k' =? k)
      then alpha_col lse transition emission init obs k t' i'
      else c_at a i' t' k'.
Proof.
  intros Hf HT Hk.
  destruct (forward_init_spec Hf HT Hk) as [a0 [E0 [F0 V0]]].
  rewrite E0. cbn [bind].
  pose (Inv := fun (n : nat) (a' : cube xreal) =>
    fits a' /\ forall i' t' k', c_at a' i' t' k' =
      if (i' <? c_rows emission) && (t' <? n) && (k' =? k)
      then alpha_col lse transition emission init obs k t' i'
      else c_at a i' t' k').
  destruct (@for_loop_inv _ Inv
    (forward_step lse transition emission obs k) (c_cols obs - 1) 1 a0)
    as [a' [E I]].
  - split; [assumption |]. intros i' t' k'. rewrite V0.
    case_idx.
  - intros t s0 Ht [Hf0 Hv].
    destruct (@forward_step_spec k t s0) as [a1 [E1 [F1 V1]]];
      try assumption; try lia.
    { intros j Hj. rewrite Hv.
      replace (j <? c_rows emission) with true
        by (symmetry; apply Nat.ltb_lt; lia).
      replace (t - 1 <? t) with true by (symmetry; apply Nat.ltb_lt; lia).
      now rewrite Nat.eqb_refl. }
    exists a1; split; [exact E1 |]. split; [exact F1 |].
    intros i' t' k'. rewrite V1, Hv.
    case_idx.
  - exists a'; split; [exact E |].
    replace (1 + (c_cols obs - 1)) with (c_cols obs) in I by lia. exact I.
Qed.

(** The table returned by [internalForward] holds the closed form on every
    sequence of the batch. *)
Lemma internalForward_spec (a : cube xreal) :
  fits a -> 1 <= c_cols obs ->
  exists a', internalForward lse transition emission init obs a = Ok a' /\
    fits a' /\
    forall i t k,
      i < c_rows emission -> t < c_cols obs -> k < c_rows obs ->
      c_at a' i t k = alpha_col lse transition emission init obs k t i.
Proof.
  intros Hf HT. unfold internalForward.
  pose (Inv := fun (n : nat) (a' : cube xreal) =>
    fits a' /\ forall i' t' k', c_at a' i' t' k' =
      if (i' <? c_rows emission) && (t' <? c_cols obs) && (k' <? n)
      then alpha_col lse transition emission init obs k' t' i'
      else c_at a i' t' k').
  destruct (@for_loop_inv _ Inv
    (fun k alpha =>
       alpha <- forward_init emission init obs k alpha ;;
       for_loop (seq 1 (c_cols obs - 1))
         (forward_step lse transition emission obs k) alpha)
    (c_rows obs) 0 a) as [a' [E I]].
  - split; [assumption |]. intros i' t' k'.
    now rewrite !andb_false_r.
  - intros k s0 Hk [Hf0 Hv].
    destruct (@forward_sequence_spec k s0) as [a1 [E1 [F1 V1]]];
      try assumption; try lia.
    exists a1; split; [exact E1 |]. split; [exact F1 |].
    intros i' t' k'. rewrite V1, Hv.
    case_idx.
  - exists a'; split; [exact E |]. destruct I as [F V].
    split; [exact F |]. intros i t k Hi Ht Hk. rewrite V.
    cbn [Nat.add]. case_idx.
Qed.
End ForwardRefinement.

Lemma forward_wf_inv transition emission init obs alpha :
  forward_wf transition emission init obs alpha = true ->
  m_rows transition = c_rows emission /\
  m_cols transition = c_rows emission /\
  length init = c_rows emission /\
  c_slices emission = c_slices obs /\
  cube_dims alpha = (c_rows emission, c_cols obs, c_rows obs) /\
  1 <= c_cols obs /\
  forall k t r,
    k < c_rows obs -> t < c_cols obs -> r < c_slices obs ->
    (0 <= c_at obs k t r < Z.of_nat (c_cols emission))%Z.
Proof.
  unfold forward_wf, cube_dims. rewrite !andb_true_iff, !Nat.eqb_eq.
  rewrite Nat.leb_le.
  intros [[[[[[[[H1 H2] H3] H4] H5] H6] H7] H8] H9].
  repeat split; try congruence; try assumption;
    rewrite all_lt_spec in H9; specialize (H9 k H);
    rewrite all_lt_spec in H9; specialize (H9 t H0);
    rewrite all_lt_spec in H9; specialize (H9 r H10);
    apply andb_prop in H9; destruct H9 as [Ha Hb];
    [apply Z.leb_le in Ha | apply Z.ltb_lt in Hb]; assumption.
Qed.

Lemma logSumExp_total : lse_total logSumExp.
Proof.
  intros [| x v] Hv; [congruence |].
  unfold logSumExp, vmax, vmax_index; cbn [bind].
  destruct (max_scan (x :: v) 0 NInf 0) as [m ix]; cbn [bind].
  destruct m; eauto.
Qed.

(** C1.  On well-formed input [internalForward] returns the table with
    [alpha(i,0,k) = init(i) + sum_r emission(i, obs(k,0,r), r)] and, for
    [1 <= t < T], [alpha(i,t,k) = logSumExp_j (alpha(j,t-1,k) +
    transition(j,i)) + sum_r emission(i, obs(k,t,r), r)]. *)
Theorem forward_fills_alpha
    (lse : list xreal -> res xreal) (transition : mat xreal)
    (emission : cube xreal) (init : list xreal) (obs : cube Z)
    (alpha : cube xreal) :
  lse_total lse ->
  forward_wf transition emission init obs alpha = true ->
  exists a', internalForward lse transition emission init obs alpha = Ok a' /\
    forall k i, k < c_rows obs -> i < c_rows emission ->
      c_at a' i 0 k
        = xadd (nth i init NaN) (xsum (emissions_at emission obs i 0 k)) /\
      forall t, 1 <= t < c_cols obs ->
        exists x,
          lse (map (fun j => xadd (c_at a' j (t - 1) k) (m_at transition j i))
                   (seq 0 (c_rows emission))) = Ok x /\
          c_at a' i t k = xadd x (xsum (emissions_at emission obs i t k)).
Proof.
  intros Hlse Hwf.
  destruct (forward_wf_inv _ _ _ _ _ Hwf)
    as [Htr [Htc [Hinit [Hch [Hdims [HT Hcodes]]]]]].
  destruct (@internalForward_spec lse transition emission init obs
              Hlse Htr Htc Hinit Hch Hcodes alpha Hdims HT)
    as [a' [E [_ V]]].
  exists a'; split; [exact E |].
  intros k i Hk Hi; split.
  - rewrite V by lia. reflexivity.
  - intros t Ht.
    assert (Et : map (fun j => xadd (c_at a' j (t - 1) k) (m_at transition j i))
                   (seq 0 (c_rows emission))
                 = forward_terms transition
                     (alpha_col lse transition emission init obs k (t - 1)) i).
    { unfold forward_terms. rewrite Htr. apply map_ext_in.
      intros j Hj; apply in_seq in Hj. rewrite V by lia. reflexivity. }
    rewrite Et.
    destruct (Hlse (forward_terms transition
                (alpha_col lse transition emission init obs k (t - 1)) i))
      as [x Ex].
    { unfold forward_terms. rewrite Htr.
      destruct (c_rows emission); [lia | simpl; discriminate]. }
    exists x; split; [exact Ex |].
    rewrite V by lia. destruct t as [| t0]; [lia |]. cbn [alpha_col].
    replace (S t0 - 1) with t0 in Ex by lia. now rewrite Ex.
Qed.

Lemma forward_fills_alpha_witness :
  lse_total logSumExp /\
  forward_wf ex_transition ex_emission ex_init ex_obs_forward ex_alpha = true /\
  exists a',
    internalForward logSumExp ex_transition ex_emission ex_init
      ex_obs_forward ex_alpha = Ok a' /\
    forall k i, k < c_rows ex_obs_forward -> i < c_rows ex_emission ->
      c_at a' i 0 k
        = xadd (nth i ex_init NaN)
               (xsum (emissions_at ex_emission ex_obs_forward i 0 k)) /\
      forall t, 1 <= t < c_cols ex_obs_forward ->
        exists x,
          logSumExp
            (map (fun j => xadd (c_at a' j (t - 1) k) (m_at ex_transition j i))
                 (seq 0 (c_rows ex_emission))) = Ok x /\
          c_at a' i t k
            = xadd x (xsum (emissions_at ex_emission ex_obs_forward i t k)).
Proof.
  split; [exact logSumExp_total |].
  split; [reflexivity |].
  apply (@forward_fills_alpha logSumExp ex_transition ex_emission ex_init
           ex_obs_forward ex_alpha logSumExp_total).
  reflexivity.
Defined.

(** ** The Viterbi recursion computes the closed form *)

Lemma reparma_from_ok (x : list xreal) (y : list nat) (c : nat) :
  c + length y <= length x -> reparma_from x y c = Ok (expand x y c).
Proof.
  revert c; induction y as [| n y IH]; intros c Hc; simpl in *.
  - reflexivity.
  - rewrite (vget_ok x NaN) by lia. cbn [bind].
    rewrite IH by lia. reflexivity.
Qed.

Lemma expand_length (x : list xreal) (y : list nat) (c : nat) :
  length (expand x y c) = list_sum y.
Proof.
  revert c; induction y as [| n y IH]; intros c; simpl; [reflexivity |].
  now rewrite length_app, repeat_length, IH.
Qed.

Lemma nth_map2 (A B C : Type) (f : A -> B -> C) (u : list A) (v : list B)
    (i : nat) (da : A) (db : B) (dc : C) :
  i < length u -> length u = length v ->
  nth i (map2 f u v) dc = f (nth i u da) (nth i v db).
Proof.
  revert v i; induction u as [| x u IH]; intros [| y v] i Hi Hl;
    simpl in *; try lia.
  destruct i as [| i]; [reflexivity |]. apply IH; lia.
Qed.

Lemma max_scan_index (l : list xreal) (i : nat) (b : xreal) (bi : nat) :
  snd (max_scan l i b bi) = bi \/
  i <= snd (max_scan l i b bi) < i + length l.
Proof.
  revert i b bi; induction l as [| x l IH]; intros i b bi; simpl.
  - now left.
  - destruct (xgt x b).
    + right. destruct (IH (S i) x i) as [E | E]; [rewrite E |]; lia.
    + destruct (IH (S i) b bi) as [E | E]; [now left | right; lia].
Qed.

Lemma argmax_lt (l : list xreal) : l <> [] -> argmax l < length l.
Proof.
  intros Hl. unfold argmax.
  destruct (max_scan_index l 0 NInf 0) as [E | E]; [| lia].
  rewrite E. destruct l; [congruence | simpl; lia].
Qed.

Lemma vmax_index_ok (v : list xreal) :
  v <> [] -> vmax_index v = Ok (maxval v, argmax v).
Proof.
  intros Hv. unfold vmax_index, maxval, argmax.
  destruct v; [congruence |]. now rewrite <- surjective_pairing.
Qed.

Lemma upd_nth_length (A : Type) (v : list A) (i : nat) (x : A) :
  length (upd_nth v i x) = length v.
Proof.
  revert i; induction v as [| y v IH]; intros [| i]; simpl; auto.
Qed.

Lemma nth_upd_nth (A : Type) (v : list A) (i j : nat) (x d : A) :
  i < length v ->
  nth j (upd_nth v i x) d = if j =? i then x else nth j v d.
Proof.
  revert i j; induction v as [| y v IH]; intros i j Hi; simpl in *; [lia |].
  destruct i as [| i], j as [| j]; simpl; try reflexivity.
  apply IH; lia.
Qed.

Section ViterbiRefinement.
Variable transition : mat xreal.
Variable emission : cube xreal.
Variable init : list xreal.
Variable obs : cube nat.
Variable numberOfStates : list nat.
Variable lweights : mat xreal.

Hypothesis Htr : m_rows transition = c_rows emission.
Hypothesis Htc : m_cols transition = c_rows emission.
Hypothesis Hinit : length init = c_rows emission.
Hypothesis Hch : c_slices emission = c_rows obs.
Hypothesis Hsum : list_sum numberOfStates = c_rows emission.
Hypothesis HS : 1 <= c_rows emission.
Hypothesis HT : 1 <= c_cols obs.
Hypothesis Hcodes : forall r t k,
  r < c_rows obs -> t < c_cols obs -> k < c_slices obs ->
  c_at obs r t k < c_cols emission.
Hypothesis Hlw : m_rows lweights = length numberOfStates.

Let dcol := delta_col transition emission init obs numberOfStates lweights.
Let pcol := phi_col transition emission init obs numberOfStates lweights.
Let table := viterbi_table emission obs.

Lemma viterbi_init_spec (k : nat) (delta : mat xreal) :
  table delta -> k < c_slices obs -> k < m_cols lweights ->
  exists d',
    viterbi_init emission init obs numberOfStates lweights k delta = Ok d' /\
    table d' /\
    forall j t, m_at d' j t =
      if (j <? c_rows emission) && (t =? 0) then dcol k 0 j
      else m_at delta j t.
Proof.
  intros Hd Hk Hkl. unfold viterbi_init.
  assert (D := Hd). unfold table, viterbi_table, mat_dims in D. injection D as D1 D2.
  rewrite mcol_ok by assumption. cbn [bind].
  unfold reparma. rewrite reparma_from_ok
    by (rewrite length_map, length_seq; lia).
  cbn [bind]. fold (cluster_weights numberOfStates lweights k).
  set (w := cluster_weights numberOfStates lweights k).
  assert (Lw : length w = c_rows emission).
  { unfold w, cluster_weights. now rewrite expand_length. }
  unfold vadd at 1. rewrite Hinit, Lw, Nat.eqb_refl. cbn [bind].
  rewrite mset_col_ok by (try rewrite map2_length; lia). cbn [bind].
  pose (f := fun j r => c_at emission j (c_at obs r 0 k) r).
  pose (Inv := fun (n : nat) (d' : mat xreal) =>
    table d' /\ forall j t, m_at d' j t =
      if (j <? c_rows emission) && (t =? 0)
      then xadd (weighted_init init numberOfStates lweights k j)
                (xsum (map (f j) (seq 0 n)))
      else m_at delta j t).
  destruct (@for_loop_inv _ Inv
    (fun r delta =>
       o <- cget obs r 0 k ;;
       sl <- cslice emission r ;;
       e <- mcol sl o ;;
       d <- mcol delta 0 ;;
       v <- vadd d e ;;
       mset_col delta 0 v) (c_slices emission) 0
    (mupd_col delta 0 (map2 xadd init w))) as [d' [E I]].
  - split; [unfold table, viterbi_table, mat_dims; simpl; congruence |].
    intros j t. cbn [m_at mupd_col seq map]. unfold xsum at 1.
    cbn [fold_left]. rewrite xadd_0_r.
    destruct (Nat.ltb_spec j (c_rows emission)), (Nat.eqb_spec t 0);
      subst; cbn [andb]; try reflexivity.
    + unfold weighted_init. fold w.
      apply (nth_map2 xadd init w NaN NaN); lia.
    + apply nth_overflow. rewrite map2_length; lia.
  - intros r s0 Hr [Hf0 Hv].
    assert (D := Hf0). unfold table, viterbi_table, mat_dims in D. injection D as E1 E2.
    rewrite cget_ok by lia. cbn [bind].
    unfold cslice. replace (r <? c_slices emission) with true
      by (symmetry; apply Nat.ltb_lt; lia). cbn [bind].
    rewrite mcol_ok by (simpl; apply Hcodes; lia). cbn [bind m_rows m_at].
    rewrite mcol_ok by lia. cbn [bind].
    unfold vadd. rewrite !length_map, !length_seq, E1, Nat.eqb_refl.
    cbn [bind]. rewrite map2_map.
    rewrite mset_col_ok by (try rewrite length_map, length_seq; lia).
    eexists; split; [reflexivity |]. split.
    + unfold table, viterbi_table, mat_dims; simpl; congruence.
    + intros j t. cbn [m_at mupd_col].
      destruct (Nat.ltb_spec j (c_rows emission)), (Nat.eqb_spec t 0);
        subst; cbn [andb].
      * rewrite nth_map_seq by lia. rewrite Hv.
        replace (j <? c_rows emission) with true
          by (symmetry; apply Nat.ltb_lt; lia).
        cbn [andb Nat.eqb]. rewrite seq_S, map_app. cbn [map Nat.add].
        rewrite xsum_snoc. now rewrite xadd_assoc.
      * rewrite Hv.
        replace (j <? c_rows emission) with true
          by (symmetry; apply Nat.ltb_lt; lia).
        replace (t =? 0) with false by (symmetry; apply Nat.eqb_neq; lia).
        reflexivity.
      * rewrite nth_overflow by (rewrite length_map, length_seq; lia).
        rewrite Hv.
        replace (j <? c_rows emission) with false
          by (symmetry; apply Nat.ltb_ge; lia).
        reflexivity.
      * rewrite Hv.
        replace (j <? c_rows emission) with false
          by (symmetry; apply Nat.ltb_ge; lia).
        reflexivity.
  - exists d'; split; [exact E |]. destruct I as [F V].
    split; [exact F |]. intros j t. rewrite V. reflexivity.
Qed.

Lemma viterbi_terms_nonempty (prev : nat -> xreal) (j : nat) :
  viterbi_terms transition emission prev j <> [].
Proof.
  unfold viterbi_terms. destruct (c_rows emission); [lia | discriminate].
Qed.

Lemma viterbi_cell_spec (k t j : nat) (delta : mat xreal) (phi : mat nat) :
  table delta -> table phi -> 1 <= t < c_cols obs -> j < c_rows emission ->
  k < c_slices obs ->
  (forall i, i < c_rows emission -> m_at delta i (t - 1) = dcol k (t - 1) i) ->
  exists d' p',
    viterbi_cell transition emission obs k t j (delta, phi) = Ok (d', p') /\
    table d' /\ table p' /\
    (forall j' t', m_at d' j' t' =
       if (j' =? j) && (t' =? t) then dcol k t j else m_at delta j' t') /\
    (forall j' t', m_at p' j' t' =
       if (j' =? j) && (t' =? t) then pcol k t j else m_at phi j' t').
Proof.
  intros Hd Hp Ht Hj Hk Hprev. unfold viterbi_cell.
  assert (D := Hd). unfold table, viterbi_table, mat_dims in D. injection D as D1 D2.
  assert (P := Hp). unfold table, viterbi_table, mat_dims in P. injection P as P1 P2.
  rewrite mget_ok by lia. cbn [bind].
  rewrite mcol_ok by lia. cbn [bind].
  rewrite mcol_ok by lia. cbn [bind].
  unfold vadd. rewrite !length_map, !length_seq, D1, Htr, Nat.eqb_refl.
  cbn [bind]. rewrite map2_map.
  assert (Ev : map (fun i => xadd (m_at delta i (t - 1)) (m_at transition i j))
                 (seq 0 (c_rows emission))
               = viterbi_terms transition emission (dcol k (t - 1)) j).
  { unfold viterbi_terms. apply map_ext_in.
    intros i Hi. apply in_seq in Hi. now rewrite Hprev by lia. }
  rewrite Ev. set (v := viterbi_terms transition emission (dcol k (t - 1)) j).
  rewrite vmax_index_ok by apply viterbi_terms_nonempty. cbn [bind].
  assert (Hix : argmax v < c_rows emission).
  { pose proof (@argmax_lt v (viterbi_terms_nonempty _ _)) as H.
    unfold v in H at 2. unfold viterbi_terms in H.
    now rewrite length_map, length_seq in H. }
  rewrite mset_ok by lia. cbn [bind].
  rewrite mget_ok by (simpl; lia). cbn [bind m_at mupd].
  rewrite !Nat.eqb_refl. cbn [andb].
  rewrite mget_ok by lia. cbn [bind].
  rewrite mget_ok by lia. cbn [bind].
  rewrite mset_ok by lia. cbn [bind].
  rewrite Hprev by lia.
  set (base := xadd (dcol k (t - 1) (argmax v)) (m_at transition (argmax v) j)).
  pose (f := fun r => c_at emission j (c_at obs r t k) r).
  pose (Inv := fun (n : nat) (d' : mat xreal) =>
    table d' /\ forall j' t', m_at d' j' t' =
      if (j' =? j) && (t' =? t)
      then xadd base (xsum (map f (seq 0 n)))
      else m_at delta j' t').
  destruct (@for_loop_inv _ Inv
    (fun r delta =>
       o <- cget obs r t k ;;
       e <- cget emission j o r ;;
       a <- mget delta j t ;;
       mset delta j t (xadd a e)) (c_slices emission) 0
    (mupd delta j t base)) as [d' [E I]].
  - split; [unfold table, viterbi_table, mat_dims; simpl; congruence |].
    intros j' t'. cbn [m_at mupd seq map]. unfold xsum; cbn [fold_left].
    now rewrite xadd_0_r.
  - intros r s0 Hr [Hf0 Hv].
    assert (D := Hf0). unfold table, viterbi_table, mat_dims in D. injection D as E1 E2.
    rewrite cget_ok by lia. cbn [bind].
    rewrite cget_ok by (try apply Hcodes; lia). cbn [bind].
    rewrite mget_ok by lia. cbn [bind].
    rewrite mset_ok by lia.
    eexists; split; [reflexivity |]. split.
    + unfold table, viterbi_table, mat_dims; simpl; congruence.
    + intros j' t'. cbn [m_at mupd].
      destruct ((j' =? j) && (t' =? t)) eqn:Eh.
      * rewrite (Hv j t), !Nat.eqb_refl. cbn [andb].
        rewrite seq_S, map_app. cbn [map Nat.add]. rewrite xsum_snoc.
        now rewrite xadd_assoc.
      * rewrite Hv, Eh. reflexivity.
  - rewrite E. cbn [bind]. destruct I as [F V].
    exists d', (mupd phi j t (argmax v)).
    split; [reflexivity |]. split; [exact F |].
    split; [unfold table, viterbi_table, mat_dims; simpl; congruence |]. split.
    + intros j' t'. rewrite V.
      destruct ((j' =? j) && (t' =? t)); [| reflexivity].
      destruct t as [| t0]; [lia |]. unfold dcol. cbn [delta_col].
      unfold base, v, dcol. replace (S t0 - 1) with t0 by lia. reflexivity.
    + intros j' t'. cbn [m_at mupd].
      destruct ((j' =? j) && (t' =? t)); [| reflexivity].
      destruct t as [| t0]; [lia |]. unfold pcol. cbn [phi_col].
      unfold v, dcol. replace (S t0 - 1) with t0 by lia. reflexivity.
Qed.

Lemma viterbix_tables_spec (k : nat) :
  k < c_slices obs -> k < m_cols lweights ->
  exists d p,
    viterbix_tables transition emission init obs numberOfStates lweights k
      = Ok (d, p) /\
    table d /\ table p /\
    forall j t, j < c_rows emission -> t < c_cols obs ->
      m_at d j t = dcol k t j /\ m_at p j t = pcol k t j.
Proof.
  intros Hk Hkl. unfold viterbix_tables.
  destruct (@viterbi_init_spec k (mat_new (c_rows emission) (c_cols obs) (Fin 0)))
    as [d0 [E0 [F0 V0]]]; try assumption; [reflexivity |].
  rewrite E0. cbn [bind].
  rewrite mset_col_ok by (try rewrite repeat_length; simpl; lia).
  cbn [bind].
  set (p0 := mupd_col (mat_new (c_rows emission) (c_cols obs) 0) 0
               (repeat 0 (m_rows (mat_new (c_rows emission) (c_cols obs) 0)))).
  pose (Inv := fun (n : nat) (st : mat xreal * mat nat) =>
    table (fst st) /\ table (snd st) /\
    forall j t, j < c_rows emission -> t < n ->
      m_at (fst st) j t = dcol k t j /\ m_at (snd st) j t = pcol k t j).
  destruct (@for_loop_inv _ Inv
    (fun t st =>
       for_loop (seq 0 (c_rows emission))
         (viterbi_cell transition emission obs k t) st)
    (c_cols obs - 1) 1 (d0, p0)) as [[d p] [E I]].
  - split; [exact F0 |]. split; [reflexivity |].
    intros j t Hj Ht. assert (t = 0) by lia; subst t. cbn [fst snd].
    rewrite V0. replace (j <? c_rows emission) with true
      by (symmetry; apply Nat.ltb_lt; lia).
    cbn [andb Nat.eqb]. split; [reflexivity |].
    unfold p0. cbn [m_at mupd_col mat_new Nat.eqb m_rows].
    destruct (nth_in_or_default j (repeat 0 (c_rows emission)) 0) as [Hin | E];
      [now apply repeat_spec in Hin | exact E].
  - intros t [ds ps] Ht [Fd [Fp Hv]]. cbn [fst snd] in *.
    pose (InvJ := fun (n : nat) (st : mat xreal * mat nat) =>
      table (fst st) /\ table (snd st) /\
      forall j t', j < c_rows emission ->
        (t' < t \/ (t' = t /\ j < n)) ->
        m_at (fst st) j t' = dcol k t' j /\ m_at (snd st) j t' = pcol k t' j).
    destruct (@for_loop_inv _ InvJ (viterbi_cell transition emission obs k t)
                (c_rows emission) 0 (ds, ps)) as [[d1 p1] [E1 I1]].
    + split; [exact Fd |]. split; [exact Fp |].
      intros j t' Hj [Ht' | [_ Hn]]; [| lia]. now apply Hv.
    + intros j [d2 p2] Hj [Fd2 [Fp2 Hv2]]. cbn [fst snd] in *.
      destruct (@viterbi_cell_spec k t j d2 p2) as [d3 [p3 [E3 [Fd3 [Fp3 [Vd Vp]]]]]];
        try assumption; try lia.
      { intros i Hi. apply Hv2; [assumption | left; lia]. }
      exists (d3, p3); split; [exact E3 |]. split; [exact Fd3 |].
      split; [exact Fp3 |]. cbn [fst snd].
      intros j' t' Hj' Hc. rewrite Vd, Vp.
      destruct (Nat.eqb_spec j' j), (Nat.eqb_spec t' t); subst; cbn [andb];
        try (split; reflexivity); apply Hv2; try assumption; lia.
    + exists (d1, p1); split; [exact E1 |].
      destruct I1 as [Fd1 [Fp1 Hv1]]. split; [exact Fd1 |].
      split; [exact Fp1 |]. cbn [fst snd] in *.
      intros j t' Hj Ht'. apply Hv1; [assumption |].
      destruct (Nat.eq_dec t' t); [right; split; [assumption | lia] | left; lia].
  - exists d, p. split; [exact E |]. destruct I as [Fd [Fp Hv]].
    cbn [fst snd] in *. split; [exact Fd |]. split; [exact Fp |].
    intros j t Hj Ht. apply Hv; [assumption | lia].
Qed.

Lemma back_lt (k n : nat) :
  back transition emission init obs numberOfStates lweights k n
    < c_rows emission.
Proof.
  destruct n as [| n]; cbn [back].
  - assert (Hne : last_col transition emission init obs numberOfStates
                    lweights k <> []).
    { unfold last_col. destruct (c_rows emission); [lia | discriminate]. }
    pose proof (argmax_lt Hne) as H.
    unfold last_col in H at 2. now rewrite length_map, length_seq in H.
  - unfold phi_col. destruct (c_cols obs - 1 - n); [lia |].
    match goal with |- argmax ?v < _ =>
      pose proof (@argmax_lt v (viterbi_terms_nonempty _ _)) as H end.
    unfold viterbi_terms in H at 2.
    now rewrite length_map, length_seq in H.
Qed.

Lemma viterbi_path_spec (k : nat) (delta : mat xreal) (phi : mat nat)
    (q : mat nat) (logp : list xreal) :
  table delta -> table phi ->
  (forall j t, j < c_rows emission -> t < c_cols obs ->
     m_at delta j t = dcol k t j /\ m_at phi j t = pcol k t j) ->
  mat_dims q = (c_slices obs, c_cols obs) -> length logp = c_slices obs ->
  k < c_slices obs ->
  exists q',
    viterbi_path obs k delta phi (q, logp)
      = Ok (q', upd_nth logp k
                  (maxval (last_col transition emission init obs
                             numberOfStates lweights k))) /\
    mat_dims q' = (c_slices obs, c_cols obs) /\
    forall k' t, m_at q' k' t =
      if (k' =? k) && (t <? c_cols obs)
      then path_at transition emission init obs numberOfStates lweights k t
      else m_at q k' t.
Proof.
  intros Hd Hp Hv Hq Hl Hk. unfold viterbi_path.
  assert (D := Hd). unfold table, viterbi_table, mat_dims in D. injection D as D1 D2.
  assert (P := Hp). unfold table, viterbi_table, mat_dims in P. injection P as P1 P2.
  assert (Q := Hq). unfold mat_dims in Q. injection Q as Q1 Q2.
  set (lc := last_col transition emission init obs numberOfStates lweights k).
  set (pa := path_at transition emission init obs numberOfStates lweights k).
  assert (El : map (fun i => m_at delta i (c_cols obs - 1))
                 (seq 0 (m_rows delta)) = lc).
  { unfold lc, last_col. rewrite D1. apply map_ext_in.
    intros i Hi; apply in_seq in Hi. apply Hv; lia. }
  assert (Hne : lc <> []).
  { unfold lc, last_col. destruct (c_rows emission); [lia | discriminate]. }
  rewrite mcol_ok by lia. cbn [bind]. rewrite El.
  unfold vindex_max, vmax. rewrite vmax_index_ok by assumption. cbn [bind].
  assert (Hix : argmax lc < c_rows emission) by apply (back_lt k 0).
  rewrite mset_ok by lia. cbn [bind].
  pose (Inv := fun (n : nat) (q' : mat nat) =>
    mat_dims q' = (c_slices obs, c_cols obs) /\
    forall k' t, m_at q' k' t =
      if (k' =? k) && (n <=? t) && (t <? c_cols obs) then pa t
      else m_at q k' t).
  destruct (@for_loop_rev_inv _ Inv
    (fun t q =>
       s <- mget q k (t + 1) ;;
       p <- mget phi s (t + 1) ;;
       mset q k t p) (c_cols obs - 1)
    (mupd q k (c_cols obs - 1) (argmax lc))) as [q' [E I]].
  - split; [unfold mat_dims; simpl; congruence |].
    intros k' t. cbn [m_at mupd].
    destruct (Nat.eqb_spec k' k), (Nat.eqb_spec t (c_cols obs - 1)),
      (Nat.leb_spec (c_cols obs - 1) t), (Nat.ltb_spec t (c_cols obs));
      subst; cbn [andb]; try reflexivity; try lia.
    unfold pa, path_at. rewrite Nat.sub_diag. reflexivity.
  - intros t q0 Ht [Hq0 Hv0].
    assert (Q0 := Hq0). unfold mat_dims in Q0. injection Q0 as Q3 Q4.
    rewrite mget_ok by lia. cbn [bind]. rewrite Hv0.
    replace ((k =? k) && (S t <=? t + 1) && (t + 1 <? c_cols obs)) with true.
    2:{ rewrite Nat.eqb_refl. symmetry. apply andb_true_iff; split;
        [apply Nat.leb_le | apply Nat.ltb_lt]; lia. }
    assert (Hs : pa (t + 1) < c_rows emission) by apply back_lt.
    rewrite mget_ok by lia. cbn [bind].
    rewrite mset_ok by lia.
    eexists; split; [reflexivity |].
    split; [unfold mat_dims; simpl; congruence |].
    intros k' t'. cbn [m_at mupd]. rewrite Hv0.
    destruct (Nat.eqb_spec k' k), (Nat.eqb_spec t' t),
      (Nat.leb_spec (S t) t'), (Nat.leb_spec t t'),
      (Nat.ltb_spec t' (c_cols obs));
      subst; cbn [andb]; try reflexivity; try lia.
    destruct (Hv (pa (t + 1)) (t + 1)) as [_ Ep]; [assumption | lia |].
    rewrite Ep. unfold pa, path_at.
    replace (c_cols obs - 1 - t) with (S (c_cols obs - 1 - (t + 1))) by lia.
    cbn [back]. unfold pcol.
    replace (c_cols obs - 1 - (c_cols obs - 1 - (t + 1))) with (t + 1) by lia.
    reflexivity.
  - rewrite E. cbn [bind].
    unfold vset. replace (k <? length logp) with true
      by (symmetry; apply Nat.ltb_lt; lia).
    cbn [bind]. exists q'. split; [reflexivity |].
    destruct I as [F V]. split; [exact F |].
    intros k' t. rewrite V. cbn [Nat.leb]. now rewrite andb_true_r.
Qed.
End ViterbiRefinement.

Lemma mix_lweights_spec (coef X : mat xreal) :
  m_cols X = m_rows coef ->
  exists L, mix_lweights coef X = Ok L /\
    m_rows L = m_cols coef /\ m_cols L = m_rows X /\
    forall c k, k < m_rows X -> m_at L c k = xlog (mix_weight coef X c k).
Proof.
  intros Hd. unfold mix_lweights, mmul.
  apply Nat.eqb_eq in Hd. rewrite Hd. cbn [bind].
  unfold each_row_div, msum0. rewrite length_map, length_seq.
  cbn [m_cols m_rows mtrans mmap]. rewrite Nat.eqb_refl. cbn [bind].
  eexists; split; [reflexivity |]. cbn [m_rows m_cols mmap].
  split; [reflexivity |]. split; [reflexivity |].
  intros c k Hk. cbn [m_at mmap mtrans].
  rewrite nth_map_seq by assumption. reflexivity.
Qed.

Lemma viterbi_shape_inv transition emission init obs numberOfStates :
  viterbi_shape transition emission init obs numberOfStates = true ->
  m_rows transition = c_rows emission /\
  m_cols transition = c_rows emission /\
  length init = c_rows emission /\
  c_slices emission = c_rows obs /\
  list_sum numberOfStates = c_rows emission /\
  1 <= c_rows emission /\
  1 <= c_cols obs /\
  forall r t k,
    r < c_rows obs -> t < c_cols obs -> k < c_slices obs ->
    c_at obs r t k < c_cols emission.
Proof.
  unfold viterbi_shape. rewrite !andb_true_iff, !Nat.eqb_eq, !Nat.leb_le.
  intros [[[[[[[H1 H2] H3] H4] H5] H6] H7] H8].
  repeat split; try assumption.
  intros r t k Hr Ht Hk.
  rewrite all_lt_spec in H8; specialize (H8 r Hr).
  rewrite all_lt_spec in H8; specialize (H8 t Ht).
  rewrite all_lt_spec in H8; specialize (H8 k Hk).
  now apply Nat.ltb_lt in H8.
Qed.

Lemma mixture_shape_inv coef X clusters sequences :
  mixture_shape coef X clusters sequences = true ->
  m_cols X = m_rows coef /\ m_cols coef = clusters /\ m_rows X = sequences.
Proof.
  unfold mixture_shape. rewrite !andb_true_iff, !Nat.eqb_eq. tauto.
Qed.

(** [viterbix] returns, for every sequence, the backtracked path and the
    maximum of the last column of the closed form. *)
Lemma viterbix_spec transition emission init obs numberOfStates coef X :
  viterbix_wf transition emission init obs numberOfStates coef X = true ->
  exists L q logp,
    mix_lweights coef X = Ok L /\
    viterbix transition emission init obs numberOfStates coef X
      = Ok (q, logp) /\
    mat_dims q = (c_slices obs, c_cols obs) /\
    length logp = c_slices obs /\
    forall k, k < c_slices obs ->
      nth k logp NaN
        = maxval (last_col transition emission init obs numberOfStates L k) /\
      forall t, t < c_cols obs ->
        m_at q k t
          = path_at transition emission init obs numberOfStates L k t.
Proof.
  unfold viterbix_wf. rewrite andb_true_iff. intros [Hs Hm].
  destruct (viterbi_shape_inv _ _ _ _ _ Hs)
    as [Htr [Htc [Hinit [Hch [Hsum [HS [HT Hcodes]]]]]]].
  destruct (mixture_shape_inv _ _ _ _ Hm) as [M1 [M2 M3]].
  destruct (mix_lweights_spec coef X M1) as [L [EL [L1 [L2 HL]]]].
  exists L. unfold viterbix. rewrite EL. cbn [bind].
  pose (Inv := fun (n : nat) (out : mat nat * list xreal) =>
    mat_dims (fst out) = (c_slices obs, c_cols obs) /\
    length (snd out) = c_slices obs /\
    forall k, k < n ->
      nth k (snd out) NaN
        = maxval (last_col transition emission init obs numberOfStates L k) /\
      forall t, t < c_cols obs ->
        m_at (fst out) k t
          = path_at transition emission init obs numberOfStates L k t).
  destruct (@for_loop_inv _ Inv
    (fun k out =>
       '(delta, phi) <- viterbix_tables transition emission init obs
                          numberOfStates L k ;;
       viterbi_path obs k delta phi out)
    (c_slices obs) 0
    (mat_new (c_slices obs) (c_cols obs) 0, repeat (Fin 0) (c_slices obs)))
    as [[q logp] [E I]].
  - split; [reflexivity |]. split; [apply repeat_length |]. intros k Hk; lia.
  - intros k [q0 l0] Hk [Hq [Hl Hv]]. cbn [fst snd] in *.
    destruct (@viterbix_tables_spec transition emission init obs
                numberOfStates L Htr Htc Hinit Hch Hsum HS HT Hcodes
                (eq_trans L1 M2) k)
      as [d [p [Et [Fd [Fp Vt]]]]]; try lia.
    rewrite Et. cbn [bind].
    destruct (@viterbi_path_spec transition emission init obs
                numberOfStates L Htr Htc Hinit Hch Hsum HS HT
                (eq_trans L1 M2) k d p q0 l0 Fd Fp Vt Hq Hl)
      as [q1 [E1 [Hq1 V1]]]; try lia.
    eexists; split; [exact E1 |]. unfold Inv. cbn [fst snd].
    split; [exact Hq1 |]. split; [now rewrite upd_nth_length |].
    intros k' Hk'. rewrite nth_upd_nth by lia. split.
    + destruct (Nat.eqb_spec k' k); [now subst | apply Hv; lia].
    + intros t Ht. rewrite V1.
      destruct (Nat.eqb_spec k' k), (Nat.ltb_spec t (c_cols obs));
        subst; cbn [andb]; try reflexivity; try lia; apply Hv; lia.
  - exists q, logp. split; [reflexivity |]. split; [exact E |]. exact I.
Qed.

(** ** Where the maximum scan lands *)

Lemma xgt_NInf_false (x : xreal) :
  is_logp x = true -> xgt x NInf = false -> x = NInf.
Proof.
  destruct x; simpl; congruence.
Qed.

Lemma xgt_not_le (a b : xreal) : xgt a b = true -> xle a b -> False.
Proof.
  destruct a, b; simpl; intros; try congruence; try tauto.
  unfold Rltb in *. destruct (Rlt_dec r0 r); [lra | discriminate].
Qed.

Lemma max_scan_inv (l pre : list xreal) (b : xreal) (bi : nat) :
  Forall (fun x => is_logp x = true) (pre ++ l) ->
  is_logp b = true ->
  (pre = [] -> b = NInf /\ bi = 0) ->
  (pre <> [] -> bi < length pre /\ nth bi pre NaN = b) ->
  (forall i, i < length pre -> xle (nth i pre NaN) b) ->
  (forall i, i < bi -> xgt b (nth i pre NaN) = true) ->
  let r := max_scan l (length pre) b bi in
  (pre ++ l <> [] ->
   snd r < length (pre ++ l) /\ nth (snd r) (pre ++ l) NaN = fst r) /\
  (forall i, i < length (pre ++ l) -> xle (nth i (pre ++ l) NaN) (fst r)) /\
  (forall i, i < snd r -> xgt (fst r) (nth i (pre ++ l) NaN) = true).
Proof.
  revert pre b bi; induction l as [| x l IH]; intros pre b bi Hall Hb H0 H1 H2 H3.
  - cbn [max_scan fst snd]. rewrite app_nil_r. auto.
  - cbn [max_scan].
    assert (Hx : is_logp x = true).
    { rewrite Forall_forall in Hall. apply Hall, in_or_app.
      right; now left. }
    assert (Hpre : forall i, i < length pre -> is_logp (nth i pre NaN) = true).
    { intros i Hi. rewrite Forall_forall in Hall.
      apply Hall, in_or_app. left. now apply nth_In. }
    replace (pre ++ x :: l) with ((pre ++ [x]) ++ l) in *
      by (now rewrite <- app_assoc).
    replace (S (length pre)) with (length (pre ++ [x]))
      by (rewrite length_app; simpl; lia).
    assert (Hne : pre ++ [x] <> []) by (destruct pre; discriminate).
    destruct (xgt x b) eqn:Eg.
    + apply IH; try assumption.
      * intros E; contradiction.
      * intros _. rewrite length_app; simpl. split; [lia |].
        rewrite app_nth2 by lia. now rewrite Nat.sub_diag.
      * intros i Hi. rewrite length_app in Hi; simpl in Hi.
        destruct (Nat.eq_dec i (length pre)) as [-> | Hn].
        -- rewrite app_nth2 by lia. rewrite Nat.sub_diag. simpl.
           now apply xle_refl.
        -- rewrite app_nth1 by lia.
           apply xle_trans with b; [apply H2; lia |].
           now apply xgt_true_le.
      * intros i Hi. rewrite app_nth1 by lia.
        apply xgt_le_trans with b; [assumption | apply H2; lia].
    + apply IH; try assumption.
      * intros E; contradiction.
      * intros _. rewrite length_app; simpl.
        destruct pre as [| y pre'].
        -- destruct (H0 eq_refl) as [-> ->]. simpl. split; [lia |].
           now apply xgt_NInf_false.
        -- destruct H1 as [Hbi Hnth]; [discriminate |].
           split; [lia |]. now rewrite app_nth1.
      * intros i Hi. rewrite length_app in Hi; simpl in Hi.
        destruct (Nat.eq_dec i (length pre)) as [-> | Hn].
        -- rewrite app_nth2 by lia. rewrite Nat.sub_diag. simpl.
           now apply xgt_false_le.
        -- rewrite app_nth1 by lia. apply H2; lia.
      * intros i Hi.
        destruct pre as [| y pre'].
        -- destruct (H0 eq_refl) as [_ ->]. lia.
        -- destruct H1 as [Hbi Hnth]; [discriminate |].
           rewrite app_nth1 by lia. now apply H3.
Qed.

(** On a non-empty vector without NaN and [+inf], [index_max] is the first
    position of the maximum and [max] is the element found there. *)
Lemma argmax_spec (v : list xreal) :
  v <> [] -> Forall (fun x => is_logp x = true) v ->
  argmax v < length v /\
  nth (argmax v) v NaN = maxval v /\
  (forall i, i < length v -> xle (nth i v NaN) (maxval v)) /\
  (forall i, i < argmax v -> xgt (maxval v) (nth i v NaN) = true).
Proof.
  intros Hne Hall.
  destruct (@max_scan_inv v [] NInf 0) as [A [B C]]; simpl; auto;
    try (intros; lia); try congruence.
  unfold argmax, maxval. simpl in A, B, C.
  destruct (A Hne) as [A1 A2]. auto.
Qed.

(** ** The mixture weights *)

Lemma is_fin_val (a : xreal) : is_fin a = true -> a = Fin (xval a).
Proof.
  destruct a; simpl; congruence.
Qed.

Lemma Rsign_pos (x : R) : (0 < x)%R -> Rsign x = Gt.
Proof.
  intros Hx. unfold Rsign.
  destruct (Rlt_dec x 0); [lra |]. destruct (Rlt_dec 0 x); [reflexivity | lra].
Qed.

Lemma xsum_map_Fin (A : Type) (f : A -> R) (l : list A) :
  xsum (map (fun c => Fin (f c)) l) = Fin (Rsum (map f l)).
Proof.
  induction l as [| c l IH]; [reflexivity |].
  cbn [map]. rewrite xsum_cons, IH. reflexivity.
Qed.

Lemma Rsum_pos (l : list R) :
  l <> [] -> Forall (fun x => (0 < x)%R) l -> (0 < Rsum l)%R.
Proof.
  intros Hne Hall. destruct Hall as [| x l Hx Hl]; [congruence |].
  clear Hne. simpl.
  assert (0 <= Rsum l)%R; [| lra].
  induction Hl as [| y l Hy _ IH]; simpl; lra.
Qed.

Lemma Rsum_div (A : Type) (f : A -> R) (s : R) (l : list A) :
  Rsum (map (fun c => (f c / s)%R) l) = (Rsum (map f l) / s)%R.
Proof.
  induction l as [| c l IH]; simpl; [lra |]. rewrite IH. lra.
Qed.

Lemma mixture_values_inv (coef X : mat xreal) :
  mixture_values coef X = true ->
  (forall k p, k < m_rows X -> p < m_cols X -> is_fin (m_at X k p) = true) /\
  (forall p c, p < m_rows coef -> c < m_cols coef ->
     is_fin (m_at coef p c) = true).
Proof.
  unfold mixture_values. rewrite andb_true_iff. intros [H1 H2]. split.
  - intros k p Hk Hp. rewrite all_lt_spec in H1. specialize (H1 k Hk).
    rewrite all_lt_spec in H1. now apply H1.
  - intros p c Hp Hc. rewrite all_lt_spec in H2. specialize (H2 p Hp).
    rewrite all_lt_spec in H2. now apply H2.
Qed.

(** ** The range of doubles *)

Lemma pow2_pos (n : nat) : (0 < 2 ^ n)%R.
Proof.
  apply pow_lt. lra.
Qed.

Lemma pow2_le (m n : nat) : m <= n -> (2 ^ m <= 2 ^ n)%R.
Proof.
  intros H. apply Rle_pow; [lra | exact H].
Qed.

Lemma pow2_ge_1 (n : nat) : (1 <= 2 ^ n)%R.
Proof.
  apply pow_R1_Rle. lra.
Qed.

Lemma inv_pow2_le (m n : nat) : m <= n -> (/ 2 ^ n <= / 2 ^ m)%R.
Proof.
  intros H. apply Rinv_le_contravar; [apply pow2_pos | now apply pow2_le].
Qed.

Lemma dbl_tiny_pos : (0 < dbl_tiny)%R.
Proof.
  unfold dbl_tiny. apply Rinv_0_lt_compat, pow2_pos.
Qed.

Lemma dbl_tiny_le_1 : (dbl_tiny <= 1)%R.
Proof.
  unfold dbl_tiny. apply Rle_trans with (/ 1)%R.
  - apply Rinv_le_contravar; [lra | apply pow2_ge_1].
  - rewrite Rinv_1. lra.
Qed.

Lemma dbl_max_ge_pow : (2 ^ 1023 <= dbl_max)%R.
Proof.
  unfold dbl_max.
  assert (H : (/ 2 ^ 52 <= 1)%R).
  { apply Rle_trans with (/ 1)%R.
    - apply Rinv_le_contravar; [lra | apply pow2_ge_1].
    - rewrite Rinv_1. lra. }
  pose proof (pow2_pos 1023) as Hp.
  generalize dependent (2 ^ 1023)%R. generalize dependent (/ 2 ^ 52)%R.
  intros a Ha p Hp. nra.
Qed.

Lemma dbl_max_ge_1 : (1 <= dbl_max)%R.
Proof.
  apply Rle_trans with (2 := dbl_max_ge_pow). apply pow2_ge_1.
Qed.

(** a positive result inside the range is kept *)
Lemma xrange_id (r : R) :
  (dbl_tiny <= r <= dbl_max)%R -> xrange r = Fin r.
Proof.
  intros [H1 H2]. pose proof dbl_tiny_pos as Ht.
  unfold xrange.
  destruct (Rlt_dec dbl_max r); [lra |].
  destruct (Rlt_dec r (- dbl_max)); [lra |].
  rewrite Rabs_pos_eq by lra.
  destruct (Rlt_dec r dbl_tiny); [lra | reflexivity].
Qed.

(** beyond the largest double there is an infinity *)
Lemma xrange_overflow (r : R) : (dbl_max < r)%R -> xrange r = PInf.
Proof.
  intros H. unfold xrange. destruct (Rlt_dec dbl_max r); [reflexivity | lra].
Qed.

(** a positive result below the range is zero *)
Lemma xrange_underflow (r : R) :
  (0 <= r < dbl_tiny)%R -> xrange r = Fin 0.
Proof.
  intros [H1 H2]. pose proof dbl_tiny_le_1. pose proof dbl_max_ge_1.
  unfold xrange.
  destruct (Rlt_dec dbl_max r); [lra |].
  destruct (Rlt_dec r (- dbl_max)); [lra |].
  rewrite Rabs_pos_eq by lra.
  destruct (Rlt_dec r dbl_tiny); [reflexivity | lra].
Qed.

(** what a non-negative result can become *)
Lemma xrange_nonneg (r : R) :
  (0 <= r)%R ->
  xrange r = PInf /\ (dbl_max < r)%R \/
  xrange r = Fin 0 /\ (r < dbl_tiny)%R \/
  xrange r = Fin r /\ (dbl_tiny <= r <= dbl_max)%R.
Proof.
  intros H.
  destruct (Rlt_dec dbl_max r) as [Ho | Ho].
  - left. split; [now apply xrange_overflow | exact Ho].
  - destruct (Rlt_dec r dbl_tiny) as [Hu | Hu].
    + right; left. split; [apply xrange_underflow; lra | exact Hu].
    + right; right. split; [apply xrange_id; lra | lra].
Qed.

Lemma xrange_1 : xrange 1 = Fin 1.
Proof.
  apply xrange_id. split; [apply dbl_tiny_le_1 | apply dbl_max_ge_1].
Qed.

(** a product inside the range is kept *)
Lemma xover_id (r : R) : (Rabs r <= dbl_max)%R -> xover r = Fin r.
Proof.
  intros H. unfold xover.
  destruct (Rlt_dec dbl_max r) as [H1 | _].
  - pose proof (Rle_abs r). lra.
  - destruct (Rlt_dec r (- dbl_max)) as [H2 | _]; [| reflexivity].
    pose proof (Rle_abs (- r)) as H3. rewrite Rabs_Ropp in H3. lra.
Qed.

(** [e^x <= 4^n = 2^(2n)] for [x <= n] *)
Lemma exp_INR (n : nat) : exp (INR n) = (exp 1 ^ n)%R.
Proof.
  induction n as [| n IH]; [simpl; apply exp_0 |].
  rewrite S_INR, exp_plus, IH. simpl. ring.
Qed.

Lemma exp_monotone (x y : R) : (x <= y)%R -> (exp x <= exp y)%R.
Proof.
  intros [H | ->]; [left; now apply exp_increasing | right; reflexivity].
Qed.

Lemma exp_le_pow2 (n : nat) (x : R) :
  (x <= INR n)%R -> (exp x <= 2 ^ (2 * n))%R.
Proof.
  intros H. apply Rle_trans with (exp (INR n)); [now apply exp_monotone |].
  rewrite exp_INR, pow_mult.
  apply pow_incr. split; [left; apply exp_pos |].
  pose proof exp_le_3. simpl. lra.
Qed.

Lemma exp_ge_pow2 (n : nat) (x : R) :
  (- INR n <= x)%R -> (/ 2 ^ (2 * n) <= exp x)%R.
Proof.
  intros H. replace x with (- - x)%R by ring. rewrite exp_Ropp.
  apply Rinv_le_contravar; [apply exp_pos |].
  apply exp_le_pow2. lra.
Qed.

Lemma Rsum_le_const (A : Type) (f : A -> R) (b : R) (l : list A) :
  (forall x, In x l -> (f x <= b)%R) ->
  (Rsum (map f l) <= INR (length l) * b)%R.
Proof.
  induction l as [| x l IH]; intros H.
  - simpl. lra.
  - cbn [map Rsum fold_right length]. fold (Rsum (map f l)).
    rewrite S_INR.
    assert (f x <= b)%R by (apply H; now left).
    assert (Rsum (map f l) <= INR (length l) * b)%R
      by (apply IH; intros y Hy; apply H; now right).
    lra.
Qed.

Lemma INR_le_pow2 (n : nat) : n <= 64 -> (INR n <= 2 ^ 64)%R.
Proof.
  intros H. apply Rle_trans with (2 ^ n)%R; [| now apply pow2_le].
  clear H. induction n as [| n IH]; [simpl; lra |].
  rewrite S_INR. cbn [pow]. pose proof (pow2_ge_1 n). lra.
Qed.

(** ** The mixture log-weights *)

Lemma Rsum_ge_in (A : Type) (f : A -> R) (l : list A) (y : A) :
  (forall x, In x l -> (0 <= f x)%R) -> In y l ->
  (f y <= Rsum (map f l))%R.
Proof.
  induction l as [| x l IH]; intros Hnn Hin; [contradiction |].
  simpl.
  assert (Hl : (0 <= Rsum (map f l))%R).
  { clear IH Hin. induction l as [| z l IHl]; simpl; [lra |].
    assert (0 <= f z)%R by (apply Hnn; right; now left).
    assert (0 <= Rsum (map f l))%R; [| lra].
    apply IHl. intros w Hw. apply Hnn.
    destruct Hw; [now left | right; now right]. }
  destruct Hin as [-> | Hin]; [lra |].
  assert (0 <= f x)%R by (apply Hnn; now left).
  assert (f y <= Rsum (map f l))%R; [| lra].
  apply IH; auto. intros w Hw. apply Hnn. now right.
Qed.

Lemma lin_pred_val (coef X : mat xreal) (k c : nat) :
  m_cols X = m_rows coef -> mixture_values coef X = true ->
  product_in_range coef X ->
  k < m_rows X -> c < m_cols coef ->
  lin_pred coef X k c = Fin (predictor coef X k c).
Proof.
  intros Hd Hv Hp Hk Hc. destruct (mixture_values_inv _ _ Hv) as [HX Hcoef].
  unfold lin_pred, predictor. rewrite <- xsum_map_Fin. f_equal.
  apply map_ext_in. intros p Hin. pose proof Hin as Hin'.
  apply in_seq in Hin'.
  assert (H1 := HX k p Hk ltac:(lia)).
  assert (H2 := Hcoef p c ltac:(lia) Hc).
  assert (Hb : (Rabs (xval (m_at X k p) * xval (m_at coef p c))
                <= dbl_max)%R).
  { apply Rle_trans with (2 := Hp k c Hk Hc).
    apply (Rsum_ge_in
             (fun q => Rabs (xval (m_at X k q) * xval (m_at coef q c)))).
    - intros q _. apply Rabs_pos.
    - exact Hin. }
  destruct (m_at X k p), (m_at coef p c); simpl in H1, H2; try discriminate.
  cbn [xmul xval] in *. now apply xover_id.
Qed.

Lemma partition_pos (coef X : mat xreal) (k : nat) :
  1 <= m_cols coef -> (0 < partition coef X k)%R.
Proof.
  intros Hcl. unfold partition. apply Rsum_pos.
  - destruct (m_cols coef); [lia | discriminate].
  - apply Forall_forall. intros x Hx. apply in_map_iff in Hx.
    destruct Hx as [c [<- _]]. apply exp_pos.
Qed.

Lemma softmax_pos (coef X : mat xreal) (c k : nat) :
  1 <= m_cols coef -> (0 < softmax coef X c k)%R.
Proof.
  intros Hcl. apply Rdiv_lt_0_compat; [apply exp_pos | now apply partition_pos].
Qed.

Lemma exp_le_partition (coef X : mat xreal) (k c : nat) :
  c < m_cols coef -> (exp (predictor coef X k c) <= partition coef X k)%R.
Proof.
  intros Hc. unfold partition.
  apply (Rsum_ge_in (fun c0 => exp (predictor coef X k c0))).
  - intros x _. left. apply exp_pos.
  - apply in_seq. lia.
Qed.

Lemma softmax_le_1 (coef X : mat xreal) (c k : nat) :
  c < m_cols coef -> (softmax coef X c k <= 1)%R.
Proof.
  intros Hc. assert (Hcl : 1 <= m_cols coef) by lia.
  pose proof (partition_pos coef X k Hcl) as Hn.
  pose proof (exp_le_partition coef X k Hc) as He.
  unfold softmax. apply Rmult_le_reg_r with (1 := Hn).
  unfold Rdiv. rewrite Rmult_assoc, Rinv_l by lra. lra.
Qed.

(** the softmax sums to one over the clusters *)
Lemma softmax_sum (coef X : mat xreal) (k : nat) :
  1 <= m_cols coef ->
  Rsum (map (fun c => softmax coef X c k) (seq 0 (m_cols coef))) = 1%R.
Proof.
  intros Hcl. unfold softmax. rewrite Rsum_div. fold (partition coef X k).
  pose proof (partition_pos coef X k Hcl). field. lra.
Qed.

Section MixtureWeights.
Variables coef X : mat xreal.
Hypothesis Hdim : m_cols X = m_rows coef.
Hypothesis Hval : mixture_values coef X = true.
Hypothesis Hclusters : 1 <= m_cols coef.
Hypothesis Hrange : softmax_in_range coef X.

Lemma xexp_lin_pred (k c : nat) :
  k < m_rows X -> c < m_cols coef ->
  xexp (lin_pred coef X k c) = Fin (exp (predictor coef X k c)).
Proof.
  intros Hk Hc. destruct Hrange as [Hprod Hrange'].
  rewrite lin_pred_val by assumption. cbn [xexp].
  apply xrange_id. destruct (Hrange' k Hk) as [Hn Hr].
  destruct (Hr c Hc) as [He _].
  pose proof (exp_le_partition coef X k Hc). lra.
Qed.

Lemma mix_weight_val (c k : nat) :
  k < m_rows X -> c < m_cols coef ->
  mix_weight coef X c k = Fin (softmax coef X c k).
Proof.
  intros Hk Hc. unfold mix_weight.
  rewrite xexp_lin_pred by assumption.
  assert (E : map (fun c' => xexp (lin_pred coef X k c'))
                (seq 0 (m_cols coef))
              = map (fun c' => Fin (exp (predictor coef X k c')))
                  (seq 0 (m_cols coef))).
  { apply map_ext_in. intros c' Hc'. apply in_seq in Hc'.
    apply xexp_lin_pred; [assumption | lia]. }
  rewrite E, xsum_map_Fin. fold (partition coef X k).
  unfold xdiv. rewrite (Rsign_pos (partition_pos coef X k Hclusters)).
  fold (softmax coef X c k). apply xrange_id.
  destruct (proj2 Hrange k Hk) as [_ Hr]. destruct (Hr c Hc) as [_ Hs].
  pose proof (softmax_le_1 coef X k Hc). pose proof dbl_max_ge_1. lra.
Qed.

Lemma lweight_fin (c k : nat) :
  k < m_rows X -> c < m_cols coef ->
  xlog (mix_weight coef X c k) = Fin (ln (softmax coef X c k)).
Proof.
  intros Hk Hc. rewrite mix_weight_val by assumption.
  unfold xlog. now rewrite (Rsign_pos (softmax_pos coef X c k Hclusters)).
Qed.

Lemma exp_lweight (c k : nat) :
  k < m_rows X -> c < m_cols coef ->
  xexp (xlog (mix_weight coef X c k)) = Fin (softmax coef X c k).
Proof.
  intros Hk Hc. rewrite lweight_fin by assumption. cbn [xexp].
  rewrite exp_ln by now apply softmax_pos.
  apply xrange_id.
  destruct (proj2 Hrange k Hk) as [_ Hr]. destruct (Hr c Hc) as [_ Hs].
  pose proof (softmax_le_1 coef X k Hc). pose proof dbl_max_ge_1. lra.
Qed.
End MixtureWeights.

Lemma Rsum_abs_le (A : Type) (f : A -> R) (l : list A) :
  (Rabs (Rsum (map f l)) <= Rsum (map (fun x => Rabs (f x)) l))%R.
Proof.
  induction l as [| x l IH]; simpl.
  - rewrite Rabs_R0. lra.
  - eapply Rle_trans; [apply Rabs_triang |]. lra.
Qed.

(** products of moderate size, for at most [2^64] clusters, stay in the
    range *)
Lemma bounded_predictors_in_range (coef X : mat xreal) :
  1 <= m_cols coef -> (INR (m_cols coef) <= 2 ^ 64)%R ->
  (forall k c, k < m_rows X -> c < m_cols coef ->
     (Rsum (map (fun p => Rabs (xval (m_at X k p) * xval (m_at coef p c)))
                (seq 0 (m_cols X))) <= 250)%R) ->
  softmax_in_range coef X.
Proof.
  intros Hcl HM Hb0.
  assert (Hb : forall k c, k < m_rows X -> c < m_cols coef ->
            (- 250 <= predictor coef X k c <= 250)%R).
  { intros k c Hk Hc. pose proof (Hb0 k c Hk Hc) as H.
    pose proof (Rsum_abs_le
                  (fun p => (xval (m_at X k p) * xval (m_at coef p c))%R)
                  (seq 0 (m_cols X))) as H'.
    fold (predictor coef X k c) in H'.
    pose proof (Rle_abs (predictor coef X k c)) as H1.
    pose proof (Rle_abs (- predictor coef X k c)) as H2.
    rewrite Rabs_Ropp in H2. lra. }
  split.
  { intros k c Hk Hc. apply Rle_trans with (1 := Hb0 k c Hk Hc).
    apply Rle_trans with (2 := dbl_max_ge_pow).
    apply Rle_trans with (2 ^ 8)%R; [simpl; lra | apply pow2_le; lia]. }
  intros k Hk.
  assert (E250 : INR 250 = 250%R) by (rewrite INR_IZR_INZ; reflexivity).
  assert (Hup : forall c, c < m_cols coef ->
            (exp (predictor coef X k c) <= 2 ^ 500)%R).
  { intros c Hc. change 500 with (2 * 250).
    apply exp_le_pow2. rewrite E250. now apply Hb. }
  assert (Hlo : forall c, c < m_cols coef ->
            (/ 2 ^ 500 <= exp (predictor coef X k c))%R).
  { intros c Hc. change 500 with (2 * 250).
    apply exp_ge_pow2. rewrite E250. now apply Hb. }
  assert (Hn : (partition coef X k <= 2 ^ 564)%R).
  { unfold partition.
    apply Rle_trans with (INR (length (seq 0 (m_cols coef))) * 2 ^ 500)%R.
    - apply Rsum_le_const. intros c Hc. apply in_seq in Hc. apply Hup. lia.
    - rewrite length_seq. change 564 with (64 + 500). rewrite pow_add.
      apply Rmult_le_compat_r; [left; apply pow2_pos | exact HM]. }
  pose proof (partition_pos coef X k Hcl) as Hp.
  split.
  - apply Rle_trans with (1 := Hn).
    apply Rle_trans with (2 := dbl_max_ge_pow). apply pow2_le. lia.
  - intros c Hc. split.
    + apply Rle_trans with (2 := Hlo c Hc). unfold dbl_tiny.
      apply inv_pow2_le. lia.
    + unfold softmax, Rdiv.
      apply Rle_trans with (/ 2 ^ 500 * / 2 ^ 564)%R.
      * rewrite <- Rinv_mult, <- pow_add. unfold dbl_tiny.
        apply inv_pow2_le. lia.
      * apply Rmult_le_compat.
        -- left. apply Rinv_0_lt_compat, pow2_pos.
        -- left. apply Rinv_0_lt_compat, pow2_pos.
        -- now apply Hlo.
        -- apply Rinv_le_contravar; [exact Hp | exact Hn].
Qed.

(** C4.  For real covariates and coefficients, at least one cluster, and as
    long as nothing in lines 14-15 (the product [X * coef], the
    exponentials, their sum, the quotients) leaves the range of doubles: the
    matrix of log-weights that [viterbix] computes has a row per cluster and
    a column per sequence, its entry [(c,k)] is the logarithm of the
    normalised weight [exp((X*coef)(k,c)) / sum_c' exp((X*coef)(k,c'))],
    these weights sum to 1 over the clusters, and so do the exponentials of
    the computed log-weights. *)
Theorem mixture_weights_sum_to_one (coef X : mat xreal) :
  m_cols X = m_rows coef ->
  mixture_values coef X = true ->
  1 <= m_cols coef ->
  softmax_in_range coef X ->
  exists lweights, mix_lweights coef X = Ok lweights /\
    mat_dims lweights = (m_cols coef, m_rows X) /\
    forall k, k < m_rows X ->
      (forall c, c < m_cols coef ->
         m_at lweights c k = Fin (ln (softmax coef X c k))) /\
      Rsum (map (fun c => softmax coef X c k) (seq 0 (m_cols coef))) = 1%R /\
      xsum (map (fun c => xexp (m_at lweights c k)) (seq 0 (m_cols coef)))
        = Fin 1.
Proof.
  intros Hdim Hval Hcl Hrange.
  destruct (mix_lweights_spec coef X Hdim) as [L [EL [L1 [L2 HL]]]].
  exists L; split; [exact EL |].
  split; [unfold mat_dims; congruence |]. intros k Hk.
  split; [| split].
  - intros c Hc. rewrite HL by assumption. now apply lweight_fin.
  - now apply softmax_sum.
  - rewrite <- (softmax_sum coef X k Hcl), <- xsum_map_Fin. f_equal.
    apply map_ext_in. intros c Hc. apply in_seq in Hc.
    rewrite HL by assumption. apply exp_lweight; try assumption; lia.
Qed.

(** ** The Viterbi tables hold log-probabilities *)

Lemma is_logprob_logp (a : xreal) :
  is_logprob a = true -> is_logp a = true.
Proof.
  destruct a; simpl; congruence.
Qed.

Lemma model_values_inv transition emission init :
  model_values transition emission init = true ->
  (forall i, i < c_rows emission -> is_logp (nth i init NaN) = true) /\
  (forall i j, i < c_rows emission -> j < c_rows emission ->
     is_logp (m_at transition i j) = true) /\
  (forall i o r, i < c_rows emission -> o < c_cols emission ->
     r < c_slices emission -> is_logp (c_at emission i o r) = true).
Proof.
  unfold model_values. intros H.
  assert (H' : forall i, i < c_rows emission ->
    is_logprob (nth i init NaN) = true /\
    (forall j, j < c_rows emission ->
       is_logprob (m_at transition i j) = true) /\
    (forall o r, o < c_cols emission -> r < c_slices emission ->
       is_logprob (c_at emission i o r) = true)).
  { intros i Hi. rewrite all_lt_spec in H. specialize (H i Hi).
    rewrite !andb_true_iff in H. destruct H as [[H1 H2] H3].
    split; [assumption |]. split.
    - intros j Hj. rewrite all_lt_spec in H2. now apply H2.
    - intros o r Ho Hr. rewrite all_lt_spec in H3. specialize (H3 o Ho).
      rewrite all_lt_spec in H3. now apply H3. }
  repeat split; intros; apply is_logprob_logp; now apply H'.
Qed.

Lemma expand_logp (x : list xreal) (y : list nat) (c : nat) :
  (forall i, i < length x -> is_logp (nth i x NaN) = true) ->
  c + length y <= length x ->
  Forall (fun w => is_logp w = true) (expand x y c).
Proof.
  intros Hx. revert c; induction y as [| n y IH]; intros c Hc; simpl in *.
  - constructor.
  - apply Forall_app; split; [| apply IH; lia].
    apply Forall_forall. intros w Hw. apply repeat_spec in Hw. subst w.
    apply Hx; lia.
Qed.

Section ViterbiValues.
Variable transition : mat xreal.
Variable emission : cube xreal.
Variable init : list xreal.
Variable obs : cube nat.
Variable numberOfStates : list nat.
Variable lweights : mat xreal.

Hypothesis Hshape :
  viterbi_shape transition emission init obs numberOfStates = true.
Hypothesis Hvalues : model_values transition emission init = true.
Hypothesis Hlw : m_rows lweights = length numberOfStates.
Hypothesis Hfin : forall c k,
  c < m_rows lweights -> k < c_slices obs ->
  is_logp (m_at lweights c k) = true.

Let dcol := delta_col transition emission init obs numberOfStates lweights.
Let pcol := phi_col transition emission init obs numberOfStates lweights.
Let terms := viterbi_terms transition emission.
Let n_states := c_rows emission.
Let n_steps := c_cols obs.

Lemma weighted_init_logp (k j : nat) :
  k < c_slices obs -> j < n_states ->
  is_logp (weighted_init init numberOfStates lweights k j) = true.
Proof.
  intros Hk Hj.
  destruct (viterbi_shape_inv _ _ _ _ _ Hshape)
    as [_ [_ [_ [_ [Hsum _]]]]].
  destruct (model_values_inv _ _ _ Hvalues) as [Hi _].
  unfold weighted_init. apply is_logp_xadd; [now apply Hi |].
  assert (F : Forall (fun w => is_logp w = true)
                (cluster_weights numberOfStates lweights k)).
  { unfold cluster_weights. apply expand_logp.
    - intros i Hi'. rewrite length_map, length_seq in Hi'.
      rewrite nth_map_seq by assumption. now apply Hfin.
    - rewrite length_map, length_seq. lia. }
  rewrite Forall_forall in F. apply F, nth_In.
  unfold cluster_weights. rewrite expand_length. unfold n_states in Hj. lia.
Qed.

Lemma emissions_v_logp (j t k : nat) :
  j < n_states -> t < n_steps -> k < c_slices obs ->
  is_logp (xsum (emissions_v emission obs j t k)) = true.
Proof.
  intros Hj Ht Hk.
  destruct (viterbi_shape_inv _ _ _ _ _ Hshape)
    as [_ [_ [_ [Hch [_ [_ [_ Hcodes]]]]]]].
  destruct (model_values_inv _ _ _ Hvalues) as [_ [_ He]].
  apply is_logp_xsum, Forall_forall. intros x Hx.
  unfold emissions_v in Hx. apply in_map_iff in Hx.
  destruct Hx as [r [<- Hr]]. apply in_seq in Hr.
  apply He; [assumption | apply Hcodes; try assumption; lia | lia].
Qed.

Lemma terms_nonempty (prev : nat -> xreal) (j : nat) : terms prev j <> [].
Proof.
  destruct (viterbi_shape_inv _ _ _ _ _ Hshape)
    as [_ [_ [_ [_ [_ [HS _]]]]]].
  unfold terms, viterbi_terms. destruct (c_rows emission); [lia | discriminate].
Qed.

Lemma terms_length (prev : nat -> xreal) (j : nat) :
  length (terms prev j) = n_states.
Proof.
  unfold terms, viterbi_terms. now rewrite length_map, length_seq.
Qed.

Lemma terms_nth (prev : nat -> xreal) (j i : nat) :
  i < n_states ->
  nth i (terms prev j) NaN = xadd (prev i) (m_at transition i j).
Proof.
  intros Hi. unfold terms, viterbi_terms. now rewrite nth_map_seq.
Qed.

Lemma pcol_lt (k t j : nat) : pcol k t j < n_states.
Proof.
  destruct (viterbi_shape_inv _ _ _ _ _ Hshape)
    as [_ [_ [_ [_ [_ [HS _]]]]]].
  unfold pcol. destruct t as [| t]; cbn [phi_col]; [exact HS |].
  rewrite <- (terms_length (dcol k t) j).
  apply argmax_lt, terms_nonempty.
Qed.

Lemma dcol_logp (k t j : nat) :
  k < c_slices obs -> t < n_steps -> j < n_states ->
  is_logp (dcol k t j) = true.
Proof.
  intros Hk. revert j. induction t as [| t IH]; intros j Ht Hj.
  - unfold dcol; cbn [delta_col]. apply is_logp_xadd.
    + now apply weighted_init_logp.
    + now apply emissions_v_logp.
  - unfold dcol; cbn [delta_col]. fold dcol.
    destruct (model_values_inv _ _ _ Hvalues) as [_ [Htv _]].
    pose proof (pcol_lt k (S t) j) as Hp. unfold pcol in Hp.
    cbn [phi_col] in Hp. fold dcol in Hp.
    apply is_logp_xadd; [apply is_logp_xadd |].
    + apply IH; [unfold n_steps in *; lia | exact Hp].
    + now apply Htv.
    + now apply emissions_v_logp.
Qed.

Lemma terms_logp (k t j : nat) :
  k < c_slices obs -> t < n_steps -> j < n_states ->
  Forall (fun x => is_logp x = true) (terms (dcol k t) j).
Proof.
  intros Hk Ht Hj. apply Forall_forall. intros x Hx.
  unfold terms, viterbi_terms in Hx. apply in_map_iff in Hx.
  destruct Hx as [i [<- Hi]]. apply in_seq in Hi.
  destruct (model_values_inv _ _ _ Hvalues) as [_ [Htv _]].
  apply is_logp_xadd; [apply dcol_logp; try assumption; unfold n_states; lia |].
  apply Htv; [lia | assumption].
Qed.

(** the backpointer is the first predecessor that attains the maximum *)
Lemma pcol_spec (k t j : nat) :
  k < c_slices obs -> 1 <= t < n_steps -> j < n_states ->
  let c := fun i => xadd (dcol k (t - 1) i) (m_at transition i j) in
  pcol k t j < n_states /\
  (forall i, i < n_states -> xle (c i) (c (pcol k t j))) /\
  (forall i, i < pcol k t j -> xgt (c (pcol k t j)) (c i) = true).
Proof.
  intros Hk Ht Hj c. split; [apply pcol_lt |].
  destruct t as [| t]; [lia |].
  replace (S t - 1) with t in * by lia.
  assert (Ht' : t < n_steps) by lia.
  destruct (argmax_spec (terms_nonempty (dcol k t) j)
              (terms_logp Hk Ht' Hj)) as [A1 [A2 [A3 A4]]].
  rewrite terms_length in A1, A3.
  unfold pcol; cbn [phi_col]. fold dcol. fold (terms (dcol k t) j).
  set (p := argmax (terms (dcol k t) j)) in *.
  assert (Ec : forall i, i < n_states -> nth i (terms (dcol k t) j) NaN = c i).
  { intros i Hi. unfold c. replace (S t - 1) with t by lia.
    now apply terms_nth. }
  split.
  - intros i Hi. rewrite <- (Ec p A1), A2, <- (Ec i Hi). now apply A3.
  - intros i Hi. rewrite <- (Ec p A1), A2, <- (Ec i) by lia. now apply A4.
Qed.

Let lcol := last_col transition emission init obs numberOfStates lweights.
Let pa := path_at transition emission init obs numberOfStates lweights.
Let score := prefix_score transition emission init obs numberOfStates lweights.

Lemma n_steps_pos : 1 <= n_steps.
Proof.
  destruct (viterbi_shape_inv _ _ _ _ _ Hshape)
    as [_ [_ [_ [_ [_ [_ [HT _]]]]]]]. exact HT.
Qed.

Lemma lcol_spec (k : nat) :
  k < c_slices obs ->
  argmax (lcol k) < n_states /\
  maxval (lcol k) = dcol k (n_steps - 1) (argmax (lcol k)) /\
  (forall j, j < n_states ->
     xle (dcol k (n_steps - 1) j) (maxval (lcol k))) /\
  (forall j, j < argmax (lcol k) ->
     xgt (maxval (lcol k)) (dcol k (n_steps - 1) j) = true).
Proof.
  intros Hk. pose proof n_steps_pos as HT.
  destruct (viterbi_shape_inv _ _ _ _ _ Hshape)
    as [_ [_ [_ [_ [_ [HS _]]]]]].
  assert (Hne : lcol k <> []).
  { unfold lcol, last_col. destruct (c_rows emission); [lia | discriminate]. }
  assert (Hlen : length (lcol k) = n_states).
  { unfold lcol, last_col. now rewrite length_map, length_seq. }
  assert (Hnth : forall j, j < n_states ->
            nth j (lcol k) NaN = dcol k (n_steps - 1) j).
  { intros j Hj. unfold lcol, last_col. now rewrite nth_map_seq. }
  assert (Hall : Forall (fun x => is_logp x = true) (lcol k)).
  { apply Forall_forall. intros x Hx. unfold lcol, last_col in Hx.
    apply in_map_iff in Hx. destruct Hx as [j [<- Hj]]. apply in_seq in Hj.
    apply dcol_logp; try assumption; unfold n_steps, n_states in *; lia. }
  destruct (argmax_spec Hne Hall) as [A1 [A2 [A3 A4]]].
  rewrite Hlen in A1, A3.
  split; [exact A1 |]. split; [now rewrite <- A2, Hnth |]. split.
  - intros j Hj. rewrite <- Hnth by assumption. now apply A3.
  - intros j Hj. rewrite <- Hnth by lia. now apply A4.
Qed.

Lemma pa_lt (k t : nat) : pa k t < n_states.
Proof.
  destruct (viterbi_shape_inv _ _ _ _ _ Hshape)
    as [Htr [Htc [Hinit [Hch [Hsum [HS [HT Hcodes]]]]]]].
  unfold pa, path_at. now apply back_lt.
Qed.

Lemma pa_step (k t : nat) :
  t + 1 < n_steps -> pa k t = pcol k (t + 1) (pa k (t + 1)).
Proof.
  intros Ht. unfold pa, path_at. fold n_steps.
  replace (n_steps - 1 - t) with (S (n_steps - 1 - (t + 1))) by lia.
  cbn [back]. fold n_steps. unfold pcol.
  replace (n_steps - 1 - (n_steps - 1 - (t + 1))) with (t + 1) by lia.
  reflexivity.
Qed.

Lemma pa_last (k : nat) : pa k (n_steps - 1) = argmax (lcol k).
Proof.
  unfold pa, path_at. fold n_steps. now rewrite Nat.sub_diag.
Qed.

(** no state sequence scores above the table *)
Lemma score_le_dcol (k : nat) (pf : nat -> nat) (t : nat) :
  k < c_slices obs -> (forall u, pf u < n_states) -> t < n_steps ->
  xle (score k pf t) (dcol k t (pf t)).
Proof.
  intros Hk Hpf. induction t as [| t IH]; intros Ht.
  - unfold score, dcol; cbn [prefix_score delta_col].
    apply xle_refl. apply (@dcol_logp k 0 (pf 0)); auto.
  - assert (Ht' : t < n_steps) by lia.
    destruct (model_values_inv _ _ _ Hvalues) as [_ [Htv _]].
    destruct (argmax_spec (terms_nonempty (dcol k t) (pf (S t)))
                (terms_logp Hk Ht' (Hpf (S t)))) as [A1 [A2 [A3 _]]].
    rewrite terms_length in A1, A3.
    set (p := argmax (terms (dcol k t) (pf (S t)))) in *.
    change (xle
      (xadd (xadd (score k pf t) (m_at transition (pf t) (pf (S t))))
            (xsum (emissions_v emission obs (pf (S t)) (S t) k)))
      (xadd (xadd (dcol k t p) (m_at transition p (pf (S t))))
            (xsum (emissions_v emission obs (pf (S t)) (S t) k)))).
    apply xadd_le_mono.
    + apply emissions_v_logp; auto.
    + apply is_logp_xadd; [now apply dcol_logp | now apply Htv].
    + apply xle_trans
        with (xadd (dcol k t (pf t)) (m_at transition (pf t) (pf (S t)))).
      * apply xadd_le_mono; [now apply Htv | now apply dcol_logp | auto].
      * rewrite <- (@terms_nth (dcol k t) (pf (S t)) p A1), A2.
        rewrite <- (@terms_nth (dcol k t) (pf (S t)) (pf t) (Hpf t)).
        now apply A3.
Qed.

(** the backtracked path scores exactly what the table holds *)
Lemma score_pa (k t : nat) :
  t < n_steps -> score k (pa k) t = dcol k t (pa k t).
Proof.
  induction t as [| t IH]; intros Ht.
  - reflexivity.
  - assert (E : pa k t = argmax (viterbi_terms transition emission
                                   (dcol k t) (pa k (S t)))).
    { rewrite pa_step by lia. replace (t + 1) with (S t) by lia.
      reflexivity. }
    change (xadd (xadd (score k (pa k) t)
                       (m_at transition (pa k t) (pa k (S t))))
                 (xsum (emissions_v emission obs (pa k (S t)) (S t) k))
            = xadd (xadd (dcol k t (argmax (viterbi_terms transition emission
                                   (dcol k t) (pa k (S t)))))
                         (m_at transition
                            (argmax (viterbi_terms transition emission
                                   (dcol k t) (pa k (S t))))
                            (pa k (S t))))
                   (xsum (emissions_v emission obs (pa k (S t)) (S t) k))).
    rewrite <- E, IH by lia. reflexivity.
Qed.
End ViterbiValues.

(** ** The joint log-probability of a path *)

Lemma xadd_shuffle (a b c d e : xreal) :
  xadd (xadd a (xadd b c)) (xadd d e)
    = xadd (xadd (xadd (xadd a b) d) c) e.
Proof.
  rewrite !xadd_assoc. f_equal. f_equal.
  rewrite <- !xadd_assoc. f_equal. apply xadd_comm.
Qed.

Lemma joint_logprob_score transition emission init obs numberOfStates
    lweights (k : nat) (p : list nat) :
  1 <= length p ->
  joint_logprob transition emission init obs numberOfStates lweights k p
    = prefix_score transition emission init obs numberOfStates lweights k
        (fun t => nth t p 0) (length p - 1).
Proof.
  intros Hp. unfold joint_logprob, path_transitions, path_emissions.
  replace (length p) with (S (length p - 1)) at 2 by lia.
  generalize (length p - 1) as n. clear Hp.
  set (pf := fun t => nth t p 0).
  change (nth 0 p 0) with (pf 0).
  intros n.
  assert (Em : map (fun t => m_at transition (nth (t - 1) p 0) (nth t p 0))
                 (seq 1 n)
               = map (fun t => m_at transition (pf (t - 1)) (pf t)) (seq 1 n))
    by reflexivity.
  rewrite Em. clear Em.
  change (flat_map (fun t => emissions_v emission obs (nth t p 0) t k))
    with (flat_map (fun t => emissions_v emission obs (pf t) t k)).
  induction n as [| n IH].
  - cbn [seq map flat_map prefix_score]. rewrite app_nil_r.
    unfold xsum at 1. cbn [fold_left]. now rewrite xadd_0_r.
  - rewrite (seq_S n 1), map_app. cbn [map].
    rewrite xsum_snoc.
    rewrite (seq_S (S n) 0), flat_map_app. cbn [flat_map Nat.add].
    rewrite app_nil_r, xsum_app.
    rewrite xadd_shuffle, IH. cbn [prefix_score].
    replace (S n - 1) with n by lia. reflexivity.
Qed.

Lemma list_sum_pos_length (l : list nat) : 1 <= list_sum l -> 1 <= length l.
Proof.
  destruct l; simpl; lia.
Qed.

Lemma lweights_values_inv (coef X : mat xreal) :
  lweights_values coef X = true ->
  exists L, mix_lweights coef X = Ok L /\
    forall c k, c < m_rows L -> k < m_cols L ->
      is_logp (m_at L c k) = true.
Proof.
  unfold lweights_values. destruct (mix_lweights coef X) as [L | e];
    [| discriminate].
  intros H. exists L. split; [reflexivity |]. intros c k Hc Hk.
  rewrite all_lt_spec in H. specialize (H c Hc).
  rewrite all_lt_spec in H. now apply H.
Qed.

(** the log-weights [viterbix] computes, when they are log-probabilities *)
Lemma lweights_ok transition emission init obs numberOfStates coef X :
  viterbix_wf transition emission init obs numberOfStates coef X = true ->
  lweights_values coef X = true ->
  exists L, mix_lweights coef X = Ok L /\
    m_rows L = length numberOfStates /\
    (forall c k, c < m_rows L -> k < c_slices obs ->
       is_logp (m_at L c k) = true) /\
    (forall c k, k < c_slices obs ->
       m_at L c k = xlog (mix_weight coef X c k)).
Proof.
  unfold viterbix_wf. rewrite andb_true_iff. intros [Hs Hm] Hv.
  destruct (mixture_shape_inv _ _ _ _ Hm) as [M1 [M2 M3]].
  destruct (mix_lweights_spec coef X M1) as [L [EL [L1 [L2 HL]]]].
  destruct (lweights_values_inv _ _ Hv) as [L' [EL' HL']].
  assert (L' = L) by congruence. subst L'.
  exists L. split; [exact EL |]. split; [congruence |]. split.
  - intros c k Hc Hk. apply HL'; [assumption | lia].
  - intros c k Hk. apply HL. lia.
Qed.

(** in the range of doubles, real covariates give real log-weights *)
Lemma in_range_lweights_values (coef X : mat xreal) :
  m_cols X = m_rows coef ->
  mixture_values coef X = true ->
  1 <= m_cols coef ->
  softmax_in_range coef X ->
  lweights_values coef X = true.
Proof.
  intros Hd Hv Hcl Hr. unfold lweights_values.
  destruct (mix_lweights_spec coef X Hd) as [L [EL [L1 [L2 HL]]]].
  rewrite EL. apply all_lt_spec. intros c Hc. apply all_lt_spec.
  intros k Hk. rewrite HL by lia.
  rewrite (@lweight_fin coef X Hd Hv Hcl Hr c k) by lia. reflexivity.
Qed.

Lemma prefix_score_ext transition emission init obs numberOfStates lweights
    (k : nat) (pf pg : nat -> nat) (t : nat) :
  (forall u, u <= t -> pf u = pg u) ->
  prefix_score transition emission init obs numberOfStates lweights k pf t
    = prefix_score transition emission init obs numberOfStates lweights k pg t.
Proof.
  induction t as [| t IH]; intros H; cbn [prefix_score].
  - now rewrite (H 0) by lia.
  - rewrite IH by (intros; apply H; lia).
    now rewrite (H t), (H (S t)) by lia.
Qed.

(** ** What a run of [viterbix] returns *)

Lemma viterbix_run transition emission init obs numberOfStates coef X :
  viterbix_wf transition emission init obs numberOfStates coef X = true ->
  lweights_values coef X = true ->
  exists L q logp,
    mix_lweights coef X = Ok L /\
    m_rows L = length numberOfStates /\
    (forall c k, c < m_rows L -> k < c_slices obs ->
       is_logp (m_at L c k) = true) /\
    (forall c k, k < c_slices obs ->
       m_at L c k = xlog (mix_weight coef X c k)) /\
    viterbix transition emission init obs numberOfStates coef X
      = Ok (q, logp) /\
    forall k, k < c_slices obs ->
      nth k logp NaN
        = maxval (last_col transition emission init obs numberOfStates L k) /\
      (forall t, t < c_cols obs ->
         m_at q k t
           = path_at transition emission init obs numberOfStates L k t) /\
      exists delta phi,
        viterbix_tables transition emission init obs numberOfStates L k
          = Ok (delta, phi) /\
        forall j t, j < c_rows emission -> t < c_cols obs ->
          m_at delta j t
            = delta_col transition emission init obs numberOfStates L k t j /\
          m_at phi j t
            = phi_col transition emission init obs numberOfStates L k t j.
Proof.
  intros Hwf Hmv.
  destruct (lweights_ok _ _ _ _ _ _ _ Hwf Hmv) as [L [EL [L1 [Lfin HL]]]].
  destruct (viterbix_spec _ _ _ _ _ _ _ Hwf) as [L' [q [logp [EL' [E [_ [_ V]]]]]]].
  assert (L' = L) by congruence. subst L'.
  exists L, q, logp. repeat (split; [assumption |]).
  intros k Hk. destruct (V k Hk) as [V1 V2].
  split; [exact V1 |]. split; [exact V2 |].
  unfold viterbix_wf in Hwf. apply andb_true_iff in Hwf. destruct Hwf as [Hs Hm].
  destruct (viterbi_shape_inv _ _ _ _ _ Hs)
    as [Htr [Htc [Hinit [Hch [Hsum [HS [HT Hcodes]]]]]]].
  destruct (mixture_shape_inv _ _ _ _ Hm) as [M1 [M2 M3]].
  destruct (mix_lweights_spec coef X M1) as [L' [EL'' [_ [L2 _]]]].
  assert (L' = L) by congruence. subst L'.
  destruct (@viterbix_tables_spec transition emission init obs
              numberOfStates L Htr Htc Hinit Hch Hsum HS HT Hcodes L1 k)
    as [d [p [Et [_ [_ Vt]]]]]; try lia.
  exists d, p. split; [exact Et | exact Vt].
Qed.

(** ** The covariates of the examples stay in the range of doubles *)

Ltac small_index k := repeat (destruct k as [| k]; [| try (exfalso; lia)]).

Ltac fixture_in_range :=
  apply bounded_predictors_in_range;
  [ simpl; lia
  | apply INR_le_pow2; simpl; lia
  | let k := fresh "k" in
    let c := fresh "c" in
    let Hk := fresh "Hk" in
    let Hc := fresh "Hc" in
    intros k c Hk Hc; simpl in Hk, Hc;
    small_index k; small_index c;
    simpl;
    repeat match goal with
           | |- context [Rabs ?x] =>
               unfold Rabs at 1; destruct (Rcase_abs x)
           end;
    lra ].

Lemma ex_in_range : softmax_in_range ex_coef ex_X.
Proof.
  fixture_in_range.
Qed.

Lemma ex2_in_range : softmax_in_range ex_coef2 ex_X.
Proof.
  fixture_in_range.
Qed.

Lemma ex_b_in_range : softmax_in_range ex_coef_b ex_X_b.
Proof.
  fixture_in_range.
Qed.

Lemma ex_lweights_values : lweights_values ex_coef ex_X = true.
Proof.
  apply in_range_lweights_values;
    [reflexivity | reflexivity | simpl; lia | exact ex_in_range].
Qed.

Lemma ln_le_0 (x : R) : (0 < x <= 1)%R -> (ln x <= 0)%R.
Proof.
  intros [H0 [H1 | ->]].
  - left. rewrite <- ln_1. now apply ln_increasing.
  - right. apply ln_1.
Qed.

Lemma Rleb_true (a b : R) : (a <= b)%R -> Rleb a b = true.
Proof.
  intros H. unfold Rleb. destruct (Rle_dec a b); [reflexivity | contradiction].
Qed.

(** ** The parameters of the examples are log-probabilities *)

Ltac fixture_logprob :=
  simpl; unfold lg, is_logprob; try reflexivity;
  apply Rleb_true; first [lra | apply ln_le_0; lra].

Ltac fixture_model_values :=
  unfold model_values; apply all_lt_spec;
  let i := fresh "i" in
  let Hi := fresh "Hi" in
  intros i Hi; simpl in Hi; rewrite !andb_true_iff; repeat split;
  [ small_index i; fixture_logprob
  | apply all_lt_spec;
    let j := fresh "j" in
    let Hj := fresh "Hj" in
    intros j Hj; simpl in Hj; small_index i; small_index j; fixture_logprob
  | apply all_lt_spec;
    let o := fresh "o" in
    let Ho := fresh "Ho" in
    intros o Ho; apply all_lt_spec;
    let r := fresh "r" in
    let Hr := fresh "Hr" in
    intros r Hr; simpl in Ho, Hr;
    small_index i; small_index o; small_index r; fixture_logprob ].

Lemma ex_model_values :
  model_values ex_transition ex_emission ex_init = true.
Proof.
  fixture_model_values.
Qed.

Lemma tie_model_values :
  model_values tie_transition tie_emission tie_init = true.
Proof.
  fixture_model_values.
Qed.

Lemma inf_model_values :
  model_values inf_transition ex_emission inf_init = true.
Proof.
  fixture_model_values.
Qed.

Lemma ex_values :
  viterbix_values ex_transition ex_emission ex_init ex_coef ex_X = true.
Proof.
  unfold viterbix_values.
  now rewrite ex_lweights_values, ex_model_values.
Qed.

Lemma tie_values :
  viterbix_values tie_transition tie_emission tie_init ex_coef ex_X = true.
Proof.
  unfold viterbix_values.
  now rewrite ex_lweights_values, tie_model_values.
Qed.

(** C2.  On well-formed input whose parameters are log-probabilities and
    whose computed mixture log-weights hold no NaN and no [+inf], the path
    [viterbix] returns for sequence [k] is a valid state sequence whose
    joint log-probability (cluster-weighted initial term, transitions along
    the path, emissions of every channel) is [logp(k)], and no state
    sequence of length [T] has a larger joint log-probability. *)
Theorem viterbix_path_optimal transition emission init obs numberOfStates
    coef X :
  viterbix_wf transition emission init obs numberOfStates coef X = true ->
  viterbix_values transition emission init coef X = true ->
  exists lweights q logp,
    mix_lweights coef X = Ok lweights /\
    viterbix transition emission init obs numberOfStates coef X
      = Ok (q, logp) /\
    forall k, k < c_slices obs ->
      let joint :=
        joint_logprob transition emission init obs numberOfStates lweights k in
      let path := map (m_at q k) (seq 0 (c_cols obs)) in
      Forall (fun s => s < c_rows emission) path /\
      joint path = nth k logp NaN /\
      forall p, length p = c_cols obs ->
        Forall (fun s => s < c_rows emission) p ->
        xle (joint p) (nth k logp NaN).
Proof.
  intros Hwf Hval. unfold viterbix_values in Hval.
  apply andb_true_iff in Hval. destruct Hval as [Hvv Hmv].
  destruct (viterbix_run _ _ _ _ _ _ _ Hwf Hmv)
    as [L [q [logp [EL [L1 [Lfin [_ [E V]]]]]]]].
  exists L, q, logp. split; [exact EL |]. split; [exact E |].
  intros k Hk joint path. destruct (V k Hk) as [V1 [V2 _]].
  assert (Hs : viterbi_shape transition emission init obs numberOfStates = true).
  { unfold viterbix_wf in Hwf. now apply andb_true_iff in Hwf. }
  destruct (viterbi_shape_inv _ _ _ _ _ Hs) as [_ [_ [_ [_ [_ [HS [HT _]]]]]]].
  pose proof (@lcol_spec transition emission init obs numberOfStates L
                Hs Hvv L1 Lfin k Hk) as [C1 [C2 [C3 _]]].
  assert (Hlen : length path = c_cols obs)
    by (unfold path; now rewrite length_map, length_seq).
  assert (Hnth : forall t, t < c_cols obs ->
            nth t path 0
              = path_at transition emission init obs numberOfStates L k t).
  { intros t Ht. unfold path. rewrite nth_map_seq by assumption.
    now apply V2. }
  split; [| split].
  - apply Forall_forall. intros s Hin. unfold path in Hin.
    apply in_map_iff in Hin. destruct Hin as [t [<- Ht]]. apply in_seq in Ht.
    rewrite V2 by lia. now apply pa_lt.
  - unfold joint. rewrite joint_logprob_score by lia. rewrite Hlen.
    rewrite (@prefix_score_ext _ _ _ _ _ _ k _
               (path_at transition emission init obs numberOfStates L k))
      by (intros u Hu; apply Hnth; lia).
    rewrite (@score_pa transition emission init obs numberOfStates L L1 k)
      by lia.
    rewrite V1, C2. f_equal.
    apply (@pa_last transition emission init obs numberOfStates L k).
  - intros p Hp Hall. unfold joint.
    rewrite joint_logprob_score by lia. rewrite Hp, V1.
    set (pf := fun t => nth t p 0).
    assert (Hpf : forall u, pf u < c_rows emission).
    { intros u. unfold pf. destruct (Nat.lt_ge_cases u (length p)) as [Hu | Hu].
      - rewrite Forall_forall in Hall. now apply Hall, nth_In.
      - rewrite nth_overflow by assumption. lia. }
    apply xle_trans
      with (delta_col transition emission init obs numberOfStates L k
              (c_cols obs - 1) (pf (c_cols obs - 1))).
    + apply (@score_le_dcol transition emission init obs numberOfStates L
               Hs Hvv L1 Lfin k pf); auto; lia.
    + now apply C3.
Qed.

Lemma viterbix_path_optimal_witness :
  viterbix_wf ex_transition ex_emission ex_init ex_obs_viterbi ex_clusters
    ex_coef ex_X = true /\
  viterbix_values ex_transition ex_emission ex_init ex_coef ex_X = true /\
  exists lweights q logp,
    mix_lweights ex_coef ex_X = Ok lweights /\
    viterbix ex_transition ex_emission ex_init ex_obs_viterbi ex_clusters
      ex_coef ex_X = Ok (q, logp) /\
    forall k, k < c_slices ex_obs_viterbi ->
      let joint :=
        joint_logprob ex_transition ex_emission ex_init ex_obs_viterbi
          ex_clusters lweights k in
      let path := map (m_at q k) (seq 0 (c_cols ex_obs_viterbi)) in
      Forall (fun s => s < c_rows ex_emission) path /\
      joint path = nth k logp NaN /\
      forall p, length p = c_cols ex_obs_viterbi ->
        Forall (fun s => s < c_rows ex_emission) p ->
        xle (joint p) (nth k logp NaN).
Proof.
  split; [reflexivity |]. split; [exact ex_values |].
  apply (@viterbix_path_optimal ex_transition ex_emission ex_init
           ex_obs_viterbi ex_clusters ex_coef ex_X);
    [reflexivity | exact ex_values].
Defined.

(** C3.  On well-formed input whose parameters are log-probabilities and
    whose computed mixture log-weights hold no NaN and no [+inf]: for
    [1 <= t < T] and every state [j], the backpointer [phi(j,t)] attains
    the maximum of [delta(i,t-1) + transition(i,j)] over the predecessors
    [i], and every predecessor that attains it has an index at least
    [phi(j,t)]: ties go to the lowest index. *)
Theorem backpointer_first_maximum transition emission init obs numberOfStates
    coef X :
  viterbix_wf transition emission init obs numberOfStates coef X = true ->
  viterbix_values transition emission init coef X = true ->
  exists lweights, mix_lweights coef X = Ok lweights /\
    forall k, k < c_slices obs ->
      exists delta phi,
        viterbix_tables transition emission init obs numberOfStates
          lweights k = Ok (delta, phi) /\
        forall t j, 1 <= t < c_cols obs -> j < c_rows emission ->
          let c := fun i => xadd (m_at delta i (t - 1)) (m_at transition i j) in
          m_at phi j t < c_rows emission /\
          (forall i, i < c_rows emission -> xle (c i) (c (m_at phi j t))) /\
          (forall i, i < c_rows emission ->
             (forall i', i' < c_rows emission -> xle (c i') (c i)) ->
             m_at phi j t <= i).
Proof.
  intros Hwf Hval. unfold viterbix_values in Hval.
  apply andb_true_iff in Hval. destruct Hval as [Hvv Hmv].
  destruct (viterbix_run _ _ _ _ _ _ _ Hwf Hmv)
    as [L [q [logp [EL [L1 [Lfin [_ [E V]]]]]]]].
  exists L. split; [exact EL |].
  intros k Hk. destruct (V k Hk) as [_ [_ [delta [phi [Et Vt]]]]].
  exists delta, phi. split; [exact Et |].
  intros t j Ht Hj c.
  assert (Hs : viterbi_shape transition emission init obs numberOfStates = true).
  { unfold viterbix_wf in Hwf. now apply andb_true_iff in Hwf. }
  destruct (@pcol_spec transition emission init obs numberOfStates L
              Hs Hvv L1 Lfin k t j Hk Ht Hj) as [P1 [P2 P3]].
  destruct (Vt j t Hj) as [_ Ep]; [lia |]. rewrite Ep.
  assert (Ec : forall i, i < c_rows emission ->
            c i = xadd (delta_col transition emission init obs numberOfStates
                          L k (t - 1) i) (m_at transition i j)).
  { intros i Hi. unfold c. destruct (Vt i (t - 1) Hi) as [Ed _]; [lia |].
    now rewrite Ed. }
  split; [exact P1 |]. split.
  - intros i Hi. rewrite (Ec i Hi), (Ec _ P1). now apply P2.
  - intros i Hi Hmax.
    destruct (Nat.le_gt_cases
                (phi_col transition emission init obs numberOfStates L k t j) i)
      as [Hle | Hgt]; [exact Hle | exfalso].
    specialize (P3 i Hgt). specialize (Hmax _ P1).
    rewrite (Ec i Hi), (Ec _ P1) in Hmax.
    exact (xgt_not_le _ _ P3 Hmax).
Qed.

Lemma backpointer_first_maximum_witness :
  viterbix_wf tie_transition tie_emission tie_init ex_obs_viterbi ex_clusters
    ex_coef ex_X = true /\
  viterbix_values tie_transition tie_emission tie_init ex_coef ex_X = true /\
  exists lweights delta phi,
    mix_lweights ex_coef ex_X = Ok lweights /\
    viterbix_tables tie_transition tie_emission tie_init ex_obs_viterbi
      ex_clusters lweights 0 = Ok (delta, phi) /\
    forall j, j < 2 ->
      xadd (m_at delta 0 0) (m_at tie_transition 0 j)
        = xadd (m_at delta 1 0) (m_at tie_transition 1 j) /\
      m_at phi j 1 = 0.
Proof.
  assert (Hwf : viterbix_wf tie_transition tie_emission tie_init
                  ex_obs_viterbi ex_clusters ex_coef ex_X = true)
    by reflexivity.
  split; [exact Hwf |]. split; [exact tie_values |].
  destruct (@backpointer_first_maximum tie_transition tie_emission tie_init
              ex_obs_viterbi ex_clusters ex_coef ex_X Hwf tie_values)
    as [L [EL H]].
  destruct (H 0 (Nat.lt_0_succ 0)) as [delta [phi [Et Hc]]].
  exists L, delta, phi. split; [exact EL |]. split; [exact Et |].
  destruct (viterbix_run _ _ _ _ _ _ _ Hwf ex_lweights_values)
    as [L' [q [logp [EL' [_ [_ [_ [_ V]]]]]]]].
  assert (EqL : L' = L) by congruence. subst L'.
  destruct (V 0 (Nat.lt_0_succ 0)) as [_ [_ [d [p [Et' Vt]]]]].
  assert (Eqd : d = delta) by congruence. subst d.
  assert (Tie : forall j,
            xadd (m_at delta 0 0) (m_at tie_transition 0 j)
              = xadd (m_at delta 1 0) (m_at tie_transition 1 j)).
  { intros j.
    destruct (Vt 0 0) as [E0 _]; [simpl; lia | simpl; lia |].
    destruct (Vt 1 0) as [E1 _]; [simpl; lia | simpl; lia |].
    rewrite E0, E1. destruct j as [| [| j]]; reflexivity. }
  intros j Hj. split; [apply Tie |].
  destruct (Hc 1 j) as [P1 [P2 P3]]; [simpl; lia | simpl; lia |].
  cbv zeta in P1, P2, P3. cbn [Nat.sub] in P2, P3.
  assert (Hle : m_at phi j 1 <= 0); [| lia].
  apply P3; [simpl; lia |].
  intros i' Hi'.
  assert (Hp : m_at phi j 1 = 0 \/ m_at phi j 1 = 1) by (simpl in P1; lia).
  pose proof (P2 i' Hi') as Hx.
  destruct Hp as [Ep | Ep]; rewrite Ep in Hx; [exact Hx |].
  now rewrite (Tie j).
Defined.

Lemma mixture_weights_sum_to_one_witness :
  m_cols ex_X = m_rows ex_coef2 /\
  mixture_values ex_coef2 ex_X = true /\
  1 <= m_cols ex_coef2 /\
  softmax_in_range ex_coef2 ex_X /\
  exists lweights, mix_lweights ex_coef2 ex_X = Ok lweights /\
    mat_dims lweights = (m_cols ex_coef2, m_rows ex_X) /\
    forall k, k < m_rows ex_X ->
      (forall c, c < m_cols ex_coef2 ->
         m_at lweights c k = Fin (ln (softmax ex_coef2 ex_X c k))) /\
      Rsum (map (fun c => softmax ex_coef2 ex_X c k)
                (seq 0 (m_cols ex_coef2))) = 1%R /\
      xsum (map (fun c => xexp (m_at lweights c k))
                (seq 0 (m_cols ex_coef2))) = Fin 1.
Proof.
  split; [reflexivity |]. split; [reflexivity |].
  split; [simpl; lia |]. split; [exact ex2_in_range |].
  apply (@mixture_weights_sum_to_one ex_coef2 ex_X);
    [reflexivity | reflexivity | simpl; lia | exact ex2_in_range].
Defined.

(** C5.  On well-formed input whose parameters are log-probabilities and
    whose computed mixture log-weights hold no NaN and no [+inf], for every
    sequence [k]: [q(k,T-1)] is the first state that attains the maximum
    of the last column of [delta], [logp(k)] is that maximum, and
    [q(k,t) = phi(q(k,t+1), t+1)] for [t = T-2, ..., 0]. *)
Theorem viterbix_termination_backtracking transition emission init obs
    numberOfStates coef X :
  viterbix_wf transition emission init obs numberOfStates coef X = true ->
  viterbix_values transition emission init coef X = true ->
  exists lweights q logp,
    mix_lweights coef X = Ok lweights /\
    viterbix transition emission init obs numberOfStates coef X
      = Ok (q, logp) /\
    forall k, k < c_slices obs ->
      exists delta phi,
        viterbix_tables transition emission init obs numberOfStates
          lweights k = Ok (delta, phi) /\
        let final := fun j => m_at delta j (c_cols obs - 1) in
        let last := m_at q k (c_cols obs - 1) in
        last < c_rows emission /\
        (forall j, j < c_rows emission -> xle (final j) (final last)) /\
        (forall j, j < c_rows emission ->
           (forall j', j' < c_rows emission -> xle (final j') (final j)) ->
           last <= j) /\
        nth k logp NaN = final last /\
        forall t, t + 1 < c_cols obs ->
          m_at q k t = m_at phi (m_at q k (t + 1)) (t + 1).
Proof.
  intros Hwf Hval. unfold viterbix_values in Hval.
  apply andb_true_iff in Hval. destruct Hval as [Hvv Hmv].
  destruct (viterbix_run _ _ _ _ _ _ _ Hwf Hmv)
    as [L [q [logp [EL [L1 [Lfin [_ [E V]]]]]]]].
  exists L, q, logp. split; [exact EL |]. split; [exact E |].
  intros k Hk. destruct (V k Hk) as [V1 [V2 [delta [phi [Et Vt]]]]].
  exists delta, phi. split; [exact Et |]. intros final last.
  assert (Hs : viterbi_shape transition emission init obs numberOfStates = true).
  { unfold viterbix_wf in Hwf. now apply andb_true_iff in Hwf. }
  destruct (viterbi_shape_inv _ _ _ _ _ Hs) as [_ [_ [_ [_ [_ [HS [HT _]]]]]]].
  destruct (@lcol_spec transition emission init obs numberOfStates L
              Hs Hvv L1 Lfin k Hk) as [C1 [C2 [C3 C4]]].
  assert (El : last = argmax (last_col transition emission init obs
                                numberOfStates L k)).
  { unfold last. rewrite V2 by lia.
    apply (@pa_last transition emission init obs numberOfStates L k). }
  assert (Ef : forall j, j < c_rows emission ->
            final j = delta_col transition emission init obs numberOfStates
                        L k (c_cols obs - 1) j).
  { intros j Hj. unfold final. apply Vt; [assumption | lia]. }
  rewrite El. split; [exact C1 |]. split; [| split; [| split]].
  - intros j Hj. rewrite (Ef j Hj), (Ef _ C1), <- C2. now apply C3.
  - intros j Hj Hmax.
    destruct (Nat.le_gt_cases
                (argmax (last_col transition emission init obs
                           numberOfStates L k)) j)
      as [Hle | Hgt]; [exact Hle | exfalso].
    specialize (C4 j Hgt). specialize (Hmax _ C1).
    rewrite (Ef j Hj), (Ef _ C1), <- C2 in Hmax.
    exact (xgt_not_le _ _ C4 Hmax).
  - rewrite V1, (Ef _ C1). exact C2.
  - intros t Ht. rewrite !V2 by lia.
    rewrite (@pa_step transition emission init obs numberOfStates L L1 k t)
      by lia.
    symmetry. apply Vt; [| lia].
    apply (@pa_lt transition emission init obs numberOfStates L Hs L1).
Qed.

Lemma viterbix_termination_backtracking_witness :
  viterbix_wf ex_transition ex_emission ex_init ex_obs_viterbi ex_clusters
    ex_coef ex_X = true /\
  viterbix_values ex_transition ex_emission ex_init ex_coef ex_X = true /\
  exists lweights q logp,
    mix_lweights ex_coef ex_X = Ok lweights /\
    viterbix ex_transition ex_emission ex_init ex_obs_viterbi ex_clusters
      ex_coef ex_X = Ok (q, logp) /\
    forall k, k < c_slices ex_obs_viterbi ->
      exists delta phi,
        viterbix_tables ex_transition ex_emission ex_init ex_obs_viterbi
          ex_clusters lweights k = Ok (delta, phi) /\
        let final := fun j => m_at delta j (c_cols ex_obs_viterbi - 1) in
        let last := m_at q k (c_cols ex_obs_viterbi - 1) in
        last < c_rows ex_emission /\
        (forall j, j < c_rows ex_emission -> xle (final j) (final last)) /\
        (forall j, j < c_rows ex_emission ->
           (forall j', j' < c_rows ex_emission -> xle (final j') (final j)) ->
           last <= j) /\
        nth k logp NaN = final last /\
        forall t, t + 1 < c_cols ex_obs_viterbi ->
          m_at q k t = m_at phi (m_at q k (t + 1)) (t + 1).
Proof.
  split; [reflexivity |]. split; [exact ex_values |].
  apply (@viterbix_termination_backtracking ex_transition ex_emission ex_init
           ex_obs_viterbi ex_clusters ex_coef ex_X);
    [reflexivity | exact ex_values].
Defined.

(** ** Each sequence is processed on its own *)

Lemma alpha_col_ext lse transition emission init (obs1 obs2 : cube Z)
    (k t : nat) :
  c_slices obs1 = c_slices obs2 ->
  (forall u r, u <= t -> r < c_slices obs1 ->
     c_at obs1 k u r = c_at obs2 k u r) ->
  forall i,
    alpha_col lse transition emission init obs1 k t i
      = alpha_col lse transition emission init obs2 k t i.
Proof.
  intros Hc. induction t as [| t IH]; intros Hobs i.
  - cbn [alpha_col]. f_equal. f_equal. unfold emissions_at. rewrite <- Hc.
    apply map_ext_in. intros r Hr. apply in_seq in Hr.
    rewrite Hobs by lia. reflexivity.
  - cbn [alpha_col]. f_equal.
    + f_equal. f_equal. unfold forward_terms. apply map_ext.
      intros j. rewrite IH; [reflexivity |]. intros; apply Hobs; lia.
    + f_equal. unfold emissions_at. rewrite <- Hc.
      apply map_ext_in. intros r Hr. apply in_seq in Hr.
      rewrite Hobs by lia. reflexivity.
Qed.

Lemma delta_col_S transition emission init obs numberOfStates lweights
    (k t j : nat) :
  delta_col transition emission init obs numberOfStates lweights k (S t) j
    = xadd
        (xadd
           (delta_col transition emission init obs numberOfStates lweights k t
              (phi_col transition emission init obs numberOfStates lweights
                 k (S t) j))
           (m_at transition
              (phi_col transition emission init obs numberOfStates lweights
                 k (S t) j) j))
        (xsum (emissions_v emission obs j (S t) k)).
Proof.
  reflexivity.
Qed.

Section ViterbiExt.
Variable transition : mat xreal.
Variable emission : cube xreal.
Variable init : list xreal.
Variable numberOfStates : list nat.
Variables obs1 obs2 : cube nat.
Variables L1 L2 : mat xreal.
Variable k : nat.

Hypothesis Hcols : c_cols obs1 = c_cols obs2.
Hypothesis Hobs : forall r t,
  r < c_slices emission -> t < c_cols obs1 ->
  c_at obs1 r t k = c_at obs2 r t k.
Hypothesis Hw : forall j,
  weighted_init init numberOfStates L1 k j
    = weighted_init init numberOfStates L2 k j.

Let d1 := delta_col transition emission init obs1 numberOfStates L1 k.
Let d2 := delta_col transition emission init obs2 numberOfStates L2 k.

Lemma emissions_v_ext (j t : nat) :
  t < c_cols obs1 ->
  emissions_v emission obs1 j t k = emissions_v emission obs2 j t k.
Proof.
  intros Ht. unfold emissions_v. apply map_ext_in.
  intros r Hr. apply in_seq in Hr. rewrite Hobs by lia. reflexivity.
Qed.

Lemma phi_col_ext (t j : nat) :
  (forall u, u < t -> forall i, d1 u i = d2 u i) ->
  phi_col transition emission init obs1 numberOfStates L1 k t j
    = phi_col transition emission init obs2 numberOfStates L2 k t j.
Proof.
  intros Hd. destruct t as [| t]; cbn [phi_col]; [reflexivity |].
  f_equal. unfold viterbi_terms. apply map_ext. intros i.
  f_equal. apply (Hd t). lia.
Qed.

Lemma delta_col_ext (t : nat) :
  t < c_cols obs1 -> forall j, d1 t j = d2 t j.
Proof.
  induction t as [t IH] using lt_wf_ind. intros Ht j.
  destruct t as [| t]; unfold d1, d2.
  - cbn [delta_col]. now rewrite Hw, emissions_v_ext.
  - rewrite !delta_col_S. rewrite emissions_v_ext by assumption.
    rewrite phi_col_ext by (intros u Hu i; apply IH; lia).
    fold (d1 t) (d2 t). rewrite IH by lia. reflexivity.
Qed.

Lemma last_col_ext :
  1 <= c_cols obs1 ->
  last_col transition emission init obs1 numberOfStates L1 k
    = last_col transition emission init obs2 numberOfStates L2 k.
Proof.
  intros HT. unfold last_col. rewrite <- Hcols. apply map_ext.
  intros j. apply delta_col_ext. lia.
Qed.

Lemma back_ext (n : nat) :
  1 <= c_cols obs1 ->
  back transition emission init obs1 numberOfStates L1 k n
    = back transition emission init obs2 numberOfStates L2 k n.
Proof.
  intros HT. induction n as [| n IH]; cbn [back].
  - now rewrite last_col_ext.
  - rewrite IH, <- Hcols. apply phi_col_ext.
    intros u Hu i. apply delta_col_ext. lia.
Qed.

Lemma path_at_ext (t : nat) :
  1 <= c_cols obs1 ->
  path_at transition emission init obs1 numberOfStates L1 k t
    = path_at transition emission init obs2 numberOfStates L2 k t.
Proof.
  intros HT. unfold path_at. rewrite <- Hcols. now apply back_ext.
Qed.
End ViterbiExt.

Lemma lin_pred_ext coef (X1 X2 : mat xreal) (k c : nat) :
  m_cols X1 = m_cols X2 ->
  (forall p, p < m_cols X1 -> m_at X1 k p = m_at X2 k p) ->
  lin_pred coef X1 k c = lin_pred coef X2 k c.
Proof.
  intros Hc HX. unfold lin_pred. rewrite <- Hc. f_equal.
  apply map_ext_in. intros p Hp. apply in_seq in Hp.
  rewrite HX by lia. reflexivity.
Qed.

Lemma mix_weight_ext coef (X1 X2 : mat xreal) (k c : nat) :
  m_cols X1 = m_cols X2 ->
  (forall p, p < m_cols X1 -> m_at X1 k p = m_at X2 k p) ->
  mix_weight coef X1 c k = mix_weight coef X2 c k.
Proof.
  intros Hc HX. unfold mix_weight.
  rewrite (lin_pred_ext coef X1 X2 k c Hc HX). f_equal. f_equal.
  apply map_ext. intros c'. now rewrite (lin_pred_ext coef X1 X2 k c' Hc HX).
Qed.

Lemma weighted_init_ext init numberOfStates (L1 L2 : mat xreal) (k : nat) :
  m_rows L1 = m_rows L2 ->
  (forall c, m_at L1 c k = m_at L2 c k) ->
  forall j, weighted_init init numberOfStates L1 k j
            = weighted_init init numberOfStates L2 k j.
Proof.
  intros Hr HL j. unfold weighted_init, cluster_weights.
  rewrite <- Hr. do 3 f_equal. apply map_ext. intros c. apply HL.
Qed.

(** C6.  The slice [alpha(:,:,k)] that [internalForward] returns, and the
    pair [(q(k,:), logp(k))] that [viterbix] returns, are the same for two
    batches that share the model, the observations of sequence [k] and (for
    [viterbix]) the coefficients and row [k] of the design matrix, whatever
    the other sequences hold. *)
Theorem sequences_independent (lse : list xreal -> res xreal)
    (transition : mat xreal) (emission : cube xreal) (init : list xreal) :
  lse_total lse ->
  (forall (obs1 obs2 : cube Z) (alpha1 alpha2 : cube xreal) (k : nat),
     forward_wf transition emission init obs1 alpha1 = true ->
     forward_wf transition emission init obs2 alpha2 = true ->
     c_cols obs1 = c_cols obs2 -> k < c_rows obs1 -> k < c_rows obs2 ->
     (forall t r, t < c_cols obs1 -> r < c_slices obs1 ->
        c_at obs1 k t r = c_at obs2 k t r) ->
     exists a1 a2,
       internalForward lse transition emission init obs1 alpha1 = Ok a1 /\
       internalForward lse transition emission init obs2 alpha2 = Ok a2 /\
       forall i t, i < c_rows emission -> t < c_cols obs1 ->
         c_at a1 i t k = c_at a2 i t k) /\
  (forall (numberOfStates : list nat) (coef : mat xreal)
          (obs1 obs2 : cube nat) (X1 X2 : mat xreal) (k : nat),
     viterbix_wf transition emission init obs1 numberOfStates coef X1 = true ->
     viterbix_wf transition emission init obs2 numberOfStates coef X2 = true ->
     c_cols obs1 = c_cols obs2 -> k < c_slices obs1 -> k < c_slices obs2 ->
     (forall r t, r < c_rows obs1 -> t < c_cols obs1 ->
        c_at obs1 r t k = c_at obs2 r t k) ->
     (forall p, p < m_cols X1 -> m_at X1 k p = m_at X2 k p) ->
     exists q1 logp1 q2 logp2,
       viterbix transition emission init obs1 numberOfStates coef X1
         = Ok (q1, logp1) /\
       viterbix transition emission init obs2 numberOfStates coef X2
         = Ok (q2, logp2) /\
       nth k logp1 NaN = nth k logp2 NaN /\
       forall t, t < c_cols obs1 -> m_at q1 k t = m_at q2 k t).
Proof.
  intros Hlse. split.
  - intros obs1 obs2 alpha1 alpha2 k W1 W2 Hc Hk1 Hk2 Hobs.
    destruct (forward_wf_inv _ _ _ _ _ W1)
      as [Htr [Htc [Hinit [Hch1 [Hd1 [HT1 Hcodes1]]]]]].
    destruct (forward_wf_inv _ _ _ _ _ W2)
      as [_ [_ [_ [Hch2 [Hd2 [HT2 Hcodes2]]]]]].
    destruct (@internalForward_spec lse transition emission init obs1
                Hlse Htr Htc Hinit Hch1 Hcodes1 alpha1 Hd1 HT1)
      as [a1 [E1 [_ V1]]].
    destruct (@internalForward_spec lse transition emission init obs2
                Hlse Htr Htc Hinit Hch2 Hcodes2 alpha2 Hd2 HT2)
      as [a2 [E2 [_ V2]]].
    exists a1, a2. split; [exact E1 |]. split; [exact E2 |].
    intros i t Hi Ht. rewrite V1, V2 by lia.
    apply alpha_col_ext; [congruence |].
    intros u r Hu Hr. apply Hobs; lia.
  - intros numberOfStates coef obs1 obs2 X1 X2 k W1 W2 Hc Hk1 Hk2 Hobs HX.
    destruct (viterbix_spec _ _ _ _ _ _ _ W1)
      as [L1 [q1 [logp1 [EL1 [E1 [_ [_ V1]]]]]]].
    destruct (viterbix_spec _ _ _ _ _ _ _ W2)
      as [L2 [q2 [logp2 [EL2 [E2 [_ [_ V2]]]]]]].
    exists q1, logp1, q2, logp2. split; [exact E1 |]. split; [exact E2 |].
    unfold viterbix_wf in W1, W2.
    apply andb_true_iff in W1, W2. destruct W1 as [S1 M1], W2 as [S2 M2].
    destruct (viterbi_shape_inv _ _ _ _ _ S1)
      as [_ [_ [_ [Hch [_ [_ [HT _]]]]]]].
    destruct (mixture_shape_inv _ _ _ _ M1) as [A1 [B1 C1]].
    destruct (mixture_shape_inv _ _ _ _ M2) as [A2 [B2 C2]].
    destruct (mix_lweights_spec coef X1 A1) as [L1' [EL1' [R1 [_ HL1]]]].
    destruct (mix_lweights_spec coef X2 A2) as [L2' [EL2' [R2 [_ HL2]]]].
    assert (L1' = L1) by congruence. assert (L2' = L2) by congruence.
    subst L1' L2'.
    assert (Hw : forall j, weighted_init init numberOfStates L1 k j
                         = weighted_init init numberOfStates L2 k j).
    { apply weighted_init_ext; [congruence |]. intros c.
      rewrite HL1, HL2 by lia. f_equal.
      apply mix_weight_ext; [congruence | exact HX]. }
    assert (Ho : forall r t, r < c_slices emission -> t < c_cols obs1 ->
                   c_at obs1 r t k = c_at obs2 r t k).
    { intros r t Hr Ht. apply Hobs; [lia | assumption]. }
    destruct (V1 k Hk1) as [P1 Q1]. destruct (V2 k Hk2) as [P2 Q2]. split.
    + rewrite P1, P2. f_equal. now apply last_col_ext.
    + intros t Ht. rewrite Q1, Q2 by lia. now apply path_at_ext.
Qed.

Lemma sequences_independent_witness :
  lse_total logSumExp /\
  forward_wf ex_transition ex_emission ex_init ex_obs_forward ex_alpha
    = true /\
  forward_wf ex_transition ex_emission ex_init ex_obs_forward2 ex_alpha2
    = true /\
  (exists a1 a2,
     internalForward logSumExp ex_transition ex_emission ex_init
       ex_obs_forward ex_alpha = Ok a1 /\
     internalForward logSumExp ex_transition ex_emission ex_init
       ex_obs_forward2 ex_alpha2 = Ok a2 /\
     forall i t, i < c_rows ex_emission -> t < c_cols ex_obs_forward ->
       c_at a1 i t 0 = c_at a2 i t 0) /\
  viterbix_wf ex_transition ex_emission ex_init ex_obs_viterbi ex_clusters
    ex_coef ex_X = true /\
  viterbix_wf ex_transition ex_emission ex_init ex_obs_viterbi2 ex_clusters
    ex_coef ex_X2 = true /\
  exists q1 logp1 q2 logp2,
    viterbix ex_transition ex_emission ex_init ex_obs_viterbi ex_clusters
      ex_coef ex_X = Ok (q1, logp1) /\
    viterbix ex_transition ex_emission ex_init ex_obs_viterbi2 ex_clusters
      ex_coef ex_X2 = Ok (q2, logp2) /\
    nth 0 logp1 NaN = nth 0 logp2 NaN /\
    forall t, t < c_cols ex_obs_viterbi -> m_at q1 0 t = m_at q2 0 t.
Proof.
  pose proof (@sequences_independent logSumExp ex_transition ex_emission
                ex_init logSumExp_total) as [HF HV].
  split; [exact logSumExp_total |].
  split; [reflexivity |]. split; [reflexivity |]. split.
  - apply (HF ex_obs_forward ex_obs_forward2 ex_alpha ex_alpha2 0);
      try reflexivity; simpl; lia.
  - split; [reflexivity |]. split; [reflexivity |].
    apply (HV ex_clusters ex_coef ex_obs_viterbi ex_obs_viterbi2 ex_X ex_X2 0);
      try reflexivity; simpl; lia.
Defined.

(** ** A single mixture cluster *)

Lemma single_cluster_lweight (coef X : mat xreal) (k : nat) :
  m_cols X = m_rows coef -> mixture_values coef X = true ->
  softmax_in_range coef X ->
  m_cols coef = 1 -> k < m_rows X ->
  xlog (mix_weight coef X 0 k) = Fin 0.
Proof.
  intros Hd Hv Hr Hc Hk.
  rewrite (@lweight_fin coef X Hd Hv ltac:(lia) Hr 0 k Hk ltac:(lia)).
  unfold softmax, partition.
  rewrite Hc. cbn [seq map Rsum fold_right]. f_equal.
  pose proof (exp_pos (predictor coef X k 0)) as He.
  replace (exp (predictor coef X k 0) / (exp (predictor coef X k 0) + 0))%R
    with 1%R by (field; lra).
  apply ln_1.
Qed.

Lemma single_cluster_weights (n : nat) (L : mat xreal) (k : nat) (w : xreal) :
  m_rows L = 1 -> m_at L 0 k = w ->
  cluster_weights [n] L k = repeat w n ++ [].
Proof.
  intros Hr H0. unfold cluster_weights. rewrite Hr.
  cbn [seq map expand nth]. now rewrite H0.
Qed.

(** C10, as the code has it.  With a single cluster ([numberOfStates] has
    one entry), real [coef] and [X], and as long as the linear predictor
    [X * coef] and its exponential stay in the range of doubles: the
    mixture log-weight of every sequence is 0, the first column of [delta]
    is [init] plus the emission log-probabilities, and [q] and [logp] are
    the same for any two such choices of [coef] and [X]. *)
Theorem single_cluster_weight_zero transition emission init obs (n : nat)
    (coef1 X1 coef2 X2 : mat xreal) :
  viterbix_wf transition emission init obs [n] coef1 X1 = true ->
  mixture_values coef1 X1 = true ->
  softmax_in_range coef1 X1 ->
  viterbix_wf transition emission init obs [n] coef2 X2 = true ->
  mixture_values coef2 X2 = true ->
  softmax_in_range coef2 X2 ->
  exists lweights q1 logp1 q2 logp2,
    mix_lweights coef1 X1 = Ok lweights /\
    viterbix transition emission init obs [n] coef1 X1 = Ok (q1, logp1) /\
    viterbix transition emission init obs [n] coef2 X2 = Ok (q2, logp2) /\
    forall k, k < c_slices obs ->
      m_at lweights 0 k = Fin 0 /\
      nth k logp1 NaN = nth k logp2 NaN /\
      (forall t, t < c_cols obs -> m_at q1 k t = m_at q2 k t) /\
      exists delta phi,
        viterbix_tables transition emission init obs [n] lweights k
          = Ok (delta, phi) /\
        forall j, j < c_rows emission ->
          m_at delta j 0
            = xadd (nth j init NaN) (xsum (emissions_v emission obs j 0 k)).
Proof.
  intros W1 M1 G1 W2 M2 G2.
  pose proof W1 as W1'. pose proof W2 as W2'.
  unfold viterbix_wf in W1', W2'.
  apply andb_true_iff in W1', W2'. destruct W1' as [S1 Sh1], W2' as [_ Sh2].
  destruct (viterbi_shape_inv _ _ _ _ _ S1)
    as [_ [_ [_ [_ [Hsum [_ [HT _]]]]]]].
  destruct (mixture_shape_inv _ _ _ _ Sh1) as [A1 [B1 C1]].
  destruct (mixture_shape_inv _ _ _ _ Sh2) as [A2 [B2 C2]].
  cbn [length] in B1, B2.
  assert (V1v : lweights_values coef1 X1 = true)
    by (apply in_range_lweights_values; auto; lia).
  assert (V2v : lweights_values coef2 X2 = true)
    by (apply in_range_lweights_values; auto; lia).
  destruct (viterbix_run _ _ _ _ _ _ _ W1 V1v)
    as [L1 [q1 [logp1 [EL1 [R1 [_ [HL1 [E1 V1]]]]]]]].
  destruct (viterbix_run _ _ _ _ _ _ _ W2 V2v)
    as [L2 [q2 [logp2 [EL2 [R2 [_ [HL2 [E2 V2]]]]]]]].
  exists L1, q1, logp1, q2, logp2.
  split; [exact EL1 |]. split; [exact E1 |]. split; [exact E2 |].
  intros k Hk.
  assert (Z1 : m_at L1 0 k = Fin 0).
  { rewrite HL1 by assumption. apply single_cluster_lweight; auto; lia. }
  assert (Z2 : m_at L2 0 k = Fin 0).
  { rewrite HL2 by assumption. apply single_cluster_lweight; auto; lia. }
  assert (Hw : forall j, weighted_init init [n] L1 k j
                       = weighted_init init [n] L2 k j).
  { intros j. unfold weighted_init.
    now rewrite (single_cluster_weights n L1 k R1 Z1),
                (single_cluster_weights n L2 k R2 Z2). }
  destruct (V1 k Hk) as [P1 [Q1 [delta [phi [Et Vt]]]]].
  destruct (V2 k Hk) as [P2 [Q2 _]].
  split; [exact Z1 |]. split; [| split].
  - rewrite P1, P2. f_equal.
    apply last_col_ext; auto.
  - intros t Ht. rewrite Q1, Q2 by assumption.
    apply path_at_ext; auto.
  - exists delta, phi. split; [exact Et |].
    intros j Hj. destruct (Vt j 0 Hj) as [Ed _]; [lia |]. rewrite Ed.
    cbn [delta_col]. f_equal. unfold weighted_init.
    rewrite (single_cluster_weights n L1 k R1 Z1).
    rewrite app_nil_r.
    replace (nth j (repeat (Fin 0) n) NaN) with (Fin 0);
      [apply xadd_0_r |].
    simpl in Hsum.
    assert (Hin : In (nth j (repeat (Fin 0) n) NaN) (repeat (Fin 0) n))
      by (apply nth_In; rewrite repeat_length; lia).
    apply repeat_spec in Hin. now rewrite Hin.
Qed.

Lemma single_cluster_weight_zero_witness :
  viterbix_wf ex_transition ex_emission ex_init ex_obs_viterbi [2]
    ex_coef ex_X = true /\
  mixture_values ex_coef ex_X = true /\
  softmax_in_range ex_coef ex_X /\
  viterbix_wf ex_transition ex_emission ex_init ex_obs_viterbi [2]
    ex_coef_b ex_X_b = true /\
  mixture_values ex_coef_b ex_X_b = true /\
  softmax_in_range ex_coef_b ex_X_b /\
  exists lweights q1 logp1 q2 logp2,
    mix_lweights ex_coef ex_X = Ok lweights /\
    viterbix ex_transition ex_emission ex_init ex_obs_viterbi [2]
      ex_coef ex_X = Ok (q1, logp1) /\
    viterbix ex_transition ex_emission ex_init ex_obs_viterbi [2]
      ex_coef_b ex_X_b = Ok (q2, logp2) /\
    forall k, k < c_slices ex_obs_viterbi ->
      m_at lweights 0 k = Fin 0 /\
      nth k logp1 NaN = nth k logp2 NaN /\
      (forall t, t < c_cols ex_obs_viterbi -> m_at q1 k t = m_at q2 k t) /\
      exists delta phi,
        viterbix_tables ex_transition ex_emission ex_init ex_obs_viterbi [2]
          lweights k = Ok (delta, phi) /\
        forall j, j < c_rows ex_emission ->
          m_at delta j 0
            = xadd (nth j ex_init NaN)
                   (xsum (emissions_v ex_emission ex_obs_viterbi j 0 k)).
Proof.
  split; [reflexivity |]. split; [reflexivity |].
  split; [exact ex_in_range |].
  split; [reflexivity |]. split; [reflexivity |].
  split; [exact ex_b_in_range |].
  apply (@single_cluster_weight_zero ex_transition ex_emission ex_init
           ex_obs_viterbi 2 ex_coef ex_X ex_coef_b ex_X_b);
    [reflexivity | reflexivity | exact ex_in_range
    | reflexivity | reflexivity | exact ex_b_in_range].
Defined.

(** [e^1000] is beyond the largest double *)
Lemma exp_mult_INR (x : R) (n : nat) : exp (x * INR n) = (exp x ^ n)%R.
Proof.
  induction n as [| n IH].
  - simpl. rewrite Rmult_0_r. apply exp_0.
  - rewrite S_INR, Rmult_plus_distr_l, Rmult_1_r, exp_plus, IH.
    simpl. ring.
Qed.

Lemma dbl_max_lt_pow : (dbl_max < 2 ^ 1024)%R.
Proof.
  unfold dbl_max. change 1024 with (S 1023). cbn [pow].
  pose proof (pow2_pos 1023) as Hp. pose proof (pow2_pos 52) as Hq.
  apply Rinv_0_lt_compat in Hq.
  generalize dependent (2 ^ 1023)%R. generalize dependent (/ 2 ^ 52)%R.
  intros a Ha p Hp. nra.
Qed.

Lemma exp_1000_ge_pow : (2 ^ 1080 <= exp 1000)%R.
Proof.
  assert (E : 1000%R = (/ 2 * INR 2000)%R).
  { rewrite INR_IZR_INZ. change (IZR (Z.of_nat 2000)) with 2000%R. lra. }
  rewrite E, exp_mult_INR.
  assert (H32 : (3 / 2 <= exp (/ 2))%R).
  { pose proof (exp_ineq1 (/ 2)) as H. lra. }
  apply Rle_trans with ((3 / 2) ^ 2000)%R;
    [| apply pow_incr; split; [lra | exact H32]].
  apply Rle_trans with ((3 / 2) ^ (14 * 135))%R.
  - change 1080 with (8 * 135). rewrite !pow_mult.
    apply pow_incr. split; [left; apply pow2_pos |]. simpl. lra.
  - apply Rle_pow; [lra | lia].
Qed.

Lemma exp_1000_overflows : (dbl_max < exp 1000)%R.
Proof.
  apply Rlt_le_trans with (1 := dbl_max_lt_pow).
  apply Rle_trans with (2 := exp_1000_ge_pow). apply pow2_le. lia.
Qed.

Lemma xadd_NaN_r (a : xreal) : xadd a NaN = NaN.
Proof.
  destruct a; reflexivity.
Qed.

Lemma nth_repeat_same (A : Type) (w : A) (n j : nat) :
  nth j (repeat w n) w = w.
Proof.
  revert j; induction n as [| n IH]; intros [| j]; simpl; auto.
Qed.

Lemma max_scan_all_nan (v : list xreal) (i bi : nat) :
  Forall (fun x => x = NaN) v -> max_scan v i NInf bi = (NInf, bi).
Proof.
  revert i; induction v as [| x v IH]; intros i Hall; [reflexivity |].
  inversion Hall as [| ? ? Hx Hv]; subst. cbn [max_scan xgt]. now apply IH.
Qed.

(** NaN mixture log-weights fill the table of the sequence with NaN *)
Lemma delta_col_nan transition emission init obs numberOfStates lweights
    (k : nat) :
  (forall j, weighted_init init numberOfStates lweights k j = NaN) ->
  forall t j,
    delta_col transition emission init obs numberOfStates lweights k t j
      = NaN.
Proof.
  intros Hw. induction t as [| t IH]; intros j; cbn [delta_col].
  - now rewrite Hw.
  - now rewrite IH.
Qed.

(** C10, as the claim has it, fails: with the single coefficient 1000 and
    the covariate 1 the exponential overflows, the weight is [inf / inf],
    its logarithm NaN instead of 0, and [logp] is [-inf], whereas it is a
    real number for the coefficient 0. *)
Lemma single_cluster_overflow :
  viterbix_wf ex_transition ex_emission ex_init ex_obs_viterbi [2]
    big_coef ex_X = true /\
  mixture_values big_coef ex_X = true /\
  exists lweights q logp,
    mix_lweights big_coef ex_X = Ok lweights /\
    m_at lweights 0 0 = NaN /\
    viterbix ex_transition ex_emission ex_init ex_obs_viterbi [2]
      big_coef ex_X = Ok (q, logp) /\
    nth 0 logp NaN = NInf /\
    exists q' logp',
      viterbix ex_transition ex_emission ex_init ex_obs_viterbi [2]
        ex_coef ex_X = Ok (q', logp') /\
      is_fin (nth 0 logp' NaN) = true.
Proof.
  assert (Hwf : viterbix_wf ex_transition ex_emission ex_init ex_obs_viterbi
                  [2] big_coef ex_X = true) by reflexivity.
  assert (Hmv : mixture_values big_coef ex_X = true) by reflexivity.
  split; [exact Hwf |]. split; [exact Hmv |].
  destruct (viterbix_spec _ _ _ _ _ _ _ Hwf)
    as [L [q [logp [EL [E [_ [_ V]]]]]]].
  destruct (mix_lweights_spec big_coef ex_X eq_refl)
    as [L' [EL' [L1 [_ HL]]]].
  assert (EqL : L' = L) by congruence. subst L'.
  assert (Ee : xexp (lin_pred big_coef ex_X 0 0) = PInf).
  { assert (Hp : product_in_range big_coef ex_X).
    { intros k c Hk Hc. simpl in Hk, Hc. small_index k. small_index c.
      simpl. rewrite Rabs_pos_eq by lra.
      apply Rle_trans with (2 := dbl_max_ge_pow).
      apply Rle_trans with (2 ^ 10)%R; [simpl; lra | apply pow2_le; lia]. }
    rewrite (@lin_pred_val big_coef ex_X 0 0 eq_refl Hmv Hp)
      by (simpl; lia).
    cbn [xexp]. apply xrange_overflow.
    replace (predictor big_coef ex_X 0 0) with 1000%R
      by (unfold predictor; simpl; lra).
    exact exp_1000_overflows. }
  assert (Z : m_at L 0 0 = NaN).
  { rewrite HL by (simpl; lia). unfold mix_weight.
    change (m_cols big_coef) with 1. cbn [seq map]. rewrite Ee.
    reflexivity. }
  exists L, q, logp. split; [exact EL |]. split; [exact Z |].
  split; [exact E |]. split.
  - destruct (V 0 (Nat.lt_0_succ 0)) as [V1 _]. rewrite V1.
    unfold last_col. change (c_rows ex_emission) with 2. cbn [seq map].
    rewrite !delta_col_nan; [reflexivity | |];
      intros j; unfold weighted_init;
      rewrite (single_cluster_weights 2 L 0 L1 Z), app_nil_r,
        nth_repeat_same; apply xadd_NaN_r.
  - assert (Hwf' : viterbix_wf ex_transition ex_emission ex_init
                     ex_obs_viterbi [2] ex_coef ex_X = true) by reflexivity.
    destruct (viterbix_run _ _ _ _ _ _ _ Hwf' ex_lweights_values)
      as [L2 [q' [logp' [EL2 [R2 [Lv [HL2 [E' V']]]]]]]].
    exists q', logp'. split; [exact E' |].
    destruct (V' 0 (Nat.lt_0_succ 0)) as [V1 _]. rewrite V1.
    assert (Hs : viterbi_shape ex_transition ex_emission ex_init
                   ex_obs_viterbi [2] = true) by reflexivity.
    assert (Hvv : model_values ex_transition ex_emission ex_init = true)
      by exact ex_model_values.
    destruct (@lcol_spec ex_transition ex_emission ex_init ex_obs_viterbi
                [2] L2 Hs Hvv R2 Lv 0 (Nat.lt_0_succ 0))
      as [C1 [C2 [C3 _]]].
    assert (Z2 : m_at L2 0 0 = Fin 0).
    { rewrite HL2 by (simpl; lia).
      apply single_cluster_lweight;
        [reflexivity | reflexivity | exact ex_in_range | reflexivity
        | simpl; lia]. }
    pose proof (@score_le_dcol ex_transition ex_emission ex_init
                  ex_obs_viterbi [2] L2 Hs Hvv R2 Lv 0 (fun _ => 0) 1
                  (Nat.lt_0_succ 0)) as Hsc.
    assert (Hlog : is_logp
              (maxval (last_col ex_transition ex_emission ex_init
                         ex_obs_viterbi [2] L2 0)) = true).
    { rewrite C2.
      apply (@dcol_logp ex_transition ex_emission ex_init ex_obs_viterbi
               [2] L2 Hs Hvv R2 Lv 0); [simpl; lia | simpl; lia | exact C1]. }
    assert (Hle : xle (prefix_score ex_transition ex_emission ex_init
                         ex_obs_viterbi [2] L2 0 (fun _ => 0) 1)
                      (maxval (last_col ex_transition ex_emission ex_init
                                 ex_obs_viterbi [2] L2 0))).
    { eapply xle_trans.
      - apply Hsc; [intros _; simpl; lia | simpl; lia].
      - apply (C3 0). simpl; lia. }
    assert (Hfin : exists r,
              prefix_score ex_transition ex_emission ex_init ex_obs_viterbi
                [2] L2 0 (fun _ => 0) 1 = Fin r).
    { cbn [prefix_score]. unfold weighted_init.
      rewrite (single_cluster_weights 2 L2 0 R2 Z2).
      simpl. eexists. reflexivity. }
    destruct Hfin as [r Er]. rewrite Er in Hle.
    destruct (xle_fin_l r _ Hlog Hle) as [mr Emr]. now rewrite Emr.
Qed.

(** ** The shape of [init] *)

Lemma reparma_from_length (x : list xreal) (y : list nat) (c : nat)
    (w : list xreal) :
  reparma_from x y c = Ok w -> length w = list_sum y.
Proof.
  revert c w; induction y as [| n y IH]; intros c w H; simpl in H.
  - injection H as <-. reflexivity.
  - apply bind_ok_inv in H. destruct H as [xc [_ H]].
    apply bind_ok_inv in H. destruct H as [rest [Hr H]].
    injection H as <-. rewrite length_app, repeat_length.
    simpl. now rewrite (IH _ _ Hr).
Qed.

Lemma vadd_ok_inv (u v w : list xreal) :
  vadd u v = Ok w -> length u = length v /\ length w = length u.
Proof.
  unfold vadd. destruct (Nat.eqb_spec (length u) (length v)) as [E | E];
    [| discriminate].
  intros H. injection H as <-. split; [exact E |]. now apply map2_length.
Qed.

Lemma mset_col_ok_inv (A : Type) (M M' : mat A) (j : nat) (v : list A) :
  mset_col M j v = Ok M' -> j < m_cols M /\ length v = m_rows M.
Proof.
  unfold mset_col. destruct (Nat.ltb_spec j (m_cols M)); [| discriminate].
  destruct (Nat.eqb_spec (length v) (m_rows M)); [| discriminate]. auto.
Qed.

Lemma viterbi_init_ok_inv emission init obs numberOfStates lweights
    (k : nat) (delta d' : mat xreal) :
  viterbi_init emission init obs numberOfStates lweights k delta = Ok d' ->
  length init = list_sum numberOfStates /\ length init = m_rows delta /\
  1 <= m_cols delta.
Proof.
  unfold viterbi_init. intros H.
  apply bind_ok_inv in H. destruct H as [lw [_ H]].
  apply bind_ok_inv in H. destruct H as [w [Hw H]].
  apply bind_ok_inv in H. destruct H as [d0 [Hd0 H]].
  apply bind_ok_inv in H. destruct H as [d1 [Hd1 _]].
  apply reparma_from_length in Hw.
  apply vadd_ok_inv in Hd0. destruct Hd0 as [E1 E2].
  apply mset_col_ok_inv in Hd1. destruct Hd1 as [E3 E4].
  repeat split; lia.
Qed.

(** C9, as the code has it.  [init] has one entry per state: a call of
    [viterbix] on at least one sequence returns only if the length of [init]
    is the number of rows of [emission] and the sum of [numberOfStates]; on
    well-formed input the first column of [delta] is [init] plus the
    per-state expansion of the cluster log-weights plus the emission
    log-probabilities. *)
Theorem init_has_one_entry_per_state transition emission init obs
    numberOfStates coef X :
  (forall out,
     viterbix transition emission init obs numberOfStates coef X = Ok out ->
     1 <= c_slices obs ->
     length init = c_rows emission /\
     length init = list_sum numberOfStates) /\
  (viterbix_wf transition emission init obs numberOfStates coef X = true ->
   exists lweights, mix_lweights coef X = Ok lweights /\
     forall k, k < c_slices obs ->
       exists delta phi,
         viterbix_tables transition emission init obs numberOfStates
           lweights k = Ok (delta, phi) /\
         forall j, j < c_rows emission ->
           m_at delta j 0
             = xadd (xadd (nth j init NaN)
                          (nth j (cluster_weights numberOfStates lweights k)
                               NaN))
                    (xsum (emissions_v emission obs j 0 k))).
Proof.
  split.
  - intros out H HK. unfold viterbix in H.
    apply bind_ok_inv in H. destruct H as [L [_ H]].
    destruct (c_slices obs) as [| K]; [lia |]. cbn [seq for_loop] in H.
    apply bind_ok_inv in H. destruct H as [s1 [H _]].
    apply bind_ok_inv in H. destruct H as [[d p] [H _]].
    unfold viterbix_tables in H.
    apply bind_ok_inv in H. destruct H as [d1 [H _]].
    apply viterbi_init_ok_inv in H. cbn [m_rows m_cols mat_new] in H.
    lia.
  - intros Hwf.
    destruct (viterbix_spec _ _ _ _ _ _ _ Hwf) as [L [q [logp [EL _]]]].
    exists L. split; [exact EL |]. intros k Hk.
    unfold viterbix_wf in Hwf. apply andb_true_iff in Hwf.
    destruct Hwf as [Hs Hm].
    destruct (viterbi_shape_inv _ _ _ _ _ Hs)
      as [Htr [Htc [Hinit [Hch [Hsum [HS [HT Hcodes]]]]]]].
    destruct (mixture_shape_inv _ _ _ _ Hm) as [M1 [M2 M3]].
    destruct (mix_lweights_spec coef X M1) as [L' [EL' [L1 [L2 _]]]].
    assert (L' = L) by congruence. subst L'.
    destruct (@viterbix_tables_spec transition emission init obs
                numberOfStates L Htr Htc Hinit Hch Hsum HS HT Hcodes
                (eq_trans L1 M2) k)
      as [d [p [Et [_ [_ Vt]]]]]; try lia.
    exists d, p. split; [exact Et |]. intros j Hj.
    destruct (Vt j 0 Hj) as [Ed _]; [lia |]. rewrite Ed. reflexivity.
Qed.

Lemma init_has_one_entry_per_state_witness :
  (exists out,
     viterbix ex_transition ex_emission ex_init ex_obs_viterbi ex_clusters
       ex_coef ex_X = Ok out) /\
  1 <= c_slices ex_obs_viterbi /\
  viterbix_wf ex_transition ex_emission ex_init ex_obs_viterbi ex_clusters
    ex_coef ex_X = true /\
  (length ex_init = c_rows ex_emission /\
   length ex_init = list_sum ex_clusters) /\
  exists lweights, mix_lweights ex_coef ex_X = Ok lweights /\
    forall k, k < c_slices ex_obs_viterbi ->
      exists delta phi,
        viterbix_tables ex_transition ex_emission ex_init ex_obs_viterbi
          ex_clusters lweights k = Ok (delta, phi) /\
        forall j, j < c_rows ex_emission ->
          m_at delta j 0
            = xadd (xadd (nth j ex_init NaN)
                         (nth j (cluster_weights ex_clusters lweights k) NaN))
                   (xsum (emissions_v ex_emission ex_obs_viterbi j 0 k)).
Proof.
  pose proof (@init_has_one_entry_per_state ex_transition ex_emission ex_init
                ex_obs_viterbi ex_clusters ex_coef ex_X) as [H1 H2].
  assert (Hwf : viterbix_wf ex_transition ex_emission ex_init ex_obs_viterbi
                  ex_clusters ex_coef ex_X = true) by reflexivity.
  destruct (viterbix_spec _ _ _ _ _ _ _ Hwf) as [L [q [logp [_ [E _]]]]].
  split; [exists (q, logp); exact E |].
  split; [simpl; lia |]. split; [exact Hwf |].
  split; [apply (H1 (q, logp) E); simpl; lia |].
  exact (H2 Hwf).
Defined.

(** C9, as the spec has it, fails: with one cluster of two states and an
    [init] of one entry per cluster, [init + reparma(...)] adds vectors of
    different sizes and the call aborts. *)
Lemma init_per_cluster_aborts :
  length ex_init_per_cluster = length ex_clusters /\
  viterbix_wf ex_transition ex_emission ex_init ex_obs_viterbi ex_clusters
    ex_coef ex_X = true /\
  viterbix ex_transition ex_emission ex_init_per_cluster ex_obs_viterbi
    ex_clusters ex_coef ex_X = Err IncompatibleDimensions.
Proof.
  split; [reflexivity |]. split; reflexivity.
Qed.

(** ** What aborts a call and what does not *)

(** every iteration of a loop that returned has returned *)
Lemma for_loop_ok_inv (S : Type) (l : list nat) (body : nat -> S -> res S)
    (s s' : S) :
  for_loop l body s = Ok s' ->
  forall x, In x l -> exists s1 s2, body x s1 = Ok s2.
Proof.
  revert s; induction l as [| y l IH]; intros s H x Hx; [contradiction |].
  cbn [for_loop] in H. apply bind_ok_inv in H. destruct H as [s1 [H1 H2]].
  destruct Hx as [-> | Hx]; [eauto |]. exact (IH _ H2 _ Hx).
Qed.

Lemma cget_ok_inv (A : Type) (C : cube A) (i j k : nat) (x : A) :
  cget C i j k = Ok x ->
  x = c_at C i j k /\ i < c_rows C /\ j < c_cols C /\ k < c_slices C.
Proof.
  unfold cget.
  destruct (Nat.ltb_spec i (c_rows C)), (Nat.ltb_spec j (c_cols C)),
    (Nat.ltb_spec k (c_slices C)); cbn [andb]; intros Hx;
    try discriminate.
  injection Hx as <-. auto.
Qed.

Lemma add_emissions_ok_inv emission (obs : cube Z) (i t k : nat)
    (a a' : cube xreal) :
  add_emissions emission obs i t k a = Ok a' ->
  forall r, r < c_slices obs ->
    (0 <= c_at obs k t r < Z.of_nat (c_cols emission))%Z.
Proof.
  intros H r Hr. unfold add_emissions in H.
  destruct (for_loop_ok_inv _ _ _ H r) as [s1 [s2 Hb]];
    [apply in_seq; lia |].
  apply bind_ok_inv in Hb. destruct Hb as [o [Ho Hb]].
  apply bind_ok_inv in Hb. destruct Hb as [e [He _]].
  apply cget_ok_inv in Ho. destruct Ho as [-> _].
  unfold cget_sword in He.
  destruct (Z.ltb_spec (c_at obs k t r) 0); [discriminate |].
  apply cget_ok_inv in He. lia.
Qed.

Lemma internalForward_ok_codes lse transition emission init (obs : cube Z)
    (alpha a' : cube xreal) :
  internalForward lse transition emission init obs alpha = Ok a' ->
  1 <= c_rows emission -> 1 <= m_rows transition ->
  forall k t r, k < c_rows obs -> t < c_cols obs -> r < c_slices obs ->
    (0 <= c_at obs k t r < Z.of_nat (c_cols emission))%Z.
Proof.
  intros H HS HS' k t r Hk Ht Hr. unfold internalForward in H.
  destruct (for_loop_ok_inv _ _ _ H k) as [s1 [s2 Hb]];
    [apply in_seq; lia |].
  apply bind_ok_inv in Hb. destruct Hb as [a1 [Hi Hl]].
  destruct t as [| t].
  - unfold forward_init in Hi.
    destruct (for_loop_ok_inv _ _ _ Hi 0) as [s3 [s4 Hc]];
      [apply in_seq; lia |].
    apply bind_ok_inv in Hc. destruct Hc as [x [_ Hc]].
    apply bind_ok_inv in Hc. destruct Hc as [a2 [_ Hc]].
    eapply add_emissions_ok_inv; eassumption.
  - destruct (for_loop_ok_inv _ _ _ Hl (S t)) as [s3 [s4 Hc]];
      [apply in_seq; lia |].
    unfold forward_step in Hc.
    destruct (for_loop_ok_inv _ _ _ Hc 0) as [s5 [s6 Hd]];
      [apply in_seq; lia |].
    repeat (apply bind_ok_inv in Hd; destruct Hd as [? [_ Hd]]).
    eapply add_emissions_ok_inv; eassumption.
Qed.

Lemma mcol_ok_inv (A : Type) (M : mat A) (j : nat) (v : list A) :
  mcol M j = Ok v -> j < m_cols M.
Proof.
  unfold mcol. destruct (Nat.ltb_spec j (m_cols M)); [auto | discriminate].
Qed.

Lemma cslice_ok_inv (A : Type) (C : cube A) (k : nat) (M : mat A) :
  cslice C k = Ok M -> m_cols M = c_cols C.
Proof.
  unfold cslice. destruct (k <? c_slices C); [| discriminate].
  intros H. injection H as <-. reflexivity.
Qed.

Lemma viterbi_init_ok_codes emission init (obs : cube nat) numberOfStates
    lweights (k : nat) (delta d' : mat xreal) :
  viterbi_init emission init obs numberOfStates lweights k delta = Ok d' ->
  forall r, r < c_slices emission -> c_at obs r 0 k < c_cols emission.
Proof.
  unfold viterbi_init. intros H r Hr.
  apply bind_ok_inv in H. destruct H as [lw [_ H]].
  apply bind_ok_inv in H. destruct H as [w [_ H]].
  apply bind_ok_inv in H. destruct H as [d0 [_ H]].
  apply bind_ok_inv in H. destruct H as [d1 [_ H]].
  destruct (for_loop_ok_inv _ _ _ H r) as [s1 [s2 Hb]];
    [apply in_seq; lia |].
  apply bind_ok_inv in Hb. destruct Hb as [o [Ho Hb]].
  apply bind_ok_inv in Hb. destruct Hb as [sl [Hsl Hb]].
  apply bind_ok_inv in Hb. destruct Hb as [e [He _]].
  apply cget_ok_inv in Ho. destruct Ho as [-> _].
  apply mcol_ok_inv in He. apply cslice_ok_inv in Hsl. lia.
Qed.

Lemma viterbi_cell_ok_codes transition emission (obs : cube nat)
    (k t j : nat) (st st' : mat xreal * mat nat) :
  viterbi_cell transition emission obs k t j st = Ok st' ->
  forall r, r < c_slices emission -> c_at obs r t k < c_cols emission.
Proof.
  destruct st as [delta phi]. unfold viterbi_cell. intros H r Hr.
  apply bind_ok_inv in H. destruct H as [x0 [_ H]].
  apply bind_ok_inv in H. destruct H as [d [_ H]].
  apply bind_ok_inv in H. destruct H as [tr [_ H]].
  apply bind_ok_inv in H. destruct H as [v [_ H]].
  apply bind_ok_inv in H. destruct H as [[m ix] [_ H]].
  apply bind_ok_inv in H. destruct H as [phi1 [_ H]].
  apply bind_ok_inv in H. destruct H as [p [_ H]].
  apply bind_ok_inv in H. destruct H as [a [_ H]].
  apply bind_ok_inv in H. destruct H as [b [_ H]].
  apply bind_ok_inv in H. destruct H as [delta1 [_ H]].
  apply bind_ok_inv in H. destruct H as [delta2 [H _]].
  destruct (for_loop_ok_inv _ _ _ H r) as [s1 [s2 Hb]];
    [apply in_seq; lia |].
  apply bind_ok_inv in Hb. destruct Hb as [o [Ho Hb]].
  apply bind_ok_inv in Hb. destruct Hb as [e [He _]].
  apply cget_ok_inv in Ho. destruct Ho as [-> _].
  apply cget_ok_inv in He. lia.
Qed.

Lemma viterbix_ok_codes transition emission init (obs : cube nat)
    numberOfStates coef X (out : mat nat * list xreal) :
  viterbix transition emission init obs numberOfStates coef X = Ok out ->
  1 <= c_rows emission ->
  forall r t k, r < c_slices emission -> t < c_cols obs -> k < c_slices obs ->
    c_at obs r t k < c_cols emission.
Proof.
  intros H HS r t k Hr Ht Hk. unfold viterbix in H.
  apply bind_ok_inv in H. destruct H as [L [_ H]].
  destruct (for_loop_ok_inv _ _ _ H k) as [s1 [s2 Hb]];
    [apply in_seq; lia |].
  apply bind_ok_inv in Hb. destruct Hb as [[d p] [Hb _]].
  unfold viterbix_tables in Hb.
  apply bind_ok_inv in Hb. destruct Hb as [d1 [Hi Hb]].
  apply bind_ok_inv in Hb. destruct Hb as [p1 [_ Hb]].
  destruct t as [| t].
  - eapply viterbi_init_ok_codes; eassumption.
  - destruct (for_loop_ok_inv _ _ _ Hb (S t)) as [s3 [s4 Hc]];
      [apply in_seq; lia |].
    destruct (for_loop_ok_inv _ _ _ Hc 0) as [s5 [s6 Hd]];
      [apply in_seq; lia |].
    eapply viterbi_cell_ok_codes; eassumption.
Qed.

(** C8, as the code has it.  Neither computation validates its input: a call
    aborts only where an executed matrix operation fails its bounds or size
    check.  A call that returns, on a model with at least one state, has
    read only symbol codes in [[0, V)]; an input without channels is not
    rejected: on otherwise consistent dimensions both computations return,
    [internalForward] with [alpha(i,0,k) = init(i)]. *)
Theorem no_validation_but_bounds_checks
    (lse : list xreal -> res xreal) (transition : mat xreal)
    (emission : cube xreal) (init : list xreal) :
  (forall (obs : cube Z) (alpha a' : cube xreal),
     internalForward lse transition emission init obs alpha = Ok a' ->
     1 <= c_rows emission -> 1 <= m_rows transition ->
     forall k t r, k < c_rows obs -> t < c_cols obs -> r < c_slices obs ->
       (0 <= c_at obs k t r < Z.of_nat (c_cols emission))%Z) /\
  (forall (obs : cube nat) numberOfStates coef X out,
     viterbix transition emission init obs numberOfStates coef X = Ok out ->
     1 <= c_rows emission ->
     forall r t k,
       r < c_slices emission -> t < c_cols obs -> k < c_slices obs ->
       c_at obs r t k < c_cols emission) /\
  (forall (obs : cube Z) (alpha : cube xreal),
     lse_total lse ->
     forward_wf transition emission init obs alpha = true ->
     c_slices obs = 0 ->
     exists a',
       internalForward lse transition emission init obs alpha = Ok a' /\
       forall i k, i < c_rows emission -> k < c_rows obs ->
         c_at a' i 0 k = nth i init NaN) /\
  (forall (obs : cube nat) numberOfStates coef X,
     viterbix_wf transition emission init obs numberOfStates coef X = true ->
     c_slices emission = 0 ->
     exists out,
       viterbix transition emission init obs numberOfStates coef X = Ok out).
Proof.
  split; [| split; [| split]].
  - intros obs alpha a' H. now apply internalForward_ok_codes with (1 := H).
  - intros obs ns coef X out H. now apply viterbix_ok_codes with (1 := H).
  - intros obs alpha Hlse Hwf Hz.
    destruct (forward_wf_inv _ _ _ _ _ Hwf)
      as [Htr [Htc [Hinit [Hch [Hdims [HT Hcodes]]]]]].
    destruct (@internalForward_spec lse transition emission init obs
                Hlse Htr Htc Hinit Hch Hcodes alpha Hdims HT)
      as [a' [E [_ V]]].
    exists a'. split; [exact E |]. intros i k Hi Hk.
    rewrite V by lia. cbn [alpha_col]. unfold emissions_at. rewrite Hz.
    cbn [seq map]. apply xadd_0_r.
  - intros obs ns coef X Hwf _.
    destruct (viterbix_spec _ _ _ _ _ _ _ Hwf) as [L [q [logp [_ [E _]]]]].
    exists (q, logp). exact E.
Qed.

Lemma no_validation_but_bounds_checks_witness :
  lse_total logSumExp /\
  forward_wf ex_transition zc_emission ex_init zc_obs_forward ex_alpha
    = true /\
  c_slices zc_obs_forward = 0 /\
  viterbix_wf ex_transition zc_emission ex_init zc_obs_viterbi ex_clusters
    ex_coef ex_X = true /\
  c_slices zc_emission = 0 /\
  (exists a',
     internalForward logSumExp ex_transition zc_emission ex_init
       zc_obs_forward ex_alpha = Ok a' /\
     forall i k, i < c_rows zc_emission -> k < c_rows zc_obs_forward ->
       c_at a' i 0 k = nth i ex_init NaN) /\
  (exists out,
     viterbix ex_transition zc_emission ex_init zc_obs_viterbi ex_clusters
       ex_coef ex_X = Ok out) /\
  (forall a',
     internalForward logSumExp ex_transition ex_emission ex_init
       ex_obs_forward ex_alpha = Ok a' ->
     forall k t r, k < c_rows ex_obs_forward -> t < c_cols ex_obs_forward ->
       r < c_slices ex_obs_forward ->
       (0 <= c_at ex_obs_forward k t r < Z.of_nat (c_cols ex_emission))%Z) /\
  (forall out,
     viterbix ex_transition ex_emission ex_init ex_obs_viterbi ex_clusters
       ex_coef ex_X = Ok out ->
     forall r t k, r < c_slices ex_emission -> t < c_cols ex_obs_viterbi ->
       k < c_slices ex_obs_viterbi ->
       c_at ex_obs_viterbi r t k < c_cols ex_emission).
Proof.
  pose proof (@no_validation_but_bounds_checks logSumExp ex_transition
                zc_emission ex_init) as [_ [_ [HF HV]]].
  pose proof (@no_validation_but_bounds_checks logSumExp ex_transition
                ex_emission ex_init) as [HA [HB _]].
  split; [exact logSumExp_total |]. split; [reflexivity |].
  split; [reflexivity |]. split; [reflexivity |]. split; [reflexivity |].
  split; [apply HF; [exact logSumExp_total | reflexivity | reflexivity] |].
  split; [apply HV; reflexivity |]. split.
  - intros a' E. apply (HA ex_obs_forward ex_alpha a' E); simpl; lia.
  - intros out E. apply (HB ex_obs_viterbi ex_clusters ex_coef ex_X out E).
    simpl; lia.
Defined.

(** C8, as the spec has it, fails: a batch without channels is an empty
    input, and both computations return on it. *)
Lemma zero_channels_not_rejected :
  c_slices zc_obs_forward = 0 /\ c_rows zc_obs_viterbi = 0 /\
  (exists a',
     internalForward logSumExp ex_transition zc_emission ex_init
       zc_obs_forward ex_alpha = Ok a' /\
     c_at a' 0 0 0 = lg (6/10) /\ c_at a' 1 0 0 = lg (4/10)) /\
  (exists out,
     viterbix ex_transition zc_emission ex_init zc_obs_viterbi ex_clusters
       ex_coef ex_X = Ok out).
Proof.
  split; [reflexivity |]. split; [reflexivity |]. split.
  - assert (Hwf : forward_wf ex_transition zc_emission ex_init
                    zc_obs_forward ex_alpha = true) by reflexivity.
    destruct (forward_wf_inv _ _ _ _ _ Hwf)
      as [Htr [Htc [Hinit [Hch [Hdims [HT Hcodes]]]]]].
    destruct (@internalForward_spec logSumExp ex_transition zc_emission
                ex_init zc_obs_forward logSumExp_total Htr Htc Hinit Hch
                Hcodes ex_alpha Hdims HT) as [a' [E [_ V]]].
    exists a'. split; [exact E |].
    split; rewrite V by (simpl; lia); apply xadd_0_r.
  - assert (Hwf : viterbix_wf ex_transition zc_emission ex_init
                    zc_obs_viterbi ex_clusters ex_coef ex_X = true)
      by reflexivity.
    destruct (viterbix_spec _ _ _ _ _ _ _ Hwf) as [L [q [logp [_ [E _]]]]].
    exists (q, logp). exact E.
Qed.

(** ** Zero probabilities *)

Lemma Rsum_pos_in (A : Type) (f : A -> R) (l : list A) (y : A) :
  (forall x, In x l -> (0 <= f x)%R) -> In y l -> (0 < f y)%R ->
  (0 < Rsum (map f l))%R.
Proof.
  intros Hnn Hin Hy.
  pose proof (Rsum_ge_in f l y Hnn Hin). lra.
Qed.

Lemma xadd_NInf_l (a : xreal) : is_logp a = true -> xadd NInf a = NInf.
Proof.
  destruct a; simpl; congruence.
Qed.

Lemma xadd_NInf_r (a : xreal) : is_logp a = true -> xadd a NInf = NInf.
Proof.
  destruct a; simpl; congruence.
Qed.

(** the exponential of a difference to the maximum is a real number in
    [[0, 1]] *)
Lemma xexp_below_max (x : xreal) (mr : R) :
  is_logp x = true -> xle x (Fin mr) ->
  exists e, xexp (xsub x (Fin mr)) = Fin e /\ (0 <= e)%R.
Proof.
  intros Hx Hle. destruct x as [| | | a]; simpl in Hx, Hle; try discriminate.
  - exists 0%R. split; [reflexivity | lra].
  - cbn [xsub xneg xadd xexp].
    assert (He : (0 < exp (a + - mr) <= 1)%R).
    { split; [apply exp_pos |]. rewrite <- exp_0. apply exp_monotone. lra. }
    pose proof dbl_max_ge_1.
    destruct (@xrange_nonneg (exp (a + - mr)) (Rlt_le _ _ (proj1 He)))
      as [[_ H1] | [[E _] | [E _]]];
      [lra | |]; rewrite E; eexists; (split; [reflexivity | lra]).
Qed.

(** the prescribed [logSumExp] meets its contract *)
Lemma logSumExp_propagates : lse_propagates logSumExp.
Proof.
  intros v Hne Hall.
  destruct (argmax_spec Hne Hall) as [A1 [A2 [A3 _]]].
  assert (Hm : is_logp (maxval v) = true).
  { rewrite <- A2. rewrite Forall_forall in Hall. now apply Hall, nth_In. }
  unfold logSumExp, vmax. rewrite vmax_index_ok by assumption.
  cbn [bind].
  destruct (maxval v) as [| | | mr] eqn:Emr; try discriminate.
  - exists NInf. repeat split; reflexivity.
  - pose (f := fun x => xval (xexp (xsub x (Fin mr)))).
    assert (Ef : forall x, In x v ->
              xexp (xsub x (Fin mr)) = Fin (f x) /\ (0 <= f x)%R).
    { intros x Hin. destruct (In_nth _ _ NaN Hin) as [i [Hi Ei]].
      pose proof (A3 i Hi) as Hle. rewrite Ei in Hle.
      rewrite Forall_forall in Hall.
      destruct (@xexp_below_max x mr (Hall x Hin) Hle) as [e [Ee He]].
      unfold f. rewrite Ee. split; [reflexivity | exact He]. }
    assert (Em : map (fun xi => xexp (xsub xi (Fin mr))) v
                 = map (fun xi => Fin (f xi)) v).
    { apply map_ext_in. intros x Hx. now apply Ef. }
    rewrite Em, xsum_map_Fin.
    assert (Hpos : (0 < Rsum (map f v))%R).
    { apply Rsum_pos_in with (y := nth (argmax v) v NaN).
      - intros x Hx. now apply Ef.
      - now apply nth_In.
      - rewrite A2. unfold f. cbn [xsub xneg xadd xexp].
        replace (mr + - mr)%R with 0%R by lra.
        rewrite exp_0, xrange_1. simpl. lra. }
    unfold xlog. rewrite (Rsign_pos Hpos). cbn [xadd].
    eexists. split; [reflexivity |]. split; [reflexivity |].
    intros Hn. exfalso. rewrite Forall_forall in Hn.
    assert (nth (argmax v) v NaN = NInf) by now apply Hn, nth_In.
    congruence.
Qed.

(** [logSumExp] of a single real number is that number *)
Example logSumExp_singleton (v : R) : logSumExp [Fin v] = Ok (Fin v).
Proof.
  unfold logSumExp, vmax, vmax_index. cbn [bind max_scan xgt].
  cbn [map xsub xneg xadd xexp].
  replace (v + - v)%R with 0%R by lra. rewrite exp_0, xrange_1.
  unfold xsum. cbn [fold_left xadd]. unfold xlog.
  rewrite Rsign_pos by lra. cbn [xadd]. do 2 f_equal.
  replace (0 + 1)%R with 1%R by lra. rewrite ln_1. lra.
Qed.

(** a tie goes to the first of the equal elements *)
Example argmax_tie : argmax [Fin 0; Fin 1; Fin 1] = 1.
Proof.
  unfold argmax. cbn [max_scan xgt]. unfold Rltb.
  destruct (Rlt_dec 0 1) as [_ | H]; [| exfalso; lra].
  destruct (Rlt_dec 1 1) as [H | _]; [exfalso; lra | reflexivity].
Qed.

Lemma emissions_at_logp transition emission init (obs : cube Z)
    (alpha : cube xreal) (i t k : nat) :
  forward_wf transition emission init obs alpha = true ->
  model_values transition emission init = true ->
  i < c_rows emission -> t < c_cols obs -> k < c_rows obs ->
  is_logp (xsum (emissions_at emission obs i t k)) = true.
Proof.
  intros Hwf Hv Hi Ht Hk.
  destruct (forward_wf_inv _ _ _ _ _ Hwf)
    as [_ [_ [_ [Hch [_ [_ Hcodes]]]]]].
  destruct (model_values_inv _ _ _ Hv) as [_ [_ He]].
  apply is_logp_xsum, Forall_forall. intros x Hx.
  unfold emissions_at in Hx. apply in_map_iff in Hx.
  destruct Hx as [r [<- Hr]]. apply in_seq in Hr.
  specialize (Hcodes k t r Hk Ht ltac:(lia)).
  apply He; [assumption | lia | lia].
Qed.

(** the forward table holds no NaN and no [+inf] when [logSumExp] returns
    none *)
Lemma alpha_col_logp lse transition emission init (obs : cube Z)
    (alpha : cube xreal) (k : nat) :
  lse_propagates lse ->
  forward_wf transition emission init obs alpha = true ->
  model_values transition emission init = true ->
  k < c_rows obs ->
  forall t i, t < c_cols obs -> i < c_rows emission ->
    is_logp (alpha_col lse transition emission init obs k t i) = true /\
    (1 <= t ->
     Forall (fun x => x = NInf)
       (forward_terms transition
          (alpha_col lse transition emission init obs k (t - 1)) i) ->
     alpha_col lse transition emission init obs k t i = NInf).
Proof.
  intros Hp Hwf Hv Hk.
  destruct (forward_wf_inv _ _ _ _ _ Hwf) as [Htr _].
  destruct (model_values_inv _ _ _ Hv) as [Hiv [Htv _]].
  induction t as [| t IH]; intros i Ht Hi.
  - split; [| lia]. cbn [alpha_col]. apply is_logp_xadd.
    + now apply Hiv.
    + eapply emissions_at_logp; eauto.
  - set (terms := forward_terms transition
                    (alpha_col lse transition emission init obs k t) i).
    assert (Hne : terms <> []).
    { unfold terms, forward_terms. rewrite Htr.
      destruct (c_rows emission); [lia | discriminate]. }
    assert (Hall : Forall (fun x => is_logp x = true) terms).
    { apply Forall_forall. intros x Hx. unfold terms, forward_terms in Hx.
      apply in_map_iff in Hx. destruct Hx as [j [<- Hj]].
      apply in_seq in Hj. apply is_logp_xadd.
      - apply IH; lia.
      - apply Htv; lia. }
    destruct (Hp terms Hne Hall) as [y [Ey [Hy Hn]]].
    assert (He : is_logp (xsum (emissions_at emission obs i (S t) k)) = true)
      by (eapply emissions_at_logp; eauto).
    assert (Ea : alpha_col lse transition emission init obs k (S t) i
                 = xadd y (xsum (emissions_at emission obs i (S t) k))).
    { cbn [alpha_col]. fold terms. now rewrite Ey. }
    split.
    + rewrite Ea. now apply is_logp_xadd.
    + intros _ Hninf. replace (S t - 1) with t in Hninf by lia.
      rewrite Ea, (Hn Hninf). now apply xadd_NInf_l.
Qed.

(** C7.  On parameters that are log-probabilities, and computed mixture
    log-weights without NaN and [+inf], the Viterbi tables never hold NaN
    or [+inf], neither does [logp], and a state all of whose predecessor
    terms [delta(i,t-1) + transition(i,j)] are [-inf] gets
    [delta(j,t) = -inf].  With a [logSumExp] that meets its contract (no
    NaN and no [+inf] on a vector without them, [-inf] when every element
    is [-inf]), the forward table never holds NaN or [+inf] either, and a
    state all of whose predecessor terms
    [alpha(j,t-1,k) + transition(j,i)] are [-inf] gets
    [alpha(i,t,k) = -inf]. *)
Theorem zero_probability_propagation (transition : mat xreal)
    (emission : cube xreal) (init : list xreal) :
  model_values transition emission init = true ->
  (forall (obs : cube nat) numberOfStates coef X,
     viterbix_wf transition emission init obs numberOfStates coef X = true ->
     lweights_values coef X = true ->
     exists lweights q logp,
       mix_lweights coef X = Ok lweights /\
       viterbix transition emission init obs numberOfStates coef X
         = Ok (q, logp) /\
       forall k, k < c_slices obs ->
         is_logp (nth k logp NaN) = true /\
         exists delta phi,
           viterbix_tables transition emission init obs numberOfStates
             lweights k = Ok (delta, phi) /\
           (forall j t, j < c_rows emission -> t < c_cols obs ->
              is_logp (m_at delta j t) = true) /\
           (forall j t, j < c_rows emission -> 1 <= t < c_cols obs ->
              (forall i, i < c_rows emission ->
                 xadd (m_at delta i (t - 1)) (m_at transition i j) = NInf) ->
              m_at delta j t = NInf)) /\
  (forall (lse : list xreal -> res xreal) (obs : cube Z)
          (alpha : cube xreal),
     lse_total lse -> lse_propagates lse ->
     forward_wf transition emission init obs alpha = true ->
     exists a',
       internalForward lse transition emission init obs alpha = Ok a' /\
       forall k i t, k < c_rows obs -> i < c_rows emission ->
         t < c_cols obs ->
         is_logp (c_at a' i t k) = true /\
         (1 <= t ->
          (forall j, j < c_rows emission ->
             xadd (c_at a' j (t - 1) k) (m_at transition j i) = NInf) ->
          c_at a' i t k = NInf)).
Proof.
  intros Hvv. split.
  - intros obs ns coef X Hwf Hmv.
    destruct (viterbix_run _ _ _ _ _ _ _ Hwf Hmv)
      as [L [q [logp [EL [L1 [Lfin [_ [E V]]]]]]]].
    exists L, q, logp. split; [exact EL |]. split; [exact E |].
    intros k Hk. destruct (V k Hk) as [V1 [_ [delta [phi [Et Vt]]]]].
    assert (Hs : viterbi_shape transition emission init obs ns = true).
    { unfold viterbix_wf in Hwf. now apply andb_true_iff in Hwf. }
    destruct (viterbi_shape_inv _ _ _ _ _ Hs)
      as [_ [_ [_ [_ [_ [HS [HT _]]]]]]].
    pose proof (@dcol_logp transition emission init obs ns L Hs Hvv L1 Lfin k)
      as Hd.
    destruct (@lcol_spec transition emission init obs ns L Hs Hvv L1 Lfin
                k Hk) as [C1 [C2 _]].
    split.
    + rewrite V1, C2. apply Hd; [assumption | lia | exact C1].
    + exists delta, phi. split; [exact Et |]. split.
      * intros j t Hj Ht. destruct (Vt j t Hj Ht) as [Ed _]. rewrite Ed.
        now apply Hd.
      * intros j t Hj Ht Hall.
        destruct (Vt j t Hj) as [Ed _]; [lia |]. rewrite Ed.
        destruct t as [| t]; [lia |]. rewrite delta_col_S.
        set (p := phi_col transition emission init obs ns L k (S t) j).
        assert (Hp : p < c_rows emission)
          by (apply pcol_lt; assumption).
        specialize (Hall p Hp). replace (S t - 1) with t in Hall by lia.
        destruct (Vt p t Hp) as [Edp _]; [lia |]. rewrite Edp in Hall.
        rewrite Hall.
        pose proof (@emissions_v_logp transition emission init obs ns L
                      Hs Hvv L1 j (S t) k Hj ltac:(lia) Hk) as He.
        destruct (xsum (emissions_v emission obs j (S t) k));
          simpl in *; congruence.
  - intros lse obs alpha Hlse Hprop Hwf.
    destruct (forward_wf_inv _ _ _ _ _ Hwf)
      as [Htr [Htc [Hinit [Hch [Hdims [HT Hcodes]]]]]].
    destruct (@internalForward_spec lse transition emission init obs
                Hlse Htr Htc Hinit Hch Hcodes alpha Hdims HT)
      as [a' [E [_ V]]].
    exists a'. split; [exact E |]. intros k i t Hk Hi Ht.
    destruct (@alpha_col_logp lse transition emission init obs alpha k
                Hprop Hwf Hvv Hk t i Ht Hi) as [A1 A2].
    rewrite V by assumption. split; [exact A1 |].
    intros Ht1 Hall. apply A2; [exact Ht1 |].
    apply Forall_forall. intros x Hx. unfold forward_terms in Hx.
    apply in_map_iff in Hx. destruct Hx as [j [<- Hj]].
    apply in_seq in Hj. rewrite <- V by lia. apply Hall. lia.
Qed.

Lemma zero_probability_propagation_witness :
  m_at inf_transition 0 1 = NInf /\
  model_values inf_transition ex_emission inf_init = true /\
  viterbix_wf inf_transition ex_emission inf_init ex_obs_viterbi ex_clusters
    ex_coef ex_X = true /\
  lweights_values ex_coef ex_X = true /\
  lse_total logSumExp /\ lse_propagates logSumExp /\
  forward_wf inf_transition ex_emission inf_init ex_obs_forward ex_alpha
    = true /\
  (exists lweights q logp delta phi,
     mix_lweights ex_coef ex_X = Ok lweights /\
     viterbix inf_transition ex_emission inf_init ex_obs_viterbi ex_clusters
       ex_coef ex_X = Ok (q, logp) /\
     viterbix_tables inf_transition ex_emission inf_init ex_obs_viterbi
       ex_clusters lweights 0 = Ok (delta, phi) /\
     is_logp (nth 0 logp NaN) = true /\
     (forall j t, j < 2 -> t < 2 -> is_logp (m_at delta j t) = true) /\
     m_at delta 1 1 = NInf) /\
  exists a',
    internalForward logSumExp inf_transition ex_emission inf_init
      ex_obs_forward ex_alpha = Ok a' /\
    (forall i t, i < 2 -> t < 2 -> is_logp (c_at a' i t 0) = true) /\
    c_at a' 1 1 0 = NInf.
Proof.
  assert (Hvv : model_values inf_transition ex_emission inf_init = true)
    by exact inf_model_values.
  assert (Hwf : viterbix_wf inf_transition ex_emission inf_init
                  ex_obs_viterbi ex_clusters ex_coef ex_X = true)
    by reflexivity.
  assert (Hfw : forward_wf inf_transition ex_emission inf_init
                  ex_obs_forward ex_alpha = true) by reflexivity.
  pose proof (@zero_probability_propagation inf_transition ex_emission
                inf_init Hvv) as [HV HF].
  split; [reflexivity |]. split; [exact Hvv |]. split; [exact Hwf |].
  split; [exact ex_lweights_values |].
  split; [exact logSumExp_total |]. split; [exact logSumExp_propagates |].
  split; [exact Hfw |]. split.
  - destruct (HV ex_obs_viterbi ex_clusters ex_coef ex_X Hwf
                ex_lweights_values) as [L [q [logp [EL [E H]]]]].
    destruct (H 0 (Nat.lt_0_succ 0)) as [Hl [delta [phi [Et [Hd Hn]]]]].
    exists L, q, logp, delta, phi.
    split; [exact EL |]. split; [exact E |]. split; [exact Et |].
    split; [exact Hl |]. split; [exact Hd |].
    destruct (viterbix_run _ _ _ _ _ _ _ Hwf ex_lweights_values)
      as [L' [q' [logp' [EL' [R1 [Lv [_ [_ V]]]]]]]].
    assert (EqL : L' = L) by congruence. subst L'.
    destruct (V 0 (Nat.lt_0_succ 0)) as [_ [_ [d [p [Et' Vt]]]]].
    assert (Eqd : d = delta) by congruence. subst d.
    apply Hn; [simpl; lia | simpl; lia |].
    intros i Hi. simpl in Hi. cbn [Nat.sub].
    destruct i as [| [| i]]; [| | lia].
    + change (m_at inf_transition 0 1) with NInf.
      apply xadd_NInf_r. apply Hd; simpl; lia.
    + destruct (Vt 1 0) as [E1 _]; [simpl; lia | simpl; lia |].
      rewrite E1. cbn [delta_col]. unfold weighted_init, ex_clusters.
      rewrite (single_cluster_weights 2 L 0 R1 eq_refl).
      cbn [repeat app nth inf_init].
      assert (Hw : is_logp (m_at L 0 0) = true)
        by (apply Lv; [rewrite R1 |]; simpl; lia).
      rewrite (@xadd_NInf_l (m_at L 0 0) Hw). reflexivity.
  - destruct (HF logSumExp ex_obs_forward ex_alpha logSumExp_total
                logSumExp_propagates Hfw) as [a' [E H]].
    exists a'. split; [exact E |]. split.
    + intros i t Hi Ht. apply H; simpl; lia.
    + destruct (forward_wf_inv _ _ _ _ _ Hfw)
        as [Htr [Htc [Hinit [Hch [Hdims [HT Hcodes]]]]]].
      destruct (@internalForward_spec logSumExp inf_transition ex_emission
                  inf_init ex_obs_forward logSumExp_total Htr Htc Hinit Hch
                  Hcodes ex_alpha Hdims HT) as [a2 [E2 [_ V]]].
      assert (Eqa : a2 = a') by congruence. subst a2.
      destruct (H 0 1 1) as [_ Hn]; [simpl; lia | simpl; lia | simpl; lia |].
      apply Hn; [lia |]. intros j Hj. simpl in Hj. cbn [Nat.sub].
      destruct j as [| [| j]]; [| | lia].
      * change (m_at inf_transition 0 1) with NInf.
        apply xadd_NInf_r. apply H; simpl; lia.
      * rewrite V by (simpl; lia). reflexivity.
Defined.

(** * Further properties of the two computations *)

(** ** Shape and validity of what [viterbix] returns *)

(** X1.  On input of consistent shape, whatever the values of the parameters
    (NaN included), [viterbix] returns a [K x T] matrix of valid state
    indices and one [logp] per sequence. *)
Theorem viterbix_output_shape transition emission init obs numberOfStates
    coef X :
  viterbix_wf transition emission init obs numberOfStates coef X = true ->
  exists q logp,
    viterbix transition emission init obs numberOfStates coef X
      = Ok (q, logp) /\
    mat_dims q = (c_slices obs, c_cols obs) /\
    length logp = c_slices obs /\
    forall k t, k < c_slices obs -> t < c_cols obs ->
      m_at q k t < c_rows emission.
Proof.
  intros Hwf.
  destruct (viterbix_spec _ _ _ _ _ _ _ Hwf)
    as [L [q [logp [EL [E [Dq [Dl V]]]]]]].
  exists q, logp. split; [exact E |]. split; [exact Dq |].
  split; [exact Dl |]. intros k t Hk Ht.
  destruct (V k Hk) as [_ Vq]. rewrite Vq by assumption.
  unfold viterbix_wf in Hwf. apply andb_true_iff in Hwf.
  destruct Hwf as [Hs Hm].
  destruct (mixture_shape_inv _ _ _ _ Hm) as [M1 [M2 M3]].
  destruct (mix_lweights_spec coef X M1) as [L' [EL' [L1 _]]].
  assert (L' = L) by congruence. subst L'.
  apply pa_lt; [assumption | congruence].
Qed.

Lemma viterbix_output_shape_witness :
  viterbix_wf ex_transition ex_emission ex_init ex_obs_viterbi2 ex_clusters
    ex_coef ex_X2 = true /\
  exists q logp,
    viterbix ex_transition ex_emission ex_init ex_obs_viterbi2 ex_clusters
      ex_coef ex_X2 = Ok (q, logp) /\
    mat_dims q = (c_slices ex_obs_viterbi2, c_cols ex_obs_viterbi2) /\
    length logp = c_slices ex_obs_viterbi2 /\
    forall k t, k < c_slices ex_obs_viterbi2 -> t < c_cols ex_obs_viterbi2 ->
      m_at q k t < c_rows ex_emission.
Proof.
  split; [reflexivity |].
  apply (@viterbix_output_shape ex_transition ex_emission ex_init
           ex_obs_viterbi2 ex_clusters ex_coef ex_X2). reflexivity.
Defined.

(** X2.  In the tables of every sequence the first column of [phi] is zero
    and every backpointer is a valid state index, whatever the values of the
    parameters. *)
Theorem backpointers_valid transition emission init obs numberOfStates
    coef X :
  viterbix_wf transition emission init obs numberOfStates coef X = true ->
  exists lweights, mix_lweights coef X = Ok lweights /\
    forall k, k < c_slices obs ->
      exists delta phi,
        viterbix_tables transition emission init obs numberOfStates
          lweights k = Ok (delta, phi) /\
        mat_dims delta = (c_rows emission, c_cols obs) /\
        mat_dims phi = (c_rows emission, c_cols obs) /\
        forall j, j < c_rows emission ->
          m_at phi j 0 = 0 /\
          forall t, t < c_cols obs -> m_at phi j t < c_rows emission.
Proof.
  intros Hwf.
  destruct (viterbix_spec _ _ _ _ _ _ _ Hwf) as [L [q [logp [EL _]]]].
  exists L. split; [exact EL |]. intros k Hk.
  unfold viterbix_wf in Hwf. apply andb_true_iff in Hwf.
  destruct Hwf as [Hs Hm].
  destruct (viterbi_shape_inv _ _ _ _ _ Hs)
    as [Htr [Htc [Hinit [Hch [Hsum [HS [HT Hcodes]]]]]]].
  destruct (mixture_shape_inv _ _ _ _ Hm) as [M1 [M2 M3]].
  destruct (mix_lweights_spec coef X M1) as [L' [EL' [L1 [L2 _]]]].
  assert (L' = L) by congruence. subst L'.
  destruct (@viterbix_tables_spec transition emission init obs
              numberOfStates L Htr Htc Hinit Hch Hsum HS HT Hcodes
              (eq_trans L1 M2) k)
    as [d [p [Et [Fd [Fp Vt]]]]]; try lia.
  exists d, p. split; [exact Et |]. split; [exact Fd |].
  split; [exact Fp |]. intros j Hj. split.
  - destruct (Vt j 0 Hj) as [_ Ep]; [lia |]. rewrite Ep. reflexivity.
  - intros t Ht. destruct (Vt j t Hj Ht) as [_ Ep]. rewrite Ep.
    apply pcol_lt; [assumption | congruence].
Qed.

Lemma backpointers_valid_witness :
  viterbix_wf ex_transition ex_emission ex_init ex_obs_viterbi ex_clusters
    ex_coef ex_X = true /\
  exists lweights, mix_lweights ex_coef ex_X = Ok lweights /\
    forall k, k < c_slices ex_obs_viterbi ->
      exists delta phi,
        viterbix_tables ex_transition ex_emission ex_init ex_obs_viterbi
          ex_clusters lweights k = Ok (delta, phi) /\
        mat_dims delta = (c_rows ex_emission, c_cols ex_obs_viterbi) /\
        mat_dims phi = (c_rows ex_emission, c_cols ex_obs_viterbi) /\
        forall j, j < c_rows ex_emission ->
          m_at phi j 0 = 0 /\
          forall t, t < c_cols ex_obs_viterbi ->
            m_at phi j t < c_rows ex_emission.
Proof.
  split; [reflexivity |].
  apply (@backpointers_valid ex_transition ex_emission ex_init
           ex_obs_viterbi ex_clusters ex_coef ex_X). reflexivity.
Defined.

(** ** What [internalForward] writes, and when it does nothing *)

Lemma for_loop_id (S : Type) (l : list nat) (body : nat -> S -> res S)
    (s : S) :
  (forall x s0, In x l -> body x s0 = Ok s0) -> for_loop l body s = Ok s.
Proof.
  induction l as [| x l IH]; intros H; [reflexivity |].
  cbn [for_loop]. rewrite H by now left. cbn [bind].
  apply IH. intros y s0 Hy. apply H. now right.
Qed.

(** a property kept by every iteration that returns is kept by the loop *)
Lemma for_loop_ok_preserve (S : Type) (P : S -> Prop) (l : list nat)
    (body : nat -> S -> res S) (s s' : S) :
  for_loop l body s = Ok s' -> P s ->
  (forall x s1 s2, In x l -> body x s1 = Ok s2 -> P s1 -> P s2) ->
  P s'.
Proof.
  revert s; induction l as [| x l IH]; intros s H Hs Hstep.
  - cbn [for_loop] in H. injection H as <-. exact Hs.
  - cbn [for_loop] in H. apply bind_ok_inv in H. destruct H as [s1 [H1 H2]].
    apply (IH s1 H2).
    + apply (Hstep x s s1); [now left | assumption | assumption].
    + intros y s2 s3 Hy. apply Hstep. now right.
Qed.

Lemma same_outside_refl (W : nat -> nat -> nat -> Prop) (a : cube xreal) :
  same_outside W a a.
Proof.
  split; auto.
Qed.

Lemma same_outside_trans (W : nat -> nat -> nat -> Prop)
    (a b c : cube xreal) :
  same_outside W a b -> same_outside W b c -> same_outside W a c.
Proof.
  intros [D1 V1] [D2 V2]. split; [congruence |].
  intros i t k H. rewrite V2, V1 by assumption. reflexivity.
Qed.

Lemma cset_ok_inv (C C' : cube xreal) (i j k : nat) (x : xreal) :
  cset C i j k x = Ok C' ->
  C' = cupd C i j k x /\ i < c_rows C /\ j < c_cols C /\ k < c_slices C.
Proof.
  unfold cset.
  destruct (Nat.ltb_spec i (c_rows C)), (Nat.ltb_spec j (c_cols C)),
    (Nat.ltb_spec k (c_slices C)); cbn [andb]; intros Hx;
    try discriminate.
  injection Hx as <-. auto.
Qed.

Lemma cset_same_outside (W : nat -> nat -> nat -> Prop) (a a' : cube xreal)
    (i t k : nat) (x : xreal) :
  cset a i t k x = Ok a' -> W i t k -> same_outside W a a'.
Proof.
  intros H HW. apply cset_ok_inv in H. destruct H as [-> _].
  split; [reflexivity |]. intros i' t' k' Hn. cbn [c_at cupd].
  destruct (Nat.eqb_spec i' i), (Nat.eqb_spec t' t), (Nat.eqb_spec k' k);
    cbn [andb]; try reflexivity. subst. contradiction.
Qed.

Lemma add_emissions_same_outside (W : nat -> nat -> nat -> Prop) emission
    (obs : cube Z) (i t k : nat) (a a' : cube xreal) :
  add_emissions emission obs i t k a = Ok a' -> W i t k ->
  same_outside W a a'.
Proof.
  intros H HW. unfold add_emissions in H.
  apply (for_loop_ok_preserve (fun s => same_outside W a s) _ _ _ H).
  - apply same_outside_refl.
  - intros r s1 s2 _ Hb Hs1.
    apply bind_ok_inv in Hb. destruct Hb as [o [_ Hb]].
    apply bind_ok_inv in Hb. destruct Hb as [e [_ Hb]].
    apply bind_ok_inv in Hb. destruct Hb as [a0 [_ Hb]].
    apply same_outside_trans with s1; [assumption |].
    now apply cset_same_outside with (1 := Hb).
Qed.

Lemma forward_init_same_outside (W : nat -> nat -> nat -> Prop) emission init
    (obs : cube Z) (k : nat) (a a' : cube xreal) :
  forward_init emission init obs k a = Ok a' ->
  (forall i, i < c_rows emission -> W i 0 k) ->
  same_outside W a a'.
Proof.
  intros H HW. unfold forward_init in H.
  apply (for_loop_ok_preserve (fun s => same_outside W a s) _ _ _ H).
  - apply same_outside_refl.
  - intros i s1 s2 Hi Hb Hs1. apply in_seq in Hi.
    apply bind_ok_inv in Hb. destruct Hb as [x [_ Hb]].
    apply bind_ok_inv in Hb. destruct Hb as [a1 [Hc Hb]].
    assert (Wi : W i 0 k) by (apply HW; lia).
    apply same_outside_trans with s1; [assumption |].
    apply same_outside_trans with a1.
    + now apply cset_same_outside with (1 := Hc).
    + now apply add_emissions_same_outside with (1 := Hb).
Qed.

Lemma forward_step_same_outside (W : nat -> nat -> nat -> Prop) lse
    transition emission (obs : cube Z) (k t : nat) (a a' : cube xreal) :
  forward_step lse transition emission obs k t a = Ok a' ->
  (forall i, i < m_rows transition -> W i t k) ->
  same_outside W a a'.
Proof.
  intros H HW. unfold forward_step in H.
  apply (for_loop_ok_preserve (fun s => same_outside W a s) _ _ _ H).
  - apply same_outside_refl.
  - intros i s1 s2 Hi Hb Hs1. apply in_seq in Hi.
    apply bind_ok_inv in Hb. destruct Hb as [sl [_ Hb]].
    apply bind_ok_inv in Hb. destruct Hb as [prev [_ Hb]].
    apply bind_ok_inv in Hb. destruct Hb as [tr [_ Hb]].
    apply bind_ok_inv in Hb. destruct Hb as [v [_ Hb]].
    apply bind_ok_inv in Hb. destruct Hb as [x [_ Hb]].
    apply bind_ok_inv in Hb. destruct Hb as [a1 [Hc Hb]].
    assert (Wi : W i t k) by (apply HW; lia).
    apply same_outside_trans with s1; [assumption |].
    apply same_outside_trans with a1.
    + now apply cset_same_outside with (1 := Hc).
    + now apply add_emissions_same_outside with (1 := Hb).
Qed.

(** X3.  Whenever [internalForward] returns, the table it returns has the
    dimensions of the table it was given, and differs from it only at the
    entries the loops assign: column 0 of the first [emission.n_rows] rows
    and columns [1 .. obs.n_cols - 1] of the first [transition.n_rows] rows,
    in the slices of the sequences of the batch. *)
Theorem forward_writes_only_its_block lse transition emission init
    (obs : cube Z) (alpha a' : cube xreal) :
  internalForward lse transition emission init obs alpha = Ok a' ->
  cube_dims a' = cube_dims alpha /\
  forall i t k, ~ forward_written transition emission obs i t k ->
    c_at a' i t k = c_at alpha i t k.
Proof.
  intros H. unfold internalForward in H.
  change (same_outside (forward_written transition emission obs) alpha a').
  apply (for_loop_ok_preserve
           (fun s => same_outside (forward_written transition emission obs)
                       alpha s) _ _ _ H).
  - apply same_outside_refl.
  - intros k s1 s2 Hk Hb Hs1. apply in_seq in Hk.
    apply bind_ok_inv in Hb. destruct Hb as [a1 [Hi Hl]].
    apply same_outside_trans with s1; [assumption |].
    apply same_outside_trans with a1.
    + apply forward_init_same_outside with (1 := Hi).
      intros i Hi'. split; [lia |]. left. auto.
    + apply (for_loop_ok_preserve
               (fun s => same_outside
                           (forward_written transition emission obs) a1 s)
               _ _ _ Hl).
      * apply same_outside_refl.
      * intros t s3 s4 Ht Hs Hs3. apply in_seq in Ht.
        apply same_outside_trans with s3; [assumption |].
        apply forward_step_same_outside with (1 := Hs).
        intros i Hi'. split; [lia |]. right. split; [lia | assumption].
Qed.

Lemma forward_writes_only_its_block_witness :
  exists a',
    internalForward logSumExp ex_transition ex_emission ex_init
      ex_obs_forward ex_alpha = Ok a' /\
    cube_dims a' = cube_dims ex_alpha /\
    forall i t k,
      ~ forward_written ex_transition ex_emission ex_obs_forward i t k ->
      c_at a' i t k = c_at ex_alpha i t k.
Proof.
  assert (Hwf : forward_wf ex_transition ex_emission ex_init ex_obs_forward
                  ex_alpha = true) by reflexivity.
  destruct (forward_wf_inv _ _ _ _ _ Hwf)
    as [Htr [Htc [Hinit [Hch [Hdims [HT Hcodes]]]]]].
  destruct (@internalForward_spec logSumExp ex_transition ex_emission
              ex_init ex_obs_forward logSumExp_total Htr Htc Hinit Hch
              Hcodes ex_alpha Hdims HT) as [a' [E _]].
  exists a'. split; [exact E |].
  exact (forward_writes_only_its_block _ _ _ _ _ _ E).
Defined.

(** X4.  With an empty batch, or with a model without states, the loops of
    [internalForward] have nothing to do: the call returns the table it was
    given, whatever the other arguments are. *)
Theorem forward_nothing_to_do lse transition emission init (obs : cube Z)
    (alpha : cube xreal) :
  c_rows obs = 0 \/ (c_rows emission = 0 /\ m_rows transition = 0) ->
  internalForward lse transition emission init obs alpha = Ok alpha.
Proof.
  intros [HK | [HE HR]]; unfold internalForward.
  - rewrite HK. reflexivity.
  - apply for_loop_id. intros k s _.
    unfold forward_init. rewrite HE. cbn [seq for_loop bind].
    apply for_loop_id. intros t s0 _.
    unfold forward_step. rewrite HR. reflexivity.
Qed.

Lemma forward_nothing_to_do_witness :
  (c_rows empty_obs_forward = 0 \/
   (c_rows ex_emission = 0 /\ m_rows ex_transition = 0)) /\
  internalForward logSumExp ex_transition ex_emission ex_init
    empty_obs_forward ex_alpha = Ok ex_alpha.
Proof.
  split; [left; reflexivity |].
  apply (@forward_nothing_to_do logSumExp ex_transition ex_emission ex_init
           empty_obs_forward ex_alpha).
  left; reflexivity.
Defined.

(** every iteration of a loop that returned has returned, from a state that
    has the property the iterations keep *)
Lemma for_loop_ok_inv_with (S : Type) (P : S -> Prop) (l : list nat)
    (body : nat -> S -> res S) (s s' : S) :
  for_loop l body s = Ok s' -> P s ->
  (forall x s1 s2, In x l -> body x s1 = Ok s2 -> P s1 -> P s2) ->
  forall x, In x l -> exists s1 s2, P s1 /\ body x s1 = Ok s2.
Proof.
  revert s; induction l as [| y l IH]; intros s H Hs Hstep x Hx;
    [contradiction |].
  cbn [for_loop] in H. apply bind_ok_inv in H. destruct H as [s1 [H1 H2]].
  destruct Hx as [-> | Hx]; [eauto |].
  apply (IH s1 H2); [| | exact Hx].
  - apply (Hstep y s s1); [now left | assumption | assumption].
  - intros z s2 s3 Hz. apply Hstep. now right.
Qed.

Lemma vget_ok_inv (A : Type) (v : list A) (i : nat) (x : A) :
  vget v i = Ok x -> i < length v.
Proof.
  unfold vget. destruct (nth_error v i) eqn:E; [| discriminate].
  intros _. apply nth_error_Some. congruence.
Qed.

Lemma same_dims_of_outside (W : nat -> nat -> nat -> Prop)
    (a a' : cube xreal) :
  same_outside W a a' -> cube_dims a' = cube_dims a.
Proof.
  now intros [D _].
Qed.

Lemma cget_sword_ok_inv (A : Type) (C : cube A) (i : nat) (o : Z) (r : nat)
    (x : A) :
  cget_sword C i o r = Ok x -> i < c_rows C /\ r < c_slices C.
Proof.
  unfold cget_sword. destruct (Z.ltb_spec o 0); [discriminate |].
  intros Hx. apply cget_ok_inv in Hx. lia.
Qed.

(** X5.  A call of [internalForward] on at least one sequence and a model
    with at least one state returns only if [init] has an entry for every
    row of [emission], the table [alpha] has room for them, for column 0
    and for every sequence, and, when there is a channel, the batch has a
    time step and [emission] a slice per channel; with a second time step
    and a non-empty [transition], only if moreover [alpha] has one row per
    row of [transition], [transition] a column per row, and [alpha] a column
    per time step.  Every other shape aborts the call. *)
Theorem forward_returns_only_on lse transition emission init (obs : cube Z)
    (alpha a' : cube xreal) :
  internalForward lse transition emission init obs alpha = Ok a' ->
  1 <= c_rows obs -> 1 <= c_rows emission ->
  c_rows emission <= length init /\
  c_rows emission <= c_rows alpha /\
  1 <= c_cols alpha /\
  c_rows obs <= c_slices alpha /\
  (1 <= c_slices obs ->
   1 <= c_cols obs /\ c_slices obs <= c_slices emission) /\
  (2 <= c_cols obs -> 1 <= m_rows transition ->
   c_rows alpha = m_rows transition /\
   m_rows transition <= m_cols transition /\
   c_cols obs <= c_cols alpha).
Proof.
  intros H HK HS. unfold internalForward in H.
  pose (P := fun s : cube xreal => cube_dims s = cube_dims alpha).
  pose (W := fun _ _ _ : nat => True).
  assert (Hinit_keep : forall k s1 s2,
            forward_init emission init obs k s1 = Ok s2 -> P s1 -> P s2).
  { intros k s1 s2 Hb Hs1. unfold P in *.
    rewrite (same_dims_of_outside
               (@forward_init_same_outside W _ _ _ _ _ _ Hb
                  (fun _ _ => I))).
    exact Hs1. }
  assert (Hstep_keep : forall k t s1 s2,
            forward_step lse transition emission obs k t s1 = Ok s2 ->
            P s1 -> P s2).
  { intros k t s1 s2 Hb Hs1. unfold P in *.
    rewrite (same_dims_of_outside
               (@forward_step_same_outside W _ _ _ _ _ _ _ _ Hb
                  (fun _ _ => I))).
    exact Hs1. }
  assert (Hbody_keep : forall k s1 s2,
            (a1 <- forward_init emission init obs k s1 ;;
             for_loop (seq 1 (c_cols obs - 1))
               (forward_step lse transition emission obs k) a1) = Ok s2 ->
            P s1 -> P s2).
  { intros k s1 s2 Hb Hs1.
    apply bind_ok_inv in Hb. destruct Hb as [a1 [Hi Hl]].
    apply (for_loop_ok_preserve P _ _ _ Hl).
    - now apply Hinit_keep with (1 := Hi).
    - intros t s3 s4 _ Hs. now apply Hstep_keep with (1 := Hs). }
  destruct (for_loop_ok_inv_with P _ _ _ H eq_refl
              (fun k s1 s2 _ => Hbody_keep k s1 s2) (c_rows obs - 1))
    as [s1 [s2 [Ps1 Hb]]]; [apply in_seq; lia |].
  apply bind_ok_inv in Hb. destruct Hb as [a1 [Hi Hl]].
  assert (Pa1 : P a1) by now apply Hinit_keep with (1 := Hi).
  (* the last state of the first column *)
  assert (Hcell_keep : forall i s3 s4,
            (x <- vget init i ;;
             a2 <- cset s3 i 0 (c_rows obs - 1) x ;;
             add_emissions emission obs i 0 (c_rows obs - 1) a2) = Ok s4 ->
            P s3 -> P s4).
  { intros i s3 s4 Hc Hs3. unfold P in *.
    apply bind_ok_inv in Hc. destruct Hc as [x [_ Hc]].
    apply bind_ok_inv in Hc. destruct Hc as [a2 [Hc1 Hc2]].
    rewrite (same_dims_of_outside
               (@add_emissions_same_outside W _ _ _ _ _ _ _ Hc2 I)).
    rewrite (same_dims_of_outside (@cset_same_outside W _ _ _ _ _ _ Hc1 I)).
    exact Hs3. }
  unfold forward_init in Hi.
  destruct (for_loop_ok_inv_with P _ _ _ Hi Ps1
              (fun i s3 s4 _ => Hcell_keep i s3 s4) (c_rows emission - 1))
    as [s3 [s4 [Ps3 Hc]]]; [apply in_seq; lia |].
  apply bind_ok_inv in Hc. destruct Hc as [x [Hx Hc]].
  apply bind_ok_inv in Hc. destruct Hc as [a2 [Hc1 Hc2]].
  apply vget_ok_inv in Hx.
  apply cset_ok_inv in Hc1. destruct Hc1 as [_ [R1 [R2 R3]]].
  unfold P, cube_dims in Ps3. injection Ps3 as D1 D2 D3.
  split; [lia |]. split; [lia |]. split; [lia |]. split; [lia |]. split.
  - intros HC. unfold add_emissions in Hc2.
    destruct (for_loop_ok_inv _ _ _ Hc2 (c_slices obs - 1))
      as [s5 [s6 Hd]]; [apply in_seq; lia |].
    apply bind_ok_inv in Hd. destruct Hd as [o [Ho Hd]].
    apply bind_ok_inv in Hd. destruct Hd as [e [He _]].
    apply cget_ok_inv in Ho. apply cget_sword_ok_inv in He. lia.
  - intros HT HR.
    destruct (for_loop_ok_inv_with P _ _ _ Hl Pa1
                (fun t s5 s6 _ => Hstep_keep (c_rows obs - 1) t s5 s6)
                (c_cols obs - 1))
      as [s5 [s6 [Ps5 Hd]]]; [apply in_seq; lia |].
    unfold forward_step in Hd.
    assert (Hrow_keep : forall i s7 s8,
              (sl <- cslice s7 (c_rows obs - 1) ;;
               prev <- mcol sl (c_cols obs - 1 - 1) ;;
               tr <- mcol transition i ;;
               v <- vadd prev tr ;;
               x0 <- lse v ;;
               a3 <- cset s7 i (c_cols obs - 1) (c_rows obs - 1) x0 ;;
               add_emissions emission obs i (c_cols obs - 1)
                 (c_rows obs - 1) a3) = Ok s8 ->
              P s7 -> P s8).
    { intros i s7 s8 He Hs7. unfold P in *.
      do 5 (apply bind_ok_inv in He; destruct He as [? [_ He]]).
      apply bind_ok_inv in He. destruct He as [a3 [He1 He2]].
      rewrite (same_dims_of_outside
                 (@add_emissions_same_outside W _ _ _ _ _ _ _ He2 I)).
      rewrite (same_dims_of_outside
                 (@cset_same_outside W _ _ _ _ _ _ He1 I)).
      exact Hs7. }
    destruct (for_loop_ok_inv_with P _ _ _ Hd Ps5
                (fun i s7 s8 _ => Hrow_keep i s7 s8) (m_rows transition - 1))
      as [s7 [s8 [Ps7 He]]]; [apply in_seq; lia |].
    apply bind_ok_inv in He. destruct He as [sl [Hsl He]].
    apply bind_ok_inv in He. destruct He as [prev [Hprev He]].
    apply bind_ok_inv in He. destruct He as [trc [Htrc He]].
    apply bind_ok_inv in He. destruct He as [v [Hv He]].
    apply bind_ok_inv in He. destruct He as [x0 [_ He]].
    apply bind_ok_inv in He. destruct He as [a3 [Hcs _]].
    unfold P, cube_dims in Ps7. injection Ps7 as F1 F2 F3.
    apply cset_ok_inv in Hcs. destruct Hcs as [_ [G1 [G2 G3]]].
    assert (Lt := mcol_ok_inv _ _ Htrc).
    unfold cslice in Hsl. destruct (c_rows obs - 1 <? c_slices s7);
      [| discriminate]. injection Hsl as <-.
    unfold mcol in Hprev, Htrc. cbn [m_cols m_rows m_at] in Hprev.
    destruct (c_cols obs - 1 - 1 <? c_cols s7); [| discriminate].
    destruct (m_rows transition - 1 <? m_cols transition); [| discriminate].
    injection Hprev as <-. injection Htrc as <-.
    apply vadd_ok_inv in Hv. destruct Hv as [Hv _].
    rewrite !length_map, !length_seq in Hv. lia.
Qed.

Lemma forward_returns_only_on_witness :
  (exists a',
     internalForward logSumExp ex_transition ex_emission ex_init
       ex_obs_forward ex_alpha = Ok a') /\
  1 <= c_rows ex_obs_forward /\ 1 <= c_rows ex_emission /\
  c_rows ex_emission <= length ex_init /\
  c_rows ex_emission <= c_rows ex_alpha /\
  1 <= c_cols ex_alpha /\
  c_rows ex_obs_forward <= c_slices ex_alpha /\
  (1 <= c_slices ex_obs_forward ->
   1 <= c_cols ex_obs_forward /\
   c_slices ex_obs_forward <= c_slices ex_emission) /\
  (2 <= c_cols ex_obs_forward -> 1 <= m_rows ex_transition ->
   c_rows ex_alpha = m_rows ex_transition /\
   m_rows ex_transition <= m_cols ex_transition /\
   c_cols ex_obs_forward <= c_cols ex_alpha).
Proof.
  assert (Hwf : forward_wf ex_transition ex_emission ex_init ex_obs_forward
                  ex_alpha = true) by reflexivity.
  destruct (forward_wf_inv _ _ _ _ _ Hwf)
    as [Htr [Htc [Hinit [Hch [Hdims [HT Hcodes]]]]]].
  destruct (@internalForward_spec logSumExp ex_transition ex_emission
              ex_init ex_obs_forward logSumExp_total Htr Htc Hinit Hch
              Hcodes ex_alpha Hdims HT) as [a' [E _]].
  split; [exists a'; exact E |].
  split; [simpl; lia |]. split; [simpl; lia |].
  apply (@forward_returns_only_on logSumExp ex_transition ex_emission
           ex_init ex_obs_forward ex_alpha a' E); simpl; lia.
Defined.

(** ** When [viterbix] returns *)

Lemma mset_ok_inv (A : Type) (M M' : mat A) (i j : nat) (x : A) :
  mset M i j x = Ok M' ->
  mat_dims M' = mat_dims M /\ i < m_rows M /\ j < m_cols M.
Proof.
  unfold mset.
  destruct (Nat.ltb_spec i (m_rows M)), (Nat.ltb_spec j (m_cols M));
    cbn [andb]; intros Hx; try discriminate.
  injection Hx as <-. auto.
Qed.

Lemma mset_col_dims (A : Type) (M M' : mat A) (j : nat) (v : list A) :
  mset_col M j v = Ok M' -> mat_dims M' = mat_dims M.
Proof.
  unfold mset_col. destruct (j <? m_cols M); [| discriminate].
  destruct (length v =? m_rows M); [| discriminate].
  intros Hx. injection Hx as <-. reflexivity.
Qed.

Lemma viterbi_init_dims emission init (obs : cube nat) numberOfStates
    lweights (k : nat) (delta d' : mat xreal) :
  viterbi_init emission init obs numberOfStates lweights k delta = Ok d' ->
  mat_dims d' = mat_dims delta.
Proof.
  unfold viterbi_init. intros H.
  apply bind_ok_inv in H. destruct H as [lw [_ H]].
  apply bind_ok_inv in H. destruct H as [w [_ H]].
  apply bind_ok_inv in H. destruct H as [d0 [_ H]].
  apply bind_ok_inv in H. destruct H as [d1 [Hd1 H]].
  apply mset_col_dims in Hd1.
  apply (for_loop_ok_preserve
           (fun s => mat_dims s = mat_dims delta) _ _ _ H Hd1).
  intros r s1 s2 _ Hb Hs1.
  do 5 (apply bind_ok_inv in Hb; destruct Hb as [? [_ Hb]]).
  apply mset_col_dims in Hb. congruence.
Qed.

Lemma viterbi_cell_dims transition emission (obs : cube nat) (k t j : nat)
    (d d' : mat xreal) (p p' : mat nat) :
  viterbi_cell transition emission obs k t j (d, p) = Ok (d', p') ->
  mat_dims d' = mat_dims d /\ mat_dims p' = mat_dims p.
Proof.
  unfold viterbi_cell. intros H.
  apply bind_ok_inv in H. destruct H as [x0 [_ H]].
  apply bind_ok_inv in H. destruct H as [dc [_ H]].
  apply bind_ok_inv in H. destruct H as [tr [_ H]].
  apply bind_ok_inv in H. destruct H as [v [_ H]].
  apply bind_ok_inv in H. destruct H as [[m ix] [_ H]].
  apply bind_ok_inv in H. destruct H as [phi1 [Hp H]].
  apply bind_ok_inv in H. destruct H as [pp [_ H]].
  apply bind_ok_inv in H. destruct H as [a [_ H]].
  apply bind_ok_inv in H. destruct H as [b [_ H]].
  apply bind_ok_inv in H. destruct H as [delta1 [Hd H]].
  apply bind_ok_inv in H. destruct H as [delta2 [Hl H]].
  injection H as <- <-.
  apply mset_ok_inv in Hp. destruct Hp as [Hp _].
  apply mset_ok_inv in Hd. destruct Hd as [Hd _].
  split; [| exact Hp].
  apply (for_loop_ok_preserve (fun s => mat_dims s = mat_dims d) _ _ _ Hl Hd).
  intros r s1 s2 _ Hb Hs1.
  do 3 (apply bind_ok_inv in Hb; destruct Hb as [? [_ Hb]]).
  apply mset_ok_inv in Hb. destruct Hb as [Hb _]. congruence.
Qed.

Lemma viterbi_column_dims transition emission (obs : cube nat) (k t : nat)
    (l : list nat) (st st' : mat xreal * mat nat) :
  for_loop l (viterbi_cell transition emission obs k t) st = Ok st' ->
  mat_dims (fst st') = mat_dims (fst st).
Proof.
  intros H.
  apply (for_loop_ok_preserve
           (fun s => mat_dims (fst s) = mat_dims (fst st)) _ _ _ H eq_refl).
  intros j [d1 p1] [d2 p2] _ Hb Hs1. cbn [fst] in *.
  apply viterbi_cell_dims in Hb. destruct Hb as [Hb _]. congruence.
Qed.

Lemma reparma_from_ok_inv (x : list xreal) (y : list nat) (c : nat)
    (w : list xreal) :
  reparma_from x y c = Ok w -> y <> [] -> c + length y <= length x.
Proof.
  revert c w; induction y as [| n y IH]; intros c w H Hy; [congruence |].
  simpl in H. apply bind_ok_inv in H. destruct H as [xc [Hx H]].
  apply bind_ok_inv in H. destruct H as [rest [Hr _]].
  apply vget_ok_inv in Hx. simpl.
  destruct y as [| n' y']; [simpl; lia |].
  specialize (IH _ _ Hr ltac:(discriminate)). cbn [length] in *. lia.
Qed.

Lemma mcol_ok_length (A : Type) (M : mat A) (j : nat) (v : list A) :
  mcol M j = Ok v -> length v = m_rows M /\ j < m_cols M.
Proof.
  unfold mcol. destruct (Nat.ltb_spec j (m_cols M)); [| discriminate].
  intros Hx. injection Hx as <-. now rewrite length_map, length_seq.
Qed.

Lemma vindex_max_ok_inv (v : list xreal) (ix : nat) :
  vindex_max v = Ok ix -> v <> [].
Proof.
  destruct v; [discriminate | discriminate].
Qed.

(** X6.  A call of [viterbix] on at least one sequence returns only if the
    design matrix has a column per row of [coef] and a row per sequence,
    [coef] has a column per cluster, the batch has a time step, the model
    has a state, the batch has a row per slice of [emission], and, with a
    second time step, [transition] has exactly one row and at least one
    column per state.  Every other shape aborts the call. *)
Theorem viterbix_returns_only_on transition emission init (obs : cube nat)
    numberOfStates coef X (out : mat nat * list xreal) :
  viterbix transition emission init obs numberOfStates coef X = Ok out ->
  1 <= c_slices obs ->
  m_cols X = m_rows coef /\
  c_slices obs <= m_rows X /\
  length numberOfStates <= m_cols coef /\
  1 <= c_cols obs /\
  1 <= c_rows emission /\
  c_slices emission <= c_rows obs /\
  (2 <= c_cols obs ->
   m_rows transition = c_rows emission /\
   c_rows emission <= m_cols transition).
Proof.
  intros H HK. unfold viterbix in H.
  apply bind_ok_inv in H. destruct H as [L [HL H]].
  assert (M1 : m_cols X = m_rows coef).
  { unfold mix_lweights, mmul in HL.
    destruct (Nat.eqb_spec (m_cols X) (m_rows coef)); [assumption |].
    discriminate. }
  destruct (mix_lweights_spec coef X M1) as [L' [EL' [L1 [L2 _]]]].
  assert (L' = L) by congruence. subst L'.
  destruct (for_loop_ok_inv _ _ _ H (c_slices obs - 1)) as [[q0 l0] [s2 Hb]];
    [apply in_seq; lia |].
  apply bind_ok_inv in Hb. destruct Hb as [[d p] [Ht Hp]].
  unfold viterbix_tables in Ht.
  apply bind_ok_inv in Ht. destruct Ht as [d1 [Hi Ht]].
  apply bind_ok_inv in Ht. destruct Ht as [p1 [_ Ht]].
  assert (Hd1 := viterbi_init_dims _ _ _ _ _ _ _ Hi).
  cbn [mat_dims m_rows m_cols mat_new] in Hd1.
  destruct (viterbi_init_ok_inv _ _ _ _ _ _ _ Hi) as [_ [_ HT]].
  cbn [m_cols mat_new] in HT.
  (* the covariates and the clusters *)
  unfold viterbi_init in Hi.
  apply bind_ok_inv in Hi. destruct Hi as [lw [Hlw Hi]].
  apply bind_ok_inv in Hi. destruct Hi as [w [Hw Hi]].
  apply bind_ok_inv in Hi. destruct Hi as [d0 [_ Hi]].
  apply bind_ok_inv in Hi. destruct Hi as [d0' [_ Hi]].
  apply mcol_ok_length in Hlw. destruct Hlw as [Llw Klw].
  assert (Hns : length numberOfStates <= m_cols coef).
  { destruct numberOfStates as [| n ns]; [simpl; lia |].
    apply reparma_from_ok_inv in Hw; [| discriminate]. lia. }
  (* the channels *)
  assert (Hch : c_slices emission <= c_rows obs).
  { destruct (Nat.eq_dec (c_slices emission) 0) as [-> | Hne]; [lia |].
    destruct (for_loop_ok_inv _ _ _ Hi (c_slices emission - 1))
      as [s3 [s4 Hc]]; [apply in_seq; lia |].
    apply bind_ok_inv in Hc. destruct Hc as [o [Ho _]].
    apply cget_ok_inv in Ho. lia. }
  (* the shape of the tables *)
  pose (P := fun st : mat xreal * mat nat =>
               mat_dims (fst st) = (c_rows emission, c_cols obs)).
  assert (Hcol_keep : forall t s3 s4,
            for_loop (seq 0 (c_rows emission))
              (viterbi_cell transition emission obs (c_slices obs - 1) t) s3
              = Ok s4 -> P s3 -> P s4).
  { intros t s3 s4 Hc Hs3. unfold P in *.
    rewrite (viterbi_column_dims _ _ _ _ _ _ _ Hc). exact Hs3. }
  assert (Pd : P (d, p)).
  { apply (for_loop_ok_preserve P _ _ _ Ht); [exact Hd1 |].
    intros t s3 s4 _. apply Hcol_keep. }
  unfold P in Pd. cbn [fst] in Pd. injection Pd as D1 D2.
  (* the states *)
  assert (HS : 1 <= c_rows emission).
  { unfold viterbi_path in Hp.
    apply bind_ok_inv in Hp. destruct Hp as [last [Hlast Hp]].
    apply bind_ok_inv in Hp. destruct Hp as [ix [Hix _]].
    apply mcol_ok_length in Hlast. destruct Hlast as [Ll _].
    apply vindex_max_ok_inv in Hix.
    destruct last; [congruence | simpl in Ll; lia]. }
  repeat (split; [first [assumption | lia] |]).
  (* the transition matrix *)
  intros HT2.
  destruct (for_loop_ok_inv_with P _ _ _ Ht Hd1
              (fun t s3 s4 _ => Hcol_keep t s3 s4) 1)
    as [s3 [s4 [Ps3 Hc]]]; [apply in_seq; lia |].
  assert (Hcell_keep : forall j s5 s6,
            viterbi_cell transition emission obs (c_slices obs - 1) 1 j s5
              = Ok s6 -> P s5 -> P s6).
  { intros j [d5 p5] [d6 p6] Hc5 Hs5. unfold P in *. cbn [fst] in *.
    apply viterbi_cell_dims in Hc5. destruct Hc5 as [Hc5 _]. congruence. }
  destruct (for_loop_ok_inv_with P _ _ _ Hc Ps3
              (fun j s5 s6 _ => Hcell_keep j s5 s6) (c_rows emission - 1))
    as [[d5 p5] [s6 [Ps5 Hcell]]]; [apply in_seq; lia |].
  unfold P in Ps5. cbn [fst] in Ps5. injection Ps5 as E1 E2.
  unfold viterbi_cell in Hcell.
  apply bind_ok_inv in Hcell. destruct Hcell as [x0 [_ Hcell]].
  apply bind_ok_inv in Hcell. destruct Hcell as [dc [Hdc Hcell]].
  apply bind_ok_inv in Hcell. destruct Hcell as [tr [Htr Hcell]].
  apply bind_ok_inv in Hcell. destruct Hcell as [v [Hv _]].
  apply mcol_ok_length in Hdc. destruct Hdc as [Ldc _].
  apply mcol_ok_length in Htr. destruct Htr as [Ltr Ktr].
  apply vadd_ok_inv in Hv. destruct Hv as [Hv _]. lia.
Qed.

Lemma viterbix_returns_only_on_witness :
  (exists out,
     viterbix ex_transition ex_emission ex_init ex_obs_viterbi ex_clusters
       ex_coef ex_X = Ok out) /\
  1 <= c_slices ex_obs_viterbi /\
  m_cols ex_X = m_rows ex_coef /\
  c_slices ex_obs_viterbi <= m_rows ex_X /\
  length ex_clusters <= m_cols ex_coef /\
  1 <= c_cols ex_obs_viterbi /\
  1 <= c_rows ex_emission /\
  c_slices ex_emission <= c_rows ex_obs_viterbi /\
  (2 <= c_cols ex_obs_viterbi ->
   m_rows ex_transition = c_rows ex_emission /\
   c_rows ex_emission <= m_cols ex_transition).
Proof.
  assert (Hwf : viterbix_wf ex_transition ex_emission ex_init ex_obs_viterbi
                  ex_clusters ex_coef ex_X = true) by reflexivity.
  destruct (viterbix_spec _ _ _ _ _ _ _ Hwf) as [L [q [logp [_ [E _]]]]].
  split; [exists (q, logp); exact E |]. split; [simpl; lia |].
  apply (@viterbix_returns_only_on ex_transition ex_emission ex_init
           ex_obs_viterbi ex_clusters ex_coef ex_X (q, logp) E).
  simpl; lia.
Defined.

(** ** The mixture log-weights *)

(** X7.  For real covariates and coefficients, as long as nothing in lines
    14-15 leaves the range of doubles, every mixture log-weight is a real
    number and at most 0; the matrix has a row per cluster and a column per
    sequence. *)
Theorem lweights_real_nonpositive (coef X : mat xreal) :
  m_cols X = m_rows coef ->
  mixture_values coef X = true ->
  softmax_in_range coef X ->
  exists lweights, mix_lweights coef X = Ok lweights /\
    mat_dims lweights = (m_cols coef, m_rows X) /\
    forall c k, c < m_cols coef -> k < m_rows X ->
      exists r, m_at lweights c k = Fin r /\ (r <= 0)%R.
Proof.
  intros Hd Hv Hr.
  destruct (mix_lweights_spec coef X Hd) as [L [EL [L1 [L2 HL]]]].
  exists L. split; [exact EL |]. split; [unfold mat_dims; congruence |].
  intros c k Hc Hk.
  assert (Hcl : 1 <= m_cols coef) by lia.
  rewrite HL by assumption.
  rewrite (@lweight_fin coef X Hd Hv Hcl Hr c k Hk Hc).
  eexists; split; [reflexivity |].
  apply ln_le_0. split; [now apply softmax_pos | now apply softmax_le_1].
Qed.

Lemma ex2_X2_in_range : softmax_in_range ex_coef2 ex_X2.
Proof.
  fixture_in_range.
Qed.

Lemma lweights_real_nonpositive_witness :
  m_cols ex_X2 = m_rows ex_coef2 /\
  mixture_values ex_coef2 ex_X2 = true /\
  softmax_in_range ex_coef2 ex_X2 /\
  exists lweights, mix_lweights ex_coef2 ex_X2 = Ok lweights /\
    mat_dims lweights = (m_cols ex_coef2, m_rows ex_X2) /\
    forall c k, c < m_cols ex_coef2 -> k < m_rows ex_X2 ->
      exists r, m_at lweights c k = Fin r /\ (r <= 0)%R.
Proof.
  split; [reflexivity |]. split; [reflexivity |].
  split; [exact ex2_X2_in_range |].
  apply (@lweights_real_nonpositive ex_coef2 ex_X2);
    [reflexivity | reflexivity | exact ex2_X2_in_range].
Defined.

Lemma Rsum_const (A : Type) (e : R) (l : list A) :
  Rsum (map (fun _ => e) l) = (INR (length l) * e)%R.
Proof.
  induction l as [| x l IH]; [simpl; lra |].
  cbn [map Rsum fold_right length]. fold (Rsum (map (fun _ : A => e) l)).
  rewrite IH, S_INR. lra.
Qed.

(** X8.  When every cluster has the same coefficients (the columns of [coef]
    are equal), and as long as nothing in lines 14-15 leaves the range of
    doubles, each of the [M] clusters gets the log-weight [- log M] for
    every sequence. *)
Theorem equal_coefficients_uniform_weights (coef X : mat xreal) :
  m_cols X = m_rows coef ->
  mixture_values coef X = true ->
  softmax_in_range coef X ->
  (forall p c, p < m_rows coef -> c < m_cols coef ->
     m_at coef p c = m_at coef p 0) ->
  exists lweights, mix_lweights coef X = Ok lweights /\
    forall c k, c < m_cols coef -> k < m_rows X ->
      m_at lweights c k = Fin (- ln (INR (m_cols coef))).
Proof.
  intros Hd Hv Hr Heq.
  destruct (mix_lweights_spec coef X Hd) as [L [EL [L1 [L2 HL]]]].
  exists L. split; [exact EL |]. intros c k Hc Hk.
  assert (Hcl : 1 <= m_cols coef) by lia.
  assert (Hlin : forall c0, c0 < m_cols coef ->
            predictor coef X k c0 = predictor coef X k 0).
  { intros c0 Hc0. unfold predictor. f_equal. apply map_ext_in.
    intros p Hp. apply in_seq in Hp. rewrite Heq by lia. reflexivity. }
  rewrite HL by assumption.
  rewrite (@lweight_fin coef X Hd Hv Hcl Hr c k Hk Hc).
  unfold softmax, partition. rewrite (Hlin c Hc).
  assert (Em : map (fun c0 => exp (predictor coef X k c0))
                 (seq 0 (m_cols coef))
               = map (fun _ => exp (predictor coef X k 0))
                   (seq 0 (m_cols coef))).
  { apply map_ext_in. intros c0 Hc0. apply in_seq in Hc0.
    rewrite Hlin by lia. reflexivity. }
  rewrite Em, Rsum_const, length_seq. f_equal.
  pose proof (exp_pos (predictor coef X k 0)) as He.
  assert (HM : (0 < INR (m_cols coef))%R) by (apply lt_0_INR; lia).
  replace (exp (predictor coef X k 0)
           / (INR (m_cols coef) * exp (predictor coef X k 0)))%R
    with (/ INR (m_cols coef))%R by (field; lra).
  now apply ln_Rinv.
Qed.

Lemma ex_equal_in_range : softmax_in_range ex_coef_equal ex_X2.
Proof.
  fixture_in_range.
Qed.

Lemma equal_coefficients_uniform_weights_witness :
  m_cols ex_X2 = m_rows ex_coef_equal /\
  mixture_values ex_coef_equal ex_X2 = true /\
  softmax_in_range ex_coef_equal ex_X2 /\
  (forall p c, p < m_rows ex_coef_equal -> c < m_cols ex_coef_equal ->
     m_at ex_coef_equal p c = m_at ex_coef_equal p 0) /\
  exists lweights, mix_lweights ex_coef_equal ex_X2 = Ok lweights /\
    forall c k, c < m_cols ex_coef_equal -> k < m_rows ex_X2 ->
      m_at lweights c k = Fin (- ln (INR (m_cols ex_coef_equal))).
Proof.
  assert (Heq : forall p c,
            p < m_rows ex_coef_equal -> c < m_cols ex_coef_equal ->
            m_at ex_coef_equal p c = m_at ex_coef_equal p 0).
  { intros p c Hp Hc. simpl in Hp, Hc.
    destruct p as [| p]; [| lia].
    destruct c as [| [| [| c]]]; try reflexivity. lia. }
  split; [reflexivity |]. split; [reflexivity |].
  split; [exact ex_equal_in_range |]. split; [exact Heq |].
  apply (@equal_coefficients_uniform_weights ex_coef_equal ex_X2);
    [reflexivity | reflexivity | exact ex_equal_in_range | exact Heq].
Defined.

Lemma Rsum_scale_r (A : Type) (f : A -> R) (s : R) (l : list A) :
  Rsum (map (fun x => (f x * s)%R) l) = (Rsum (map f l) * s)%R.
Proof.
  unfold Rsum. induction l as [| x l IH]; simpl; [lra |].
  rewrite IH. lra.
Qed.

(** a sum of non-negative doubles one of which is [+inf] *)
Lemma fold_xadd_pinf (l : list xreal) (acc : xreal) :
  (acc = PInf \/ exists r, acc = Fin r) ->
  Forall (fun x => x = PInf \/ exists r, x = Fin r) l ->
  acc = PInf \/ In PInf l ->
  fold_left xadd l acc = PInf.
Proof.
  revert acc; induction l as [| x l IH]; intros acc Hacc Hall Hin.
  - destruct Hin as [-> | []]. reflexivity.
  - inversion Hall as [| ? ? Hx Hl]; subst. cbn [fold_left].
    apply IH; [| exact Hl |].
    + destruct Hacc as [-> | [r ->]], Hx as [-> | [s ->]]; simpl; eauto.
    + destruct Hin as [-> | [-> | Hin]].
      * left. destruct Hx as [-> | [s ->]]; reflexivity.
      * left. destruct Hacc as [-> | [r ->]]; reflexivity.
      * now right.
Qed.

(** X9.  Lines 14-16 exponentiate the linear predictor as it is.  For real
    covariates and coefficients whose product [X * coef] is in the range
    of doubles: when the exponential of the predictor of cluster [c0] for
    sequence [k] is beyond the largest double, the log-weight of [c0] is
    NaN ([inf / inf]), and every cluster of that sequence whose exponential
    is not beyond it gets the log-weight [-inf] ([x / inf = 0]). *)
Theorem lweights_overflow (coef X : mat xreal) (k c0 : nat) :
  m_cols X = m_rows coef ->
  mixture_values coef X = true ->
  product_in_range coef X ->
  k < m_rows X -> c0 < m_cols coef ->
  (dbl_max < exp (predictor coef X k c0))%R ->
  exists lweights, mix_lweights coef X = Ok lweights /\
    m_at lweights c0 k = NaN /\
    forall c, c < m_cols coef ->
      (exp (predictor coef X k c) <= dbl_max)%R ->
      m_at lweights c k = NInf.
Proof.
  intros Hd Hv Hp Hk Hc0 Hover.
  destruct (mix_lweights_spec coef X Hd) as [L [EL [L1 [L2 HL]]]].
  exists L. split; [exact EL |].
  assert (He : forall c, c < m_cols coef ->
            xexp (lin_pred coef X k c) = xrange (exp (predictor coef X k c))).
  { intros c Hc. now rewrite (@lin_pred_val coef X k c Hd Hv Hp Hk Hc). }
  assert (Hcases : forall c, c < m_cols coef ->
            xexp (lin_pred coef X k c) = PInf \/
            exists r, xexp (lin_pred coef X k c) = Fin r).
  { intros c Hc. rewrite (He c Hc).
    destruct (@xrange_nonneg (exp (predictor coef X k c)))
      as [[E _] | [[E _] | [E _]]];
      [left; apply exp_pos | | |]; rewrite E; eauto. }
  assert (Hsum : xsum (map (fun c' => xexp (lin_pred coef X k c'))
                           (seq 0 (m_cols coef))) = PInf).
  { unfold xsum. apply fold_xadd_pinf.
    - right. eauto.
    - apply Forall_forall. intros x Hx. apply in_map_iff in Hx.
      destruct Hx as [c [<- Hc]]. apply in_seq in Hc. apply Hcases. lia.
    - right. apply in_map_iff. exists c0. split.
      + rewrite (He c0 Hc0). now apply xrange_overflow.
      + apply in_seq. lia. }
  split.
  - rewrite HL by assumption. unfold mix_weight. rewrite Hsum.
    rewrite (He c0 Hc0), xrange_overflow by assumption. reflexivity.
  - intros c Hc Hle. rewrite HL by assumption. unfold mix_weight.
    rewrite Hsum, (He c Hc).
    destruct (@xrange_nonneg (exp (predictor coef X k c)))
      as [[_ H1] | [[E _] | [E _]]];
      [left; apply exp_pos | lra | |]; rewrite E; cbn [xdiv xlog];
      unfold Rsign;
      (destruct (Rlt_dec 0 0); [lra | reflexivity]).
Qed.

Lemma overflow_product_in_range : product_in_range overflow_coef ex_X.
Proof.
  intros k c Hk Hc. simpl in Hk, Hc. small_index k. small_index c.
  - simpl. rewrite Rabs_pos_eq by lra. pose proof dbl_max_ge_1. lra.
  - simpl. rewrite Rabs_pos_eq by lra.
    apply Rle_trans with (2 := dbl_max_ge_pow).
    apply Rle_trans with (2 ^ 10)%R; [simpl; lra | apply pow2_le; lia].
Qed.

Lemma lweights_overflow_witness :
  m_cols ex_X = m_rows overflow_coef /\
  mixture_values overflow_coef ex_X = true /\
  product_in_range overflow_coef ex_X /\
  0 < m_rows ex_X /\ 1 < m_cols overflow_coef /\
  (dbl_max < exp (predictor overflow_coef ex_X 0 1))%R /\
  exists lweights, mix_lweights overflow_coef ex_X = Ok lweights /\
    m_at lweights 1 0 = NaN /\ m_at lweights 0 0 = NInf.
Proof.
  assert (Ho : (dbl_max < exp (predictor overflow_coef ex_X 0 1))%R).
  { replace (predictor overflow_coef ex_X 0 1) with 1000%R
      by (unfold predictor; simpl; lra).
    exact exp_1000_overflows. }
  assert (Hk : 0 < m_rows ex_X) by (simpl; lia).
  assert (Hc : 1 < m_cols overflow_coef) by (simpl; lia).
  split; [reflexivity |]. split; [reflexivity |].
  split; [exact overflow_product_in_range |].
  split; [exact Hk |]. split; [exact Hc |]. split; [exact Ho |].
  destruct (@lweights_overflow overflow_coef ex_X 0 1 eq_refl eq_refl
              overflow_product_in_range Hk Hc Ho) as [L [EL [Hn Hi]]].
  exists L. split; [exact EL |]. split; [exact Hn |].
  apply Hi; [simpl; lia |].
  replace (predictor overflow_coef ex_X 0 0) with 0%R
    by (unfold predictor; simpl; lra).
  rewrite exp_0. exact dbl_max_ge_1.
Defined.

(** X14.  For real covariates and coefficients whose product [X * coef] is
    in the range of doubles: when the exponential of the predictor of
    cluster [c] for sequence [k] is below the smallest positive double, no
    exponential of that sequence is beyond the largest double, and the
    exponential of some cluster is in the range, the weight of [c] is
    [0 / sum] and its log-weight [-inf]. *)
Theorem lweights_underflow (coef X : mat xreal) (k c : nat) :
  m_cols X = m_rows coef ->
  mixture_values coef X = true ->
  product_in_range coef X ->
  k < m_rows X -> c < m_cols coef ->
  (exp (predictor coef X k c) < dbl_tiny)%R ->
  (forall c', c' < m_cols coef ->
     (exp (predictor coef X k c') <= dbl_max)%R) ->
  (exists c1, c1 < m_cols coef /\
     (dbl_tiny <= exp (predictor coef X k c1))%R) ->
  exists lweights, mix_lweights coef X = Ok lweights /\
    m_at lweights c k = NInf.
Proof.
  intros Hd Hv Hprod Hk Hc Hunder Hmax [c1 [Hc1 Hin]].
  destruct (mix_lweights_spec coef X Hd) as [L [EL [L1 [L2 HL]]]].
  exists L. split; [exact EL |].
  assert (He : forall c', c' < m_cols coef ->
            xexp (lin_pred coef X k c')
              = xrange (exp (predictor coef X k c'))).
  { intros c' Hc'. now rewrite (@lin_pred_val coef X k c' Hd Hv Hprod Hk Hc'). }
  pose (f := fun c' => xval (xexp (lin_pred coef X k c'))).
  assert (Hf : forall c', c' < m_cols coef ->
            xexp (lin_pred coef X k c') = Fin (f c') /\ (0 <= f c')%R).
  { intros c' Hc'. unfold f. rewrite (He c' Hc').
    pose proof (exp_pos (predictor coef X k c')) as Hp.
    pose proof (Hmax c' Hc') as Hm.
    destruct (@xrange_nonneg (exp (predictor coef X k c')))
      as [[_ H1] | [[E _] | [E _]]];
      [lra | lra | |]; rewrite E; cbn [xval]; (split; [reflexivity | lra]). }
  assert (Em : map (fun c' => xexp (lin_pred coef X k c'))
                 (seq 0 (m_cols coef))
               = map (fun c' => Fin (f c')) (seq 0 (m_cols coef))).
  { apply map_ext_in. intros c' Hc'. apply in_seq in Hc'.
    apply Hf. lia. }
  assert (Hpos : (0 < Rsum (map f (seq 0 (m_cols coef))))%R).
  { apply Rsum_pos_in with (y := c1).
    - intros x Hx. apply in_seq in Hx. apply Hf. lia.
    - apply in_seq. lia.
    - unfold f. rewrite (He c1 Hc1), xrange_id.
      + cbn [xval]. apply exp_pos.
      + split; [exact Hin | now apply Hmax]. }
  rewrite HL by assumption. unfold mix_weight.
  rewrite Em, xsum_map_Fin, (He c Hc), xrange_underflow
    by (split; [left; apply exp_pos | exact Hunder]).
  unfold xdiv. rewrite (Rsign_pos Hpos).
  replace (0 / Rsum (map f (seq 0 (m_cols coef))))%R with 0%R
    by (field; lra).
  rewrite xrange_underflow by (pose proof dbl_tiny_pos; lra).
  unfold xlog, Rsign.
  destruct (Rlt_dec 0 0); [lra | reflexivity].
Qed.

Lemma underflow_product_in_range : product_in_range underflow_coef ex_X.
Proof.
  intros k c Hk Hc. simpl in Hk, Hc. small_index k. small_index c.
  - simpl. rewrite Rabs_pos_eq by lra. pose proof dbl_max_ge_1. lra.
  - simpl. replace (1 * -1000)%R with (- (1000))%R by lra.
    rewrite Rabs_Ropp, Rabs_pos_eq by lra.
    apply Rle_trans with (2 := dbl_max_ge_pow).
    apply Rle_trans with (2 ^ 10)%R; [simpl; lra | apply pow2_le; lia].
Qed.

Lemma lweights_underflow_witness :
  m_cols ex_X = m_rows underflow_coef /\
  mixture_values underflow_coef ex_X = true /\
  product_in_range underflow_coef ex_X /\
  0 < m_rows ex_X /\ 1 < m_cols underflow_coef /\
  (exp (predictor underflow_coef ex_X 0 1) < dbl_tiny)%R /\
  (forall c', c' < m_cols underflow_coef ->
     (exp (predictor underflow_coef ex_X 0 c') <= dbl_max)%R) /\
  (exists c1, c1 < m_cols underflow_coef /\
     (dbl_tiny <= exp (predictor underflow_coef ex_X 0 c1))%R) /\
  exists lweights, mix_lweights underflow_coef ex_X = Ok lweights /\
    m_at lweights 1 0 = NInf.
Proof.
  assert (E0 : predictor underflow_coef ex_X 0 0 = 0%R)
    by (unfold predictor; simpl; lra).
  assert (E1 : predictor underflow_coef ex_X 0 1 = Ropp 1000)
    by (unfold predictor; simpl; lra).
  assert (Hu : (exp (predictor underflow_coef ex_X 0 1) < dbl_tiny)%R).
  { rewrite E1, exp_Ropp. unfold dbl_tiny.
    apply Rinv_lt_contravar.
    - apply Rmult_lt_0_compat; [apply pow2_pos | apply exp_pos].
    - apply Rlt_le_trans with (2 := exp_1000_ge_pow).
      apply Rlt_pow; [lra | lia]. }
  assert (Hm : forall c', c' < m_cols underflow_coef ->
            (exp (predictor underflow_coef ex_X 0 c') <= dbl_max)%R).
  { intros c' Hc'. simpl in Hc'. pose proof dbl_max_ge_1 as H1.
    destruct c' as [| [| c']]; [| | lia].
    - rewrite E0, exp_0. exact H1.
    - pose proof dbl_tiny_le_1. lra. }
  assert (Hi : exists c1, c1 < m_cols underflow_coef /\
            (dbl_tiny <= exp (predictor underflow_coef ex_X 0 c1))%R).
  { exists 0. split; [simpl; lia |]. rewrite E0, exp_0.
    exact dbl_tiny_le_1. }
  assert (Hk : 0 < m_rows ex_X) by (simpl; lia).
  assert (Hc : 1 < m_cols underflow_coef) by (simpl; lia).
  split; [reflexivity |]. split; [reflexivity |].
  split; [exact underflow_product_in_range |].
  split; [exact Hk |]. split; [exact Hc |]. split; [exact Hu |].
  split; [exact Hm |]. split; [exact Hi |].
  exact (@lweights_underflow underflow_coef ex_X 0 1 eq_refl eq_refl
           underflow_product_in_range Hk Hc Hu Hm Hi).
Defined.

(** ** What the entries of [delta] are *)

Section DeltaMeaning.
Variable transition : mat xreal.
Variable emission : cube xreal.
Variable init : list xreal.
Variable obs : cube nat.
Variable numberOfStates : list nat.
Variable lweights : mat xreal.

Let dcol := delta_col transition emission init obs numberOfStates lweights.
Let score := prefix_score transition emission init obs numberOfStates lweights.

(** a state sequence ending in [j] scores [delta(j,t)]: follow the
    backpointers *)
Lemma dcol_attained (k t : nat) :
  forall j, j < c_rows emission ->
    exists pf : nat -> nat,
      (forall u, pf u < c_rows emission) /\
      pf t = j /\ score k pf t = dcol k t j.
Proof.
  induction t as [| t IH]; intros j Hj.
  - exists (fun _ => j). split; [auto |]. split; reflexivity.
  - set (p := phi_col transition emission init obs numberOfStates lweights
                k (S t) j).
    assert (Hp : p < c_rows emission).
    { unfold p, phi_col. fold dcol.
      pose proof (@argmax_lt (viterbi_terms transition emission (dcol k t) j))
        as Hlt.
      unfold viterbi_terms in Hlt at 3.
      rewrite length_map, length_seq in Hlt. apply Hlt.
      unfold viterbi_terms. destruct (c_rows emission); [lia | discriminate]. }
    destruct (IH p Hp) as [pf [Hv [Ep Hs]]].
    exists (fun u => if u =? S t then j else pf u). split; [| split].
    + intros u. destruct (u =? S t); auto.
    + now rewrite Nat.eqb_refl.
    + unfold score, dcol. cbn [prefix_score]. rewrite delta_col_S.
      rewrite Nat.eqb_refl.
      replace (t =? S t) with false by (symmetry; apply Nat.eqb_neq; lia).
      fold score dcol p. rewrite Ep.
      rewrite <- Hs. do 2 f_equal. unfold score.
      apply prefix_score_ext. intros u Hu.
      replace (u =? S t) with false by (symmetry; apply Nat.eqb_neq; lia).
      reflexivity.
Qed.
End DeltaMeaning.

(** X10.  On well-formed input whose parameters are log-probabilities and
    whose computed mixture log-weights hold no NaN and no [+inf], the entry
    [delta(j,t)] of the table of sequence [k] is the largest joint
    log-probability of the
    first [t+1] observations with a state sequence that ends in [j]: some
    sequence of valid states ending in [j] has exactly that joint
    log-probability, and no such sequence has a larger one. *)
Theorem delta_is_best_prefix transition emission init obs numberOfStates
    coef X :
  viterbix_wf transition emission init obs numberOfStates coef X = true ->
  viterbix_values transition emission init coef X = true ->
  exists lweights, mix_lweights coef X = Ok lweights /\
    forall k, k < c_slices obs ->
      exists delta phi,
        viterbix_tables transition emission init obs numberOfStates
          lweights k = Ok (delta, phi) /\
        forall j t, j < c_rows emission -> t < c_cols obs ->
          let joint :=
            joint_logprob transition emission init obs numberOfStates
              lweights k in
          (exists p, length p = S t /\
             Forall (fun s => s < c_rows emission) p /\
             nth t p 0 = j /\ joint p = m_at delta j t) /\
          (forall p, length p = S t ->
             Forall (fun s => s < c_rows emission) p ->
             nth t p 0 = j -> xle (joint p) (m_at delta j t)).
Proof.
  intros Hwf Hval. unfold viterbix_values in Hval.
  apply andb_true_iff in Hval. destruct Hval as [Hvv Hmv].
  destruct (viterbix_run _ _ _ _ _ _ _ Hwf Hmv)
    as [L [q [logp [EL [L1 [Lfin [_ [E V]]]]]]]].
  exists L. split; [exact EL |].
  intros k Hk. destruct (V k Hk) as [_ [_ [delta [phi [Et Vt]]]]].
  exists delta, phi. split; [exact Et |].
  intros j t Hj Ht joint.
  assert (Hs : viterbi_shape transition emission init obs numberOfStates = true).
  { unfold viterbix_wf in Hwf. now apply andb_true_iff in Hwf. }
  destruct (Vt j t Hj Ht) as [Ed _]. rewrite Ed. split.
  - destruct (@dcol_attained transition emission init obs numberOfStates L
                k t j Hj) as [pf [Hv [Ep Hsc]]].
    exists (map pf (seq 0 (S t))).
    assert (Hlen : length (map pf (seq 0 (S t))) = S t)
      by now rewrite length_map, length_seq.
    split; [exact Hlen |]. split; [| split].
    + apply Forall_forall. intros s Hin. apply in_map_iff in Hin.
      destruct Hin as [u [<- _]]. apply Hv.
    + rewrite nth_map_seq by lia. exact Ep.
    + unfold joint. rewrite joint_logprob_score by lia. rewrite Hlen.
      replace (S t - 1) with t by lia. rewrite <- Hsc.
      apply prefix_score_ext. intros u Hu. apply nth_map_seq. lia.
  - intros p Hp Hall Hlast. unfold joint.
    rewrite joint_logprob_score by lia. rewrite Hp.
    replace (S t - 1) with t by lia.
    set (pf := fun u => nth u p 0).
    assert (Hpf : forall u, pf u < c_rows emission).
    { intros u. unfold pf.
      destruct (Nat.lt_ge_cases u (length p)) as [Hu | Hu].
      - rewrite Forall_forall in Hall. now apply Hall, nth_In.
      - rewrite nth_overflow by assumption. lia. }
    rewrite <- Hlast. change (nth t p 0) with (pf t).
    apply (@score_le_dcol transition emission init obs numberOfStates L
             Hs Hvv L1 Lfin k pf); auto.
Qed.

Lemma delta_is_best_prefix_witness :
  viterbix_wf ex_transition ex_emission ex_init ex_obs_viterbi ex_clusters
    ex_coef ex_X = true /\
  viterbix_values ex_transition ex_emission ex_init ex_coef ex_X = true /\
  exists lweights, mix_lweights ex_coef ex_X = Ok lweights /\
    forall k, k < c_slices ex_obs_viterbi ->
      exists delta phi,
        viterbix_tables ex_transition ex_emission ex_init ex_obs_viterbi
          ex_clusters lweights k = Ok (delta, phi) /\
        forall j t, j < c_rows ex_emission -> t < c_cols ex_obs_viterbi ->
          let joint :=
            joint_logprob ex_transition ex_emission ex_init ex_obs_viterbi
              ex_clusters lweights k in
          (exists p, length p = S t /\
             Forall (fun s => s < c_rows ex_emission) p /\
             nth t p 0 = j /\ joint p = m_at delta j t) /\
          (forall p, length p = S t ->
             Forall (fun s => s < c_rows ex_emission) p ->
             nth t p 0 = j -> xle (joint p) (m_at delta j t)).
Proof.
  split; [reflexivity |]. split; [exact ex_values |].
  apply (@delta_is_best_prefix ex_transition ex_emission ex_init
           ex_obs_viterbi ex_clusters ex_coef ex_X);
    [reflexivity | exact ex_values].
Defined.

(** ** What the entries of [alpha] are *)

Lemma Rsum_app (l1 l2 : list R) : Rsum (l1 ++ l2) = (Rsum l1 + Rsum l2)%R.
Proof.
  unfold Rsum. induction l1 as [| x l1 IH]; simpl; [lra |].
  rewrite IH. lra.
Qed.

Lemma Rsum_flat_map (A B : Type) (f : B -> R) (g : A -> list B)
    (l : list A) :
  Rsum (map f (flat_map g l)) = Rsum (map (fun j => Rsum (map f (g j))) l).
Proof.
  induction l as [| x l IH]; [reflexivity |].
  cbn [flat_map map]. rewrite map_app, Rsum_app, IH. reflexivity.
Qed.

Lemma xsum_fin (l : list xreal) :
  Forall (fun x => is_fin x = true) l -> xsum l = Fin (Rsum (map xval l)).
Proof.
  induction 1 as [| x l Hx _ IH]; [reflexivity |].
  rewrite xsum_cons, IH. destruct x; simpl in *; congruence.
Qed.

(** the state sequences of a given length, each one once *)
Lemma all_paths_spec (n_states n : nat) (p : list nat) :
  In p (all_paths n_states n) <->
  length p = n /\ Forall (fun s => s < n_states) p.
Proof.
  revert p; induction n as [| n IH]; intros p; cbn [all_paths].
  - split.
    + intros [<- | []]. split; [reflexivity | constructor].
    + intros [Hl _]. destruct p; [now left | discriminate].
  - rewrite in_flat_map. split.
    + intros [j [Hj Hp]]. apply in_seq in Hj. apply in_map_iff in Hp.
      destruct Hp as [p' [<- Hp']]. apply IH in Hp'. destruct Hp' as [Hl Hf].
      split; [rewrite length_app; simpl; lia |].
      apply Forall_app. split; [assumption |]. constructor; [lia | constructor].
    + intros [Hl Hf].
      destruct (exists_last (l := p)) as [p' [j ->]];
        [destruct p; discriminate |].
      rewrite length_app in Hl. simpl in Hl.
      apply Forall_app in Hf. destruct Hf as [Hf1 Hf2].
      inversion Hf2; subst.
      exists j. split; [apply in_seq; lia |].
      apply in_map_iff. exists p'. split; [reflexivity |].
      apply IH. split; [lia | assumption].
Qed.

Lemma NoDup_map_snoc (j : nat) (L : list (list nat)) :
  NoDup L -> NoDup (map (fun p => p ++ [j]) L).
Proof.
  induction 1 as [| p L Hp _ IH]; cbn [map]; constructor; [| exact IH].
  intros Hin. apply in_map_iff in Hin. destruct Hin as [p' [E Hp']].
  apply app_inj_tail in E. destruct E as [-> _]. contradiction.
Qed.

Lemma all_paths_NoDup (n_states n : nat) : NoDup (all_paths n_states n).
Proof.
  induction n as [| n IH]; cbn [all_paths].
  - constructor; [intros [] | constructor].
  - pose proof (seq_NoDup n_states 0) as Hs.
    induction Hs as [| j js Hj _ IHs]; cbn [flat_map]; [constructor |].
    apply NoDup_app; [now apply NoDup_map_snoc | exact IHs |].
    intros p Hp Hq. apply in_map_iff in Hp. destruct Hp as [p' [<- _]].
    apply in_flat_map in Hq. destruct Hq as [j' [Hj' Hq]].
    apply in_map_iff in Hq. destruct Hq as [q' [E _]].
    apply app_inj_tail in E. destruct E as [_ ->]. contradiction.
Qed.

Lemma all_paths_nonempty (n_states n : nat) :
  1 <= n_states -> all_paths n_states n <> [].
Proof.
  intros HS Hnil.
  assert (Hin : In (repeat 0 n) (all_paths n_states n)).
  { apply all_paths_spec. split; [apply repeat_length |].
    apply Forall_forall. intros s Hs. apply repeat_spec in Hs. lia. }
  rewrite Hnil in Hin. contradiction.
Qed.

Lemma lse_real_total : lse_total lse_real.
Proof.
  intros [| x v] Hv; [congruence |]. unfold lse_real. eauto.
Qed.

Lemma lse_real_exact : lse_exact lse_real.
Proof.
  intros [| x v] Hv _; [congruence |]. reflexivity.
Qed.

Lemma forward_finite_inv transition emission init :
  forward_finite transition emission init = true ->
  (forall i, i < c_rows emission -> is_fin (nth i init NaN) = true) /\
  (forall i j, i < c_rows emission -> j < c_rows emission ->
     is_fin (m_at transition i j) = true) /\
  (forall i o r, i < c_rows emission -> o < c_cols emission ->
     r < c_slices emission -> is_fin (c_at emission i o r) = true).
Proof.
  unfold forward_finite. intros H.
  assert (H' : forall i, i < c_rows emission ->
    is_fin (nth i init NaN) = true /\
    (forall j, j < c_rows emission -> is_fin (m_at transition i j) = true) /\
    (forall o r, o < c_cols emission -> r < c_slices emission ->
       is_fin (c_at emission i o r) = true)).
  { intros i Hi. rewrite all_lt_spec in H. specialize (H i Hi).
    rewrite !andb_true_iff in H. destruct H as [[H1 H2] H3].
    split; [assumption |]. split.
    - intros j Hj. rewrite all_lt_spec in H2. now apply H2.
    - intros o r Ho Hr. rewrite all_lt_spec in H3. specialize (H3 o Ho).
      rewrite all_lt_spec in H3. now apply H3. }
  repeat split; intros; now apply H'.
Qed.

Section ForwardMeaning.
Variable lse : list xreal -> res xreal.
Variable transition : mat xreal.
Variable emission : cube xreal.
Variable init : list xreal.
Variable obs : cube Z.

Hypothesis Hexact : lse_exact lse.
Hypothesis Htr : m_rows transition = c_rows emission.
Hypothesis Hch : c_slices emission = c_slices obs.
Hypothesis Hcodes : forall k t r,
  k < c_rows obs -> t < c_cols obs -> r < c_slices obs ->
  (0 <= c_at obs k t r < Z.of_nat (c_cols emission))%Z.
Hypothesis Hfinite : forward_finite transition emission init = true.

Let plogp := path_logp transition emission init obs.
Let fprob := forward_prob transition emission init obs.
Let elogp := emission_logp emission obs.

Lemma path_logp_snoc (k : nat) (q : list nat) (i : nat) :
  q <> [] ->
  plogp k (q ++ [i])
    = (plogp k q
       + xval (m_at transition (nth (length q - 1)%nat q 0%nat) i)
       + elogp i (length q) k)%R.
Proof.
  intros Hq. unfold plogp, path_logp. fold elogp.
  rewrite length_app. cbn [length].
  destruct (length q) as [| m] eqn:El; [destruct q; [congruence | discriminate] |].
  replace (S m + 1 - 1) with (S m) by lia.
  replace (S m + 1) with (S (S m)) by lia.
  replace (S m - 1) with m by lia.
  rewrite (seq_S m 1), map_app, Rsum_app.
  rewrite (seq_S (S m) 0), map_app, Rsum_app. cbn [map Nat.add].
  rewrite (app_nth1 q [i] 0) by lia.
  assert (E1 : map (fun t => xval (m_at transition (nth (t - 1) (q ++ [i]) 0)
                                     (nth t (q ++ [i]) 0))) (seq 1 m)
               = map (fun t => xval (m_at transition (nth (t - 1) q 0)
                                       (nth t q 0))) (seq 1 m)).
  { apply map_ext_in. intros t Ht. apply in_seq in Ht.
    now rewrite !(app_nth1 q [i] 0) by lia. }
  assert (E2 : map (fun t => elogp (nth t (q ++ [i]) 0) t k) (seq 0 (S m))
               = map (fun t => elogp (nth t q 0) t k) (seq 0 (S m))).
  { apply map_ext_in. intros t Ht. apply in_seq in Ht.
    now rewrite (app_nth1 q [i] 0) by lia. }
  rewrite E1, E2.
  replace (S m - 1) with m by lia.
  rewrite (app_nth1 q [i] 0) by lia.
  rewrite (app_nth2 q [i] 0) by lia. rewrite El, Nat.sub_diag.
  cbn [nth]. unfold Rsum at 2 4. cbn [fold_right]. lra.
Qed.

Lemma forward_prob_0 (k i : nat) :
  fprob k 0 i = exp (xval (nth i init NaN) + elogp i 0%nat k).
Proof.
  unfold fprob, forward_prob. cbn [all_paths map app].
  unfold path_logp. cbn [length Nat.sub seq map nth]. fold elogp.
  unfold Rsum. cbn [fold_right].
  replace (xval (nth i init NaN) + 0 + (elogp i 0%nat k + 0))%R
    with (xval (nth i init NaN) + elogp i 0%nat k)%R by lra.
  lra.
Qed.

Lemma forward_prob_S (k t i : nat) :
  fprob k (S t) i
    = (Rsum (map (fun j => fprob k t j * exp (xval (m_at transition j i)))
                 (seq 0%nat (c_rows emission)))
       * exp (elogp i (S t) k))%R.
Proof.
  unfold fprob, forward_prob. cbn [all_paths].
  rewrite Rsum_flat_map. rewrite <- Rsum_scale_r. f_equal.
  apply map_ext. intros j. rewrite map_map.
  rewrite <- !Rsum_scale_r. f_equal.
  apply map_ext_in. intros p Hp. apply all_paths_spec in Hp.
  destruct Hp as [Hl _]. fold plogp.
  rewrite path_logp_snoc by (destruct p; discriminate).
  rewrite length_app. cbn [length].
  replace (length p + 1 - 1) with (length p) by lia.
  rewrite (app_nth2 p [j] 0) by lia. rewrite Nat.sub_diag. cbn [nth].
  rewrite Hl. replace (t + 1) with (S t) by lia.
  rewrite !exp_plus. reflexivity.
Qed.

Lemma forward_prob_pos (k t i : nat) :
  1 <= c_rows emission -> (0 < fprob k t i)%R.
Proof.
  intros HS. revert i; induction t as [| t IH]; intros i.
  - rewrite forward_prob_0. apply exp_pos.
  - rewrite forward_prob_S. apply Rmult_lt_0_compat; [| apply exp_pos].
    apply Rsum_pos.
    + destruct (c_rows emission); [lia | discriminate].
    + apply Forall_forall. intros x Hx. apply in_map_iff in Hx.
      destruct Hx as [j [<- _]].
      apply Rmult_lt_0_compat; [apply IH | apply exp_pos].
Qed.

Lemma emissions_at_fin (i t k : nat) :
  i < c_rows emission -> t < c_cols obs -> k < c_rows obs ->
  xsum (emissions_at emission obs i t k) = Fin (elogp i t k).
Proof.
  intros Hi Ht Hk. unfold elogp, emission_logp. apply xsum_fin.
  destruct (forward_finite_inv _ _ _ Hfinite) as [_ [_ He]].
  apply Forall_forall. intros x Hx.
  unfold emissions_at in Hx. apply in_map_iff in Hx.
  destruct Hx as [r [<- Hr]]. apply in_seq in Hr.
  assert (Hr' : r < c_slices obs) by lia.
  pose proof (Hcodes Hk Ht Hr') as Hc.
  apply He; [assumption | lia | lia].
Qed.

(** the closed form of the forward table is the logarithm of the
    probability *)
Lemma alpha_col_likelihood (k t : nat) :
  k < c_rows obs -> t < c_cols obs ->
  forall i, i < c_rows emission ->
    alpha_col lse transition emission init obs k t i
      = Fin (ln (fprob k t i)).
Proof.
  intros Hk. induction t as [| t IH]; intros Ht i Hi.
  - cbn [alpha_col]. rewrite emissions_at_fin by assumption.
    destruct (forward_finite_inv _ _ _ Hfinite) as [Hiv _].
    rewrite (is_fin_val _ (Hiv i Hi)). cbn [xadd].
    rewrite forward_prob_0, ln_exp. reflexivity.
  - cbn [alpha_col]. rewrite emissions_at_fin by assumption.
    destruct (forward_finite_inv _ _ _ Hfinite) as [_ [Htv _]].
    assert (HS : 1 <= c_rows emission) by lia.
    assert (Et : forward_terms transition
                   (alpha_col lse transition emission init obs k t) i
                 = map (fun j => Fin (ln (fprob k t j)
                                      + xval (m_at transition j i)))
                       (seq 0 (c_rows emission))).
    { unfold forward_terms. rewrite Htr. apply map_ext_in.
      intros j Hj. apply in_seq in Hj.
      rewrite IH by lia.
      rewrite (is_fin_val _ (Htv j i ltac:(lia) Hi)) at 1. reflexivity. }
    rewrite Et, Hexact.
    + cbn [res_val xadd]. f_equal. rewrite map_map. cbn [xval].
      rewrite forward_prob_S.
      assert (Es : map (fun j => exp (ln (fprob k t j)
                                      + xval (m_at transition j i)))
                       (seq 0 (c_rows emission))
                   = map (fun j => (fprob k t j
                                    * exp (xval (m_at transition j i)))%R)
                       (seq 0 (c_rows emission))).
      { apply map_ext. intros j. rewrite exp_plus, exp_ln; [reflexivity |].
        now apply forward_prob_pos. }
      rewrite Es.
      rewrite ln_mult; [now rewrite ln_exp | | apply exp_pos].
      apply Rsum_pos.
      * destruct (c_rows emission); [lia | discriminate].
      * apply Forall_forall. intros x Hx. apply in_map_iff in Hx.
        destruct Hx as [j [<- _]].
        apply Rmult_lt_0_compat; [now apply forward_prob_pos | apply exp_pos].
    + destruct (c_rows emission); [lia | discriminate].
    + apply Forall_forall. intros x Hx. apply in_map_iff in Hx.
      destruct Hx as [j [<- _]]. reflexivity.
Qed.
End ForwardMeaning.

(** X11.  With a [logSumExp] that is exact on real numbers, on well-formed
    input whose parameters are all real (no zero probability), the entry
    [alpha(i,t,k)] that [internalForward] returns is the logarithm of the
    probability of the first [t+1] observations of sequence [k] together
    with state [i] at time [t]: the sum, over all state sequences of length
    [t], of the exponential of the joint log-probability of the sequence
    followed by [i]. *)
Theorem forward_table_is_log_likelihood
    (lse : list xreal -> res xreal) (transition : mat xreal)
    (emission : cube xreal) (init : list xreal) (obs : cube Z)
    (alpha : cube xreal) :
  lse_total lse -> lse_exact lse ->
  forward_wf transition emission init obs alpha = true ->
  forward_finite transition emission init = true ->
  exists a',
    internalForward lse transition emission init obs alpha = Ok a' /\
    forall i t k, i < c_rows emission -> t < c_cols obs -> k < c_rows obs ->
      c_at a' i t k
        = Fin (ln (forward_prob transition emission init obs k t i)).
Proof.
  intros Hlse Hexact Hwf Hfin.
  destruct (forward_wf_inv _ _ _ _ _ Hwf)
    as [Htr [Htc [Hinit [Hch [Hdims [HT Hcodes]]]]]].
  destruct (@internalForward_spec lse transition emission init obs
              Hlse Htr Htc Hinit Hch Hcodes alpha Hdims HT)
    as [a' [E [_ V]]].
  exists a'. split; [exact E |]. intros i t k Hi Ht Hk.
  rewrite V by assumption.
  now apply alpha_col_likelihood.
Qed.

Lemma forward_table_is_log_likelihood_witness :
  lse_total lse_real /\ lse_exact lse_real /\
  forward_wf ex_transition ex_emission ex_init ex_obs_forward ex_alpha
    = true /\
  forward_finite ex_transition ex_emission ex_init = true /\
  exists a',
    internalForward lse_real ex_transition ex_emission ex_init
      ex_obs_forward ex_alpha = Ok a' /\
    forall i t k,
      i < c_rows ex_emission -> t < c_cols ex_obs_forward ->
      k < c_rows ex_obs_forward ->
      c_at a' i t k
        = Fin (ln (forward_prob ex_transition ex_emission ex_init
                     ex_obs_forward k t i)).
Proof.
  split; [exact lse_real_total |]. split; [exact lse_real_exact |].
  split; [reflexivity |]. split; [reflexivity |].
  apply (@forward_table_is_log_likelihood lse_real ex_transition
           ex_emission ex_init ex_obs_forward ex_alpha);
    [exact lse_real_total | exact lse_real_exact | reflexivity
    | reflexivity].
Defined.

(** ** Empty batches and single time steps *)

(** X12.  On an empty batch [viterbix] still multiplies [X] by [coef] before
    the loop: it returns an empty [q] (no row, one column per time step) and
    an empty [logp] when [X] has a column per row of [coef], and aborts on
    incompatible dimensions otherwise; nothing else is looked at. *)
Theorem viterbix_empty_batch transition emission init (obs : cube nat)
    numberOfStates (coef X : mat xreal) :
  c_slices obs = 0 ->
  (m_cols X = m_rows coef ->
   viterbix transition emission init obs numberOfStates coef X
     = Ok (mat_new 0 (c_cols obs) 0, [])) /\
  (m_cols X <> m_rows coef ->
   viterbix transition emission init obs numberOfStates coef X
     = Err IncompatibleDimensions).
Proof.
  intros HK. split; intros Hd; unfold viterbix.
  - destruct (mix_lweights_spec coef X Hd) as [L [EL _]].
    rewrite EL, HK. reflexivity.
  - unfold mix_lweights, mmul.
    destruct (Nat.eqb_spec (m_cols X) (m_rows coef)); [contradiction |].
    reflexivity.
Qed.

Lemma viterbix_empty_batch_witness :
  c_slices empty_obs_viterbi = 0 /\
  m_cols ex_X = m_rows ex_coef /\
  m_cols wide_X <> m_rows ex_coef /\
  viterbix ex_transition ex_emission ex_init empty_obs_viterbi ex_clusters
    ex_coef ex_X = Ok (mat_new 0 (c_cols empty_obs_viterbi) 0, []) /\
  viterbix ex_transition ex_emission ex_init empty_obs_viterbi ex_clusters
    ex_coef wide_X = Err IncompatibleDimensions.
Proof.
  assert (Hne : m_cols wide_X <> m_rows ex_coef) by (simpl; lia).
  split; [reflexivity |]. split; [reflexivity |]. split; [exact Hne |].
  split.
  - apply (proj1 (@viterbix_empty_batch ex_transition ex_emission ex_init
                    empty_obs_viterbi ex_clusters ex_coef ex_X eq_refl)).
    reflexivity.
  - apply (proj2 (@viterbix_empty_batch ex_transition ex_emission ex_init
                    empty_obs_viterbi ex_clusters ex_coef wide_X eq_refl)).
    exact Hne.
Defined.

Lemma for_loop_ext (S : Type) (l : list nat) (f g : nat -> S -> res S)
    (s : S) :
  (forall x s0, In x l -> f x s0 = g x s0) ->
  for_loop l f s = for_loop l g s.
Proof.
  revert s; induction l as [| x l IH]; intros s H; [reflexivity |].
  cbn [for_loop]. rewrite H by now left.
  destruct (g x s); cbn [bind]; [| reflexivity].
  apply IH. intros y s0 Hy. apply H. now right.
Qed.

(** X13.  On a batch with a single time step neither computation reads the
    transition matrix: the result is the same for any two transition
    matrices, of whatever shape and content. *)
Theorem single_step_ignores_transition (lse : list xreal -> res xreal)
    (transition1 transition2 : mat xreal) (emission : cube xreal)
    (init : list xreal) :
  (forall (obs : cube Z) (alpha : cube xreal),
     c_cols obs = 1 ->
     internalForward lse transition1 emission init obs alpha
       = internalForward lse transition2 emission init obs alpha) /\
  (forall (obs : cube nat) numberOfStates coef X,
     c_cols obs = 1 ->
     viterbix transition1 emission init obs numberOfStates coef X
       = viterbix transition2 emission init obs numberOfStates coef X).
Proof.
  split.
  - intros obs alpha HT. unfold internalForward. rewrite HT. reflexivity.
  - intros obs ns coef X HT. unfold viterbix.
    destruct (mix_lweights coef X) as [L | e]; cbn [bind]; [| reflexivity].
    rewrite HT. apply for_loop_ext. intros k out _.
    unfold viterbix_tables. rewrite HT. reflexivity.
Qed.

Lemma single_step_ignores_transition_witness :
  c_cols one_step_obs_forward = 1 /\ c_cols one_step_obs_viterbi = 1 /\
  internalForward logSumExp ex_transition ex_emission ex_init
    one_step_obs_forward ex_alpha
    = internalForward logSumExp bad_transition ex_emission ex_init
        one_step_obs_forward ex_alpha /\
  viterbix ex_transition ex_emission ex_init one_step_obs_viterbi
    ex_clusters ex_coef ex_X
    = viterbix bad_transition ex_emission ex_init one_step_obs_viterbi
        ex_clusters ex_coef ex_X.
Proof.
  pose proof (@single_step_ignores_transition logSumExp ex_transition
                bad_transition ex_emission ex_init) as [HF HV].
  split; [reflexivity |]. split; [reflexivity |]. split.
  - apply HF. reflexivity.
  - apply HV. reflexivity.
Defined.
